(** * PAL assembler for the PDP-8 (palbart 2.5): a shallow embedding

    The development follows [palbart-2.5.c].  Every C global that the
    assembly engine reads or writes is a field of [state]; the globals are
    grouped by the component that owns them (line buffer and lexer, machine
    registers, object encoder, symbol table, literal pools, diagnostics).
    C functions keep their names.  Functions that always return are plain
    state transformers; functions that can stop the assembler, run off an
    array or loop on their input live in the monad [M].

    Conventions:
    - [WORD16] (a C [short]) is a [Z] kept in the signed 16 bit range by
      [w16] at every store that can leave it; [int] values are plain [Z].
    - Octal constants of the C source are written in decimal with the octal
      spelling in a comment.
    - The listing file, its pagination and the concordance table [xreftab]
      are not part of the embedding; [printLine] and [listLine] therefore
      have no counterpart.  The per-symbol reference counter is kept.
    - Source characters are 7 bit ASCII. *)

From Stdlib Require Import ZArith List String Ascii Bool Lia DecimalString.
From stdpp Require Import base list strings.

Open Scope Z_scope.

(** ** Machine integers *)

Definition w16 (z : Z) : Z := (z + 32768) mod 65536 - 32768.

Definition PAGE_SIZE : Z := 128.        (* 00200 *)
Definition ADDRESS_FIELD : Z := 127.    (* 00177 *)
Definition INDIRECT_BIT : Z := 256.     (* 00400 *)
Definition PAGE_BIT : Z := 128.         (* 00200 *)
Definition LINELEN : Z := 96.
Definition SYMLEN : Z := 7.
Definition SYMBOL_TABLE_SIZE : Z := 1024.

(** ** Characters and the line buffer *)

Definition NUL : ascii := "000"%char.
Definition TAB : ascii := "009"%char.
Definition NL : ascii := "010"%char.
Definition FF : ascii := "012"%char.
Definition CR : ascii := "013"%char.

Definition code (c : ascii) : Z := Z.of_N (N_of_ascii c).
Definition chr (c d : ascii) : bool := Ascii.eqb c d.

Definition is_blank (c : ascii) : bool :=
  chr c " " || chr c TAB || chr c FF || chr c ">".
Definition isend (c : ascii) : bool := chr c NUL || chr c NL.
Definition isdone (c : ascii) : bool := chr c "/" || isend c || chr c ";".

Definition isupper (c : ascii) : bool := (65 <=? code c) && (code c <=? 90).
Definition islower (c : ascii) : bool := (97 <=? code c) && (code c <=? 122).
Definition isalpha (c : ascii) : bool := isupper c || islower c.
Definition isdigit (c : ascii) : bool := (48 <=? code c) && (code c <=? 57).
Definition isalnum (c : ascii) : bool := isalpha c || isdigit c.
Definition toupper (c : ascii) : ascii :=
  if islower c then ascii_of_N (N_of_ascii c - 32) else c.

Fixpoint drop_str (n : nat) (s : string) : string :=
  match n, s with
  | O, _ => s
  | S k, String _ s' => drop_str k s'
  | S _, EmptyString => EmptyString
  end.

(** Number of leading characters of [s] that satisfy [p]: the trip count of
    a C loop [while( p( line[i] )) i++]. *)
Fixpoint span_len (p : ascii -> bool) (s : string) : Z :=
  match s with
  | String c s' => if p c then 1 + span_len p s' else 0
  | EmptyString => 0
  end.

Definition str_at (s : string) (i : Z) : ascii :=
  if i <? 0 then NUL
  else match String.get (Z.to_nat i) s with Some c => c | None => NUL end.

(** ** Symbol types ([enum symtyp]) *)

Definition SYMTYP := Z.
Definition UNDEFINED : SYMTYP := 0.
Definition DEFINED : SYMTYP := 1.
Definition FIXED : SYMTYP := 2.
Definition MRI : SYMTYP := 5.           (* 0004 | DEFINED *)
Definition LABEL : SYMTYP := 9.         (* 0010 | DEFINED *)
Definition REDEFINED : SYMTYP := 17.    (* 0020 | DEFINED *)
Definition DUPLICATE : SYMTYP := 33.    (* 0040 | DEFINED *)
Definition PSEUDO : SYMTYP := 67.       (* 0100 | FIXED | DEFINED *)
Definition CONDITION : SYMTYP := 129.   (* 0200 | DEFINED *)
Definition MRIFIX : SYMTYP := 7.        (* MRI | FIXED | DEFINED *)
Definition DEFFIX : SYMTYP := 3.        (* DEFINED | FIXED *)

Definition has (flag s : SYMTYP) : bool := Z.land s flag =? flag.
Definition M_CONDITIONAL := has CONDITION.
Definition M_DEFINED := has DEFINED.
Definition M_DUPLICATE := has DUPLICATE.
Definition M_FIXED := has FIXED.
Definition M_LABEL := has LABEL.
Definition M_MRI := has MRI.
Definition M_PSEUDO := has PSEUDO.
Definition M_REDEFINED := has REDEFINED.
Definition M_UNDEFINED (s : SYMTYP) : bool := negb (M_DEFINED s).

(** The test used by the conditional assembly pseudo-ops; [M_DEF] and
    [M_COND] are both [M_DEFINED] in the source. *)
Definition M_DEF := M_DEFINED.
Definition M_COND := M_DEFINED.
Definition M_DEFINED_CONDITIONALLY (pass : Z) (t : SYMTYP) : bool :=
  (M_DEF t && (pass =? 1)) || (negb (M_COND t) && (pass =? 2)).

(** ** Pseudo-operators ([enum pseudo_t]) *)

Definition BANK : Z := 0.
Definition BINPUNCH : Z := 1.
Definition DECIMAL : Z := 2.
Definition DUBL : Z := 3.
Definition EJECT : Z := 4.
Definition ENPUNCH : Z := 5.
Definition EXPUNGE : Z := 6.
Definition FIELD : Z := 7.
Definition FIXMRI : Z := 8.
Definition FIXTAB : Z := 9.
Definition FLTG : Z := 10.
Definition IFDEF : Z := 11.
Definition IFNDEF : Z := 12.
Definition IFNZERO : Z := 13.
Definition IFZERO : Z := 14.
Definition NOPUNCH : Z := 15.
Definition OCTAL : Z := 16.
Definition PAGE : Z := 17.
Definition PAUSE : Z := 18.
Definition RELOC : Z := 19.
Definition RIMPUNCH : Z := 20.
Definition SEGMNT : Z := 21.
Definition TEXT : Z := 22.
Definition TITLE : Z := 23.
Definition XLIST : Z := 24.
Definition ZBLOCK : Z := 25.

(** ** Records *)

Record SYM_T := mkSym {
  type : SYMTYP;
  name : string;
  val : Z;
  xref_count : Z
}.

Definition sym_undefined : SYM_T := mkSym UNDEFINED EmptyString 0 0.

#[global] Instance SYM_T_inhabited : Inhabited SYM_T := populate sym_undefined.

Record LPOOL_T := mkPool {
  error : bool;               (* True if error message has been printed. *)
  loc : Z;
  pool : list Z               (* WORD16 pool[PAGE_SIZE] *)
}.

(** Diagnostics ([EMSG_T] values of the source). *)
Inductive EMSG_T :=
  | duplicate_label | illegal_blank | illegal_character | illegal_expression
  | label_syntax | not_a_number | number_not_radix | symbol_syntax
  | illegal_equals | illegal_indirect | illegal_reference | undefined_symbol
  | redefined_symbol | literal_overflow | pz_literal_overflow | dubl_overflow
  | fltg_overflow | zblock_too_small | zblock_too_large | end_of_file
  | no_pseudo_op | illegal_field_value | literal_gen_off | no_literal_value
  | text_string | in_rim_mode | lt_expected | symbol_table_full.

Definition EMSG_eqb (a b : EMSG_T) : bool :=
  match a, b with
  | duplicate_label, duplicate_label | illegal_blank, illegal_blank
  | illegal_character, illegal_character | illegal_expression, illegal_expression
  | label_syntax, label_syntax | not_a_number, not_a_number
  | number_not_radix, number_not_radix | symbol_syntax, symbol_syntax
  | illegal_equals, illegal_equals | illegal_indirect, illegal_indirect
  | illegal_reference, illegal_reference | undefined_symbol, undefined_symbol
  | redefined_symbol, redefined_symbol | literal_overflow, literal_overflow
  | pz_literal_overflow, pz_literal_overflow | dubl_overflow, dubl_overflow
  | fltg_overflow, fltg_overflow | zblock_too_small, zblock_too_small
  | zblock_too_large, zblock_too_large | end_of_file, end_of_file
  | no_pseudo_op, no_pseudo_op | illegal_field_value, illegal_field_value
  | literal_gen_off, literal_gen_off | no_literal_value, no_literal_value
  | text_string, text_string | in_rim_mode, in_rim_mode
  | lt_expected, lt_expected | symbol_table_full, symbol_table_full => true
  | _, _ => false
  end.

(** One line of the error file: message, optional symbol name, line, column
    and location counter, as printed by [errorSymbol] and [errorMessage]. *)
Record errent := mkErr {
  e_mesg : EMSG_T;
  e_name : option string;
  e_lineno : Z;
  e_col : Z;
  e_loc : Z
}.

Record lexer := mkLexer {
  infile : string;            (* unread part of the source file *)
  line : string;              (* Input line. *)
  lineno : Z;                 (* Current line number. *)
  cc : Z;                     (* Column Counter (char position in line). *)
  maxcc : Z;                  (* Current line length. *)
  lexstart : Z;               (* Index of current lexeme on line. *)
  lexterm : Z;                (* Index of character after current lexeme. *)
  lexstartprev : Z;           (* Where previous lexeme started. *)
  lextermprev : Z;            (* Where previous lexeme ended. *)
  delimiter : ascii;          (* Character immediately after eval'd term. *)
  indirect_generated : bool   (* TRUE if an off page address generated. *)
}.

Record machine := mkMachine {
  clc : Z;                    (* Location counter *)
  field : Z;                  (* Current field *)
  fieldlc : Z;                (* location counter without field portion. *)
  reloc : Z;                  (* The relocation distance. *)
  radix : Z;                  (* Default number radix. *)
  pass : Z;                   (* Number of current pass. *)
  literals_on : bool;         (* Generate literals, defaults to none *)
  rim_mode : bool             (* Generate rim format, defaults to bin *)
}.

Record encoder := mkEncoder {
  checksum : Z;               (* Generated checksum *)
  binary_data_output : bool;  (* Set true when data has been output. *)
  objectfile : bool;          (* objectfile != NULL *)
  objectsave : bool;          (* objectsave != NULL *)
  object_out : list Z         (* frames written to the object file *)
}.

Record symbols := mkSymbols {
  symtab : list SYM_T;        (* symtab[0 .. symbol_top) *)
  number_of_fixed_symbols : Z;
  xref : bool;
  last_xref_lexstart : Z;
  last_xref_lineno : Z;
  sym_eval : SYM_T;           (* Value holder for eval() *)
  sym_getexpr : SYM_T         (* Value holder for getexpr() *)
}.

Record pools := mkPools {
  pz : LPOOL_T;               (* Storage for page zero constants. *)
  cp : LPOOL_T                (* Storage for current page constants. *)
}.

Record errstate := mkErrstate {
  errors : Z;                 (* Number of errors found so far. *)
  error_in_line : bool;       (* TRUE if error on current line. *)
  errorfile : list errent
}.

Record state := mkState {
  lexs : lexer;
  mach : machine;
  enc : encoder;
  syms : symbols;
  lits : pools;
  errs : errstate
}.

Definition symbol_top (st : state) : Z := Z.of_nat (length (symtab (syms st))).

(** ** Field updates *)

Definition with_lexs (f : lexer -> lexer) (st : state) : state :=
  {| lexs := f (lexs st); mach := mach st; enc := enc st; syms := syms st; lits := lits st; errs := errs st |}.
Definition set_infile (v : string) : state -> state :=
    with_lexs (fun r => {| infile := v; line := line r; lineno := lineno r; cc := cc r; maxcc :=
       maxcc r; lexstart := lexstart r; lexterm := lexterm r; lexstartprev := lexstartprev r;
       lextermprev := lextermprev r; delimiter := delimiter r; indirect_generated :=
       indirect_generated r |}).
Definition set_line (v : string) : state -> state :=
    with_lexs (fun r => {| infile := infile r; line := v; lineno := lineno r; cc := cc r; maxcc :=
       maxcc r; lexstart := lexstart r; lexterm := lexterm r; lexstartprev := lexstartprev r;
       lextermprev := lextermprev r; delimiter := delimiter r; indirect_generated :=
       indirect_generated r |}).
Definition set_lineno (v : Z) : state -> state :=
    with_lexs (fun r => {| infile := infile r; line := line r; lineno := v; cc := cc r; maxcc :=
       maxcc r; lexstart := lexstart r; lexterm := lexterm r; lexstartprev := lexstartprev r;
       lextermprev := lextermprev r; delimiter := delimiter r; indirect_generated :=
       indirect_generated r |}).
Definition set_cc (v : Z) : state -> state :=
    with_lexs (fun r => {| infile := infile r; line := line r; lineno := lineno r; cc := v; maxcc
       := maxcc r; lexstart := lexstart r; lexterm := lexterm r; lexstartprev := lexstartprev r;
       lextermprev := lextermprev r; delimiter := delimiter r; indirect_generated :=
       indirect_generated r |}).
Definition set_maxcc (v : Z) : state -> state :=
    with_lexs (fun r => {| infile := infile r; line := line r; lineno := lineno r; cc := cc r;
       maxcc := v; lexstart := lexstart r; lexterm := lexterm r; lexstartprev := lexstartprev r;
       lextermprev := lextermprev r; delimiter := delimiter r; indirect_generated :=
       indirect_generated r |}).
Definition set_lexstart (v : Z) : state -> state :=
    with_lexs (fun r => {| infile := infile r; line := line r; lineno := lineno r; cc := cc r;
       maxcc := maxcc r; lexstart := v; lexterm := lexterm r; lexstartprev := lexstartprev r;
       lextermprev := lextermprev r; delimiter := delimiter r; indirect_generated :=
       indirect_generated r |}).
Definition set_lexterm (v : Z) : state -> state :=
    with_lexs (fun r => {| infile := infile r; line := line r; lineno := lineno r; cc := cc r;
       maxcc := maxcc r; lexstart := lexstart r; lexterm := v; lexstartprev := lexstartprev r;
       lextermprev := lextermprev r; delimiter := delimiter r; indirect_generated :=
       indirect_generated r |}).
Definition set_lexstartprev (v : Z) : state -> state :=
    with_lexs (fun r => {| infile := infile r; line := line r; lineno := lineno r; cc := cc r;
       maxcc := maxcc r; lexstart := lexstart r; lexterm := lexterm r; lexstartprev := v;
       lextermprev := lextermprev r; delimiter := delimiter r; indirect_generated :=
       indirect_generated r |}).
Definition set_lextermprev (v : Z) : state -> state :=
    with_lexs (fun r => {| infile := infile r; line := line r; lineno := lineno r; cc := cc r;
       maxcc := maxcc r; lexstart := lexstart r; lexterm := lexterm r; lexstartprev :=
       lexstartprev r; lextermprev := v; delimiter := delimiter r; indirect_generated :=
       indirect_generated r |}).
Definition set_delimiter (v : ascii) : state -> state :=
    with_lexs (fun r => {| infile := infile r; line := line r; lineno := lineno r; cc := cc r;
       maxcc := maxcc r; lexstart := lexstart r; lexterm := lexterm r; lexstartprev :=
       lexstartprev r; lextermprev := lextermprev r; delimiter := v; indirect_generated :=
       indirect_generated r |}).
Definition set_indirect_generated (v : bool) : state -> state :=
    with_lexs (fun r => {| infile := infile r; line := line r; lineno := lineno r; cc := cc r;
       maxcc := maxcc r; lexstart := lexstart r; lexterm := lexterm r; lexstartprev :=
       lexstartprev r; lextermprev := lextermprev r; delimiter := delimiter r;
       indirect_generated := v |}).
Definition with_mach (f : machine -> machine) (st : state) : state :=
  {| lexs := lexs st; mach := f (mach st); enc := enc st; syms := syms st; lits := lits st; errs := errs st |}.
Definition set_clc (v : Z) : state -> state :=
    with_mach (fun r => {| clc := v; field := field r; fieldlc := fieldlc r; reloc := reloc r;
       radix := radix r; pass := pass r; literals_on := literals_on r; rim_mode := rim_mode r
       |}).
Definition set_field (v : Z) : state -> state :=
    with_mach (fun r => {| clc := clc r; field := v; fieldlc := fieldlc r; reloc := reloc r; radix
       := radix r; pass := pass r; literals_on := literals_on r; rim_mode := rim_mode r |}).
Definition set_fieldlc (v : Z) : state -> state :=
    with_mach (fun r => {| clc := clc r; field := field r; fieldlc := v; reloc := reloc r; radix
       := radix r; pass := pass r; literals_on := literals_on r; rim_mode := rim_mode r |}).
Definition set_reloc (v : Z) : state -> state :=
    with_mach (fun r => {| clc := clc r; field := field r; fieldlc := fieldlc r; reloc := v; radix
       := radix r; pass := pass r; literals_on := literals_on r; rim_mode := rim_mode r |}).
Definition set_radix (v : Z) : state -> state :=
    with_mach (fun r => {| clc := clc r; field := field r; fieldlc := fieldlc r; reloc := reloc r;
       radix := v; pass := pass r; literals_on := literals_on r; rim_mode := rim_mode r |}).
Definition set_pass (v : Z) : state -> state :=
    with_mach (fun r => {| clc := clc r; field := field r; fieldlc := fieldlc r; reloc := reloc r;
       radix := radix r; pass := v; literals_on := literals_on r; rim_mode := rim_mode r |}).
Definition set_literals_on (v : bool) : state -> state :=
    with_mach (fun r => {| clc := clc r; field := field r; fieldlc := fieldlc r; reloc := reloc r;
       radix := radix r; pass := pass r; literals_on := v; rim_mode := rim_mode r |}).
Definition set_rim_mode (v : bool) : state -> state :=
    with_mach (fun r => {| clc := clc r; field := field r; fieldlc := fieldlc r; reloc := reloc r;
       radix := radix r; pass := pass r; literals_on := literals_on r; rim_mode := v |}).
Definition with_enc (f : encoder -> encoder) (st : state) : state :=
  {| lexs := lexs st; mach := mach st; enc := f (enc st); syms := syms st; lits := lits st; errs := errs st |}.
Definition set_checksum (v : Z) : state -> state :=
    with_enc (fun r => {| checksum := v; binary_data_output := binary_data_output r; objectfile
       := objectfile r; objectsave := objectsave r; object_out := object_out r |}).
Definition set_binary_data_output (v : bool) : state -> state :=
    with_enc (fun r => {| checksum := checksum r; binary_data_output := v; objectfile :=
       objectfile r; objectsave := objectsave r; object_out := object_out r |}).
Definition set_objectfile (v : bool) : state -> state :=
    with_enc (fun r => {| checksum := checksum r; binary_data_output := binary_data_output r;
       objectfile := v; objectsave := objectsave r; object_out := object_out r |}).
Definition set_objectsave (v : bool) : state -> state :=
    with_enc (fun r => {| checksum := checksum r; binary_data_output := binary_data_output r;
       objectfile := objectfile r; objectsave := v; object_out := object_out r |}).
Definition set_object_out (v : list Z) : state -> state :=
    with_enc (fun r => {| checksum := checksum r; binary_data_output := binary_data_output r;
       objectfile := objectfile r; objectsave := objectsave r; object_out := v |}).
Definition with_syms (f : symbols -> symbols) (st : state) : state :=
  {| lexs := lexs st; mach := mach st; enc := enc st; syms := f (syms st); lits := lits st; errs := errs st |}.
Definition set_symtab (v : list SYM_T) : state -> state :=
    with_syms (fun r => {| symtab := v; number_of_fixed_symbols := number_of_fixed_symbols r; xref
       := xref r; last_xref_lexstart := last_xref_lexstart r; last_xref_lineno :=
       last_xref_lineno r; sym_eval := sym_eval r; sym_getexpr := sym_getexpr r |}).
Definition set_number_of_fixed_symbols (v : Z) : state -> state :=
    with_syms (fun r => {| symtab := symtab r; number_of_fixed_symbols := v; xref := xref r;
       last_xref_lexstart := last_xref_lexstart r; last_xref_lineno := last_xref_lineno r;
       sym_eval := sym_eval r; sym_getexpr := sym_getexpr r |}).
Definition set_xref (v : bool) : state -> state :=
    with_syms (fun r => {| symtab := symtab r; number_of_fixed_symbols := number_of_fixed_symbols
       r; xref := v; last_xref_lexstart := last_xref_lexstart r; last_xref_lineno :=
       last_xref_lineno r; sym_eval := sym_eval r; sym_getexpr := sym_getexpr r |}).
Definition set_last_xref_lexstart (v : Z) : state -> state :=
    with_syms (fun r => {| symtab := symtab r; number_of_fixed_symbols := number_of_fixed_symbols
       r; xref := xref r; last_xref_lexstart := v; last_xref_lineno := last_xref_lineno r;
       sym_eval := sym_eval r; sym_getexpr := sym_getexpr r |}).
Definition set_last_xref_lineno (v : Z) : state -> state :=
    with_syms (fun r => {| symtab := symtab r; number_of_fixed_symbols := number_of_fixed_symbols
       r; xref := xref r; last_xref_lexstart := last_xref_lexstart r; last_xref_lineno := v;
       sym_eval := sym_eval r; sym_getexpr := sym_getexpr r |}).
Definition set_sym_eval (v : SYM_T) : state -> state :=
    with_syms (fun r => {| symtab := symtab r; number_of_fixed_symbols := number_of_fixed_symbols
       r; xref := xref r; last_xref_lexstart := last_xref_lexstart r; last_xref_lineno :=
       last_xref_lineno r; sym_eval := v; sym_getexpr := sym_getexpr r |}).
Definition set_sym_getexpr (v : SYM_T) : state -> state :=
    with_syms (fun r => {| symtab := symtab r; number_of_fixed_symbols := number_of_fixed_symbols
       r; xref := xref r; last_xref_lexstart := last_xref_lexstart r; last_xref_lineno :=
       last_xref_lineno r; sym_eval := sym_eval r; sym_getexpr := v |}).
Definition with_lits (f : pools -> pools) (st : state) : state :=
  {| lexs := lexs st; mach := mach st; enc := enc st; syms := syms st; lits := f (lits st); errs := errs st |}.
Definition set_pz (v : LPOOL_T) : state -> state :=
    with_lits (fun r => {| pz := v; cp := cp r |}).
Definition set_cp (v : LPOOL_T) : state -> state :=
    with_lits (fun r => {| pz := pz r; cp := v |}).
Definition with_errs (f : errstate -> errstate) (st : state) : state :=
  {| lexs := lexs st; mach := mach st; enc := enc st; syms := syms st; lits := lits st; errs := f (errs st) |}.
Definition set_errors (v : Z) : state -> state :=
    with_errs (fun r => {| errors := v; error_in_line := error_in_line r; errorfile := errorfile r
       |}).
Definition set_error_in_line (v : bool) : state -> state :=
    with_errs (fun r => {| errors := errors r; error_in_line := v; errorfile := errorfile r |}).
Definition set_errorfile (v : list errent) : state -> state :=
    with_errs (fun r => {| errors := errors r; error_in_line := error_in_line r; errorfile := v
       |}).

Definition pool_error (v : bool) (p : LPOOL_T) : LPOOL_T := mkPool v (loc p) (pool p).
Definition pool_loc (v : Z) (p : LPOOL_T) : LPOOL_T := mkPool (error p) v (pool p).
Definition pool_pool (v : list Z) (p : LPOOL_T) : LPOOL_T := mkPool (error p) (loc p) v.

Definition sym_type (v : SYMTYP) (s : SYM_T) : SYM_T :=
  mkSym v (name s) (val s) (xref_count s).
Definition sym_val (v : Z) (s : SYM_T) : SYM_T :=
  mkSym (type s) (name s) v (xref_count s).
Definition sym_xref_count (v : Z) (s : SYM_T) : SYM_T :=
  mkSym (type s) (name s) (val s) v.

(** ** The monad of the engine

    A computation either returns a value and the next state, or stops with
    a [fault]: the assembler exits, the C code leaves defined behaviour, or
    the embedding ran out of [fuel] (loops over the input are bounded by a
    fuel argument). *)

Inductive fault :=
  | SymbolTableFull           (* exit( 1 ) in lookup *)
  | DivideByZero              (* x / 0 in getExpr *)
  | PoolOverrun               (* store outside pool[0 .. PAGE_SIZE) *)
  | LineOverrun               (* store outside line[0 .. LINELEN) *)
  | NotEmbedded               (* DUBL, FLTG, TITLE, and TEXT delimited by the NUL *)
  | OutOfFuel.

Inductive result (A : Type) :=
  | Ok (a : A)
  | Fault (f : fault).
Arguments Ok {A} a.
Arguments Fault {A} f.

Definition M (A : Type) : Type := state -> result (A * state).

Definition ret {A} (a : A) : M A := fun st => Ok (a, st).
Definition bind {A B} (m : M A) (k : A -> M B) : M B :=
  fun st => match m st with
            | Ok (a, st') => k a st'
            | Fault f => Fault f
            end.
Definition raise {A} (f : fault) : M A := fun _ => Fault f.
Definition get : M state := fun st => Ok (st, st).
Definition modify (f : state -> state) : M unit := fun st => Ok (tt, f st).
Definition call {A} (f : state -> A * state) : M A := fun st => Ok (f st).

Notation "'do' x <- m ; k" := (bind m (fun x => k))
  (at level 10, x name, m at level 100, k at level 200, only parsing).
Notation "'do' ' p <- m ; k" := (bind m (fun y => let 'p := y in k))
  (at level 10, p strict pattern, m at level 100, k at level 200, only parsing).
Notation "'run' f ; k" := (bind (modify f) (fun _ => k))
  (at level 10, f at level 100, k at level 200, only parsing).

(** ** Diagnostics ([errorSymbol], [errorMessage], [errorLexeme])

    An error is counted and written to the error file in pass 2 only;
    [error_in_line] is raised in both passes. *)

Definition DQUOTE : ascii := "034"%char.

Definition cur (st : state) (i : Z) : ascii := str_at (line (lexs st)) i.

Definition log_error (mesg : EMSG_T) (nm : option string) (col : Z) (st : state) : state :=
  set_errorfile
    (errorfile (errs st) ++ [mkErr mesg nm (lineno (lexs st)) col (clc (mach st))])
    (set_errors (errors (errs st) + 1) st).

Definition errorSymbol (mesg : EMSG_T) (nm : string) (col : Z) (st : state) : state :=
  set_error_in_line true
    (if pass (mach st) =? 2 then log_error mesg (Some nm) col st else st).

Definition errorMessage (mesg : EMSG_T) (col : Z) (st : state) : state :=
  set_error_in_line true
    (if pass (mach st) =? 2 then log_error mesg None col st else st).

(** [strlen] view of a character buffer: the characters before the first NUL. *)
Fixpoint c_string (s : string) : string :=
  match s with
  | EmptyString => EmptyString
  | String c s' => if chr c NUL then EmptyString else String c (c_string s')
  end.

Fixpoint copy_upper (s : string) (from : Z) (n : nat) : string :=
  match n with
  | O => EmptyString
  | S k => String (toupper (str_at s from)) (copy_upper s (from + 1) k)
  end.

Definition lexemeToName (st : state) (from term : Z) : string :=
  c_string (copy_upper (line (lexs st)) from (Z.to_nat (Z.min (term - from) (SYMLEN - 1)))).

Definition errorLexeme (mesg : EMSG_T) (col : Z) (st : state) : state :=
  errorSymbol mesg (lexemeToName st (lexstart (lexs st)) (lexterm (lexs st))) col st.

(** ** Lexer *)

(** [while( p( line[cc] )) cc++] *)
Definition skip (p : ascii -> bool) (st : state) : state :=
  set_cc (cc (lexs st) + span_len p (drop_str (Z.to_nat (cc (lexs st))) (line (lexs st)))) st.

Definition moveToEndOfLine (st : state) : state :=
  let st1 := skip (fun c => negb (isend c)) st in
  let c := cc (lexs st1) in
  set_lexstartprev c (set_lexterm c (set_lexstart c st1)).

Definition nextLexeme (st : state) : state :=
  (* Save start column of previous lexeme for diagnostic messages. *)
  let st1 := set_lextermprev (lexterm (lexs st)) (set_lexstartprev (lexstart (lexs st)) st) in
  let st2 := skip is_blank st1 in
  let st3 := set_lexstart (cc (lexs st2)) st2 in
  let c := cur st3 (cc (lexs st3)) in
  let st4 :=
    if isalnum c then skip isalnum st3
    else if isend c then st3                        (* End-of-Line, don't advance cc! *)
    else if chr c DQUOTE then                       (* Quoted letter *)
      if cc (lexs st3) + 2 <? maxcc (lexs st3)
      then set_cc (cc (lexs st3) + 2) st3
      else let st' := errorMessage no_literal_value (lexstart (lexs st3)) st3 in
           set_cc (cc (lexs st') + 1) st'
    else if chr c "/" then st3                      (* Comment, don't advance cc! *)
    else set_cc (cc (lexs st3) + 1) st3 in            (* All other punctuation. *)
  set_lexterm (cc (lexs st4)) st4.

Definition nextLexBlank (st : state) : state :=
  let st1 := nextLexeme st in
  let st2 :=
    if is_blank (delimiter (lexs st1))
    then errorMessage illegal_blank (lexstart (lexs st1) - 1) st1
    else st1 in
  set_delimiter (cur st2 (lexterm (lexs st2))) st2.

(** ** Reading a line *)

(** [fgets( inpline, n + 1, infile )]: at most [n] characters, through the
    first newline.  Returns the characters read and the rest of the file. *)
Fixpoint fgets (n : nat) (s : string) : string * string :=
  match n, s with
  | O, _ => (EmptyString, s)
  | S _, EmptyString => (EmptyString, EmptyString)
  | S k, String c s' =>
      if chr c NL then (String c EmptyString, s')
      else let (a, b) := fgets k s' in (String c a, b)
  end.

Fixpoint spaces (n : nat) (s : string) : string :=
  match n with O => s | S k => String " " (spaces k s) end.

(** Tabs become blanks up to the next multiple of 8 columns; [iy] is the
    write index into [line]. *)
Fixpoint expand_tabs (inpline : string) (iy : Z) : string :=
  match inpline with
  | EmptyString => EmptyString
  | String c rest =>
      if chr c TAB
      then let k := 8 - iy mod 8 in spaces (Z.to_nat k) (expand_tabs rest (iy + k))
      else String c (expand_tabs rest (iy + 1))
  end.

Definition strlen (s : string) : Z := Z.of_nat (String.length s).

(** If the line is terminated by CR-LF, remove the CR.  For a line of fewer
    than two characters the source reads [line[iy - 2]] before the buffer;
    the embedding takes that character to differ from CR. *)
Definition strip_cr (l : string) : string :=
  let iy := strlen l in
  if (2 <=? iy) && chr (str_at l (iy - 2)) CR
  then (substring 0 (Z.to_nat (iy - 2)) l ++ String (str_at l (iy - 1)) EmptyString)%string
  else l.

Definition readLine : M unit := fun st =>
  let st1 := set_lexstartprev 0 (set_cc 0 (set_indirect_generated false
               (set_lineno (lineno (lexs st) + 1) st))) in
  let '(inpline, rest) := fgets (Z.to_nat (LINELEN - 2)) (infile (lexs st1)) in
  let '(inpline, st2) :=
    if strlen inpline =? 0
    then (String "$" (String NL EmptyString), set_error_in_line true st1)
    else (c_string inpline,      (* the copy loop stops at the first NUL *)
          set_error_in_line false (set_infile rest st1)) in
  let expanded := expand_tabs inpline 0 in
  if LINELEN <=? strlen expanded then Fault LineOverrun
  else
    let l := strip_cr expanded in
    Ok (tt, set_maxcc (strlen l) (set_line l st2)).

(** ** Object encoder *)

Definition fputc (v : Z) (st : state) : state :=
  set_object_out (object_out (enc st) ++ [v]) st.

(** Put one character to object file and include it in checksum. *)
Definition punchObject (v : Z) (st : state) : state :=
  let v := Z.land v 255 in                                    (* val &= 0377 *)
  let st1 := if objectfile (enc st) then fputc v st else st in
  set_binary_data_output true (set_checksum (w16 (checksum (enc st1) + v)) st1).

Definition punchOrigin (l : Z) (st : state) : state :=
  punchObject (Z.land l 63)
    (punchObject (Z.lor (Z.land (Z.shiftr l 6) 63) 64) st).

Definition punchLocObject (l v : Z) (st : state) : state :=
  let st1 := if rim_mode (mach st) then punchOrigin l st else st in
  punchObject (Z.land v 63) (punchObject (Z.land (Z.shiftr v 6) 63) st1).

(** [printLine] belongs to the listing; only the punch remains. *)
Definition punchOutObject (l v : Z) (st : state) : state := punchLocObject l v st.

Definition punchChecksum (st : state) : state :=
  let st1 :=
    if binary_data_output (enc st) && negb (rim_mode (mach st))
    then punchLocObject 0 (checksum (enc st)) st
    else st in
  set_checksum 0 (set_binary_data_output false st1).

Definition punchLeader (count : Z) (st : state) : state :=
  let count := if count =? 0 then 240 else count in
  if objectfile (enc st)
  then set_object_out (object_out (enc st) ++ repeat 128 (Z.to_nat count)) st
  else st.

(** ** Literal pools *)

Inductive pool_id := PZ | CP.

Definition get_pool (w : pool_id) (st : state) : LPOOL_T :=
  match w with PZ => pz (lits st) | CP => cp (lits st) end.

Definition put_pool (w : pool_id) (p : LPOOL_T) (st : state) : state :=
  match w with PZ => set_pz p st | CP => set_cp p st end.

(** [ix = PAGE_SIZE - 1; while( ix >= p->loc && p->pool[ix] != value ) ix--;]
    with [n = ix + 1]; the result is the final [ix]. *)
Fixpoint search_pool (p : LPOOL_T) (value : Z) (n : nat) : Z :=
  match n with
  | O => -1
  | S k =>
      if (loc p <=? Z.of_nat k) && negb (pool p !!! k =? value)
      then search_pool p value k
      else Z.of_nat k
  end.

(** Add a value to the given literal pool if not already in pool.  Return
    the location of the value in the pool.  The source has no test for a
    full pool: a store or a load below [pool[0]] is a [PoolOverrun]. *)
Definition insertLiteral (w : pool_id) (value : Z) : M Z := fun st =>
  (* If page zero is the current page, make sure that literals are inserted
     in the page zero literal table. *)
  let w := if Z.land (clc (mach st)) 3968 =? 0 then PZ else w in   (* 07600 *)
  let p := get_pool w st in
  let ix := search_pool p value (Z.to_nat PAGE_SIZE) in
  if (ix <? 0) && (loc p <=? ix) then Fault PoolOverrun
  else if ix <? loc p then
    let l := w16 (loc p - 1) in
    if (0 <=? l) && (l <? PAGE_SIZE)
    then Ok (l, put_pool w (pool_pool (<[Z.to_nat l := value]> (pool p)) (pool_loc l p)) st)
    else Fault PoolOverrun
  else Ok (ix, st).

Fixpoint punch_pool_words (p : LPOOL_T) (lpool_page l : Z) (n : nat) (st : state) : state :=
  match n with
  | O => st
  | S k =>
      let tmplc := w16 (l + lpool_page) in
      punch_pool_words p lpool_page (l + 1) k
        (punchLocObject tmplc (pool p !!! Z.to_nat l) st)
  end.

(** Output the current page data. *)
Definition punchLiteralPool (w : pool_id) (lpool_page : Z) (st : state) : state :=
  let lpool_page := Z.land lpool_page 3968 in                      (* 07600 *)
  let p := get_pool w st in
  if loc p <? 128 then                                             (* 00200 *)
    let st1 :=
      if rim_mode (mach st) then st
      else punchOrigin (Z.lor (loc p) lpool_page) st in  (* origin if not in rim mode *)
    let st2 := punch_pool_words p lpool_page (loc p) (Z.to_nat (128 - loc p)) st1 in
    put_pool w (pool_loc 128 (pool_error false p)) st2
  else st.

(** Test the given location for collision with the literal tables. *)
Definition testForLiteralCollision (l : Z) (st : state) : bool * state :=
  let tmppage := Z.land l 3968 in                                  (* 07600 *)
  let pagelc := Z.land l 127 in                                    (* 00177 *)
  if tmppage =? 0 then
    if (loc (pz (lits st)) <=? pagelc) && negb (error (pz (lits st)))
    then let st1 := errorMessage pz_literal_overflow (-1) st in
         (true, set_pz (pool_error true (pz (lits st1))) st1)
    else (false, st)
  else
    if (loc (cp (lits st)) <=? pagelc) && negb (error (cp (lits st)))
    then let st1 := errorMessage literal_overflow (-1) st in
         (true, set_cp (pool_error true (cp (lits st1))) st1)
    else (false, st).

(** Set the next assembly location.  Incrementing the location counter is
    not to change field setting. *)
Definition incrementClc (st : state) : state :=
  let st1 := snd (testForLiteralCollision (clc (mach st)) st) in
  let c := w16 (Z.land (clc (mach st1)) 28672                     (* 070000 *)
                + Z.land (clc (mach st1) + 1) 4095) in             (* 07777 *)
  set_fieldlc (Z.land c 4095) (set_clc c st1).

(** Outputs both literal tables at the end of a binary segment. *)
Definition endOfBinary (st : state) : state :=
  let st1 := punchLiteralPool CP (w16 (clc (mach st) - 1)) st in
  let st2 := punchLiteralPool PZ 0 st1 in
  if error_in_line (errs st2) then
    let c1 := w16 (Z.land (clc (mach st2)) 28672 + Z.land (clc (mach st2) - 1) 4095) in
    let st3 := errorMessage end_of_file (-1) (set_clc c1 st2) in
    set_clc (w16 (Z.land (clc (mach st3)) 28672 + Z.land (clc (mach st3) + 1) 4095)) st3
  else st2.

(** ** Symbol table *)

Definition strcmp (a b : string) : comparison := String.compare a b.

(** Searches [symtab[lx .. rx]]; returns the index of the match or the
    complement of the insertion point.  The interval shrinks at every
    iteration, so [fuel] beyond its length is never used. *)
Fixpoint binarySearch_loop (tab : list SYM_T) (nm : string) (fuel : nat) (lx rx : Z) : Z :=
  match fuel with
  | O => Z.lnot lx
  | S k =>
      if lx <=? rx then
        let mx := Z.quot (lx + rx) 2 in     (* Find center of search area. *)
        match strcmp nm (name (tab !!! Z.to_nat mx)) with
        | Lt => binarySearch_loop tab nm k lx (mx - 1)
        | Gt => binarySearch_loop tab nm k (mx + 1) rx
        | Eq => mx                           (* Found a match in symbol table. *)
        end
      else Z.lnot lx                         (* Return insertion point. *)
  end.

Definition binarySearch (st : state) (nm : string) (start symbol_count : Z) : Z :=
  binarySearch_loop (symtab (syms st)) nm (S (length (symtab (syms st))))
    start (symbol_count - 1).

(** Find a symbol in table.  If not in table, enter symbol in table as
    undefined.  Returns the index of the symbol in [symtab]. *)
Definition lookup (nm : string) : M Z := fun st =>
  (* First search the permanent symbols. *)
  let ix := binarySearch st nm 0 (number_of_fixed_symbols (syms st)) in
  if ix <? 0 then
    (* Now try the user symbol table. *)
    let ix := binarySearch st nm (number_of_fixed_symbols (syms st)) (symbol_top st) in
    if ix <? 0 then
      (* Must put symbol in table if index is negative. *)
      let ix := Z.lnot ix in
      if SYMBOL_TABLE_SIZE <=? symbol_top st + 1 then Fault SymbolTableFull
      else
        (* Enter the symbol as UNDEFINED with a value of zero. *)
        let tab := symtab (syms st) in
        Ok (ix, set_symtab (take (Z.to_nat ix) tab ++ mkSym UNDEFINED nm 0 0
                              :: drop (Z.to_nat ix) tab) st)
    else Ok (ix, st)
  else Ok (ix, st).

Definition sym_at (st : state) (ix : Z) : SYM_T := symtab (syms st) !!! Z.to_nat ix.

Definition set_sym (ix : Z) (s : SYM_T) (st : state) : state :=
  set_symtab (<[Z.to_nat ix := s]> (symtab (syms st))) st.

(** Define a symbol in the symbol table, enter symbol name if not already
    in table.  Returns [None] for the source's [&sym_undefined]. *)
Definition defineSymbol (nm : string) (v : Z) (ty : SYMTYP) (start : Z) : M (option Z) :=
  if strlen nm <? 1 then ret None            (* Protect against non-existent names. *)
  else
    do ix <- lookup nm;
    do st <- get;
    let sym := sym_at st ix in
    if M_FIXED (type sym) then ret (Some ix)  (* Can't modify permanent symbols. *)
    else
      let redef := M_DEFINED (type sym) && (pass (mach st) =? 2) && negb (val sym =? v) in
      (* Generate diagnostic if redefining a symbol. *)
      run (fun st => if redef && M_REDEFINED (type sym)
                     then errorSymbol redefined_symbol (name sym) start st else st);
      let ty := if redef then Z.lor ty REDEFINED else ty in
      let cnt := if redef then xref_count sym + 1 else xref_count sym in
      (* Now set the value and the type. *)
      run set_sym ix
            (mkSym (if pass (mach st) =? 1 then Z.lor ty CONDITION else ty)
                   (name sym)
                   (if ty =? LABEL then v else Z.land v 4095)     (* 07777 *)
                   cnt);
      ret (Some ix).

(** Put lexeme into symbol table with a value. *)
Definition defineLexeme (start term v : Z) (ty : SYMTYP) : M (option Z) :=
  do st <- get;
  defineSymbol (lexemeToName st start term) v ty start.

(** Get the index of the symbol table entry of the current lexeme, counting
    the reference unless it is the one counted last. *)
Definition evalSymbol : M Z :=
  do st0 <- get;
  do ix <- lookup (lexemeToName st0 (lexstart (lexs st0)) (lexterm (lexs st0)));
  do st <- get;
  (if negb (lexstart (lexs st) =? last_xref_lexstart (syms st))
      || negb (lineno (lexs st) =? last_xref_lineno (syms st))
   then
     run set_sym ix (sym_xref_count (xref_count (sym_at st ix) + 1) (sym_at st ix));
     run set_last_xref_lexstart (lexstart (lexs st));
     run set_last_xref_lineno (lineno (lexs st));
     ret ix
   else ret ix).

(** ** Expression evaluator

    [eval], [getExpr] and [getExprs] call each other; all three take the same
    [fuel].  A function that returns a [SYM_T *] in the source returns the
    pointed-to record here: every caller reads it before the next call.

    In [sym_getexpr.val op= (eval())->val] the source leaves open whether
    [sym_getexpr.val] is read before or after the call; the embedding reads
    it after the call, as the compiled code does for a global operand. *)

(** The digit loop of [eval]: [from] runs up to [lexterm]. *)
Fixpoint eval_number (n : nat) (from v : Z) (st : state) : Z * state :=
  match n with
  | O => (v, st)
  | S k =>
      if from <? lexterm (lexs st) then
        let c := cur st from in
        if isdigit c then
          let digit := code c - 48 in
          if digit <? radix (mach st)
          then eval_number k (from + 1) (w16 (v * radix (mach st) + digit)) st
          else (0, errorLexeme number_not_radix from st)
        else (0, errorLexeme not_a_number (lexstart (lexs st)) st)
      else (v, st)
  end.

Definition set_eval_val (v : Z) : M SYM_T :=
  do st <- get;
  let s := sym_val v (sym_eval (syms st)) in
  run set_sym_eval s;
  ret s.

(** [sym_getexpr.val = f( sym_getexpr.val )] *)
Definition upd_getexpr (f : Z -> Z) (st : state) : state :=
  set_sym_getexpr (sym_val (f (val (sym_getexpr (syms st)))) (sym_getexpr (syms st))) st.

Fixpoint eval (fuel : nat) : M SYM_T :=
  match fuel with
  | O => raise OutOfFuel
  | S k =>
    do st <- get;
    run set_delimiter (cur st (lexterm (lexs st)));
    let c := cur st (lexstart (lexs st)) in
    if isalpha c then
      do ix <- evalSymbol;
      do st1 <- get;
      let sym := sym_at st1 ix in
      run (fun s => if M_UNDEFINED (type sym) && (pass (mach s) =? 2)
                    then errorSymbol undefined_symbol (name sym) (lexstart (lexs s)) s
                    else s);
      run nextLexeme;
      ret sym
    else if isdigit c then
      do v <- call (fun s => eval_number (Z.to_nat (lexterm (lexs s) - lexstart (lexs s)))
                                         (lexstart (lexs s)) 0 s);
      run nextLexeme;
      set_eval_val v
    else if chr c DQUOTE then                       (* Character literal *)
      do st1 <- get;
      if cc (lexs st1) + 2 <? maxcc (lexs st1) then
        let v := Z.lor (code (cur st1 (lexstart (lexs st1) + 1))) 128 in   (* 0200 *)
        run set_delimiter (cur st1 (lexstart (lexs st1) + 2));
        run set_cc (lexstart (lexs st1) + 2);
        run nextLexeme;
        set_eval_val v
      else
        run errorMessage no_literal_value (lexstart (lexs st1));
        run nextLexeme;
        set_eval_val 0
    else if chr c "." then                          (* Value of Current Location Counter *)
      do st1 <- get;
      run nextLexeme;
      set_eval_val (w16 (clc (mach st1) + reloc (mach st1)))
    else if chr c "[" then                          (* Generate literal on page zero. *)
      run (fun s => if literals_on (mach s) then s
                    else errorMessage literal_gen_off (lexstart (lexs s)) s);
      run nextLexBlank;                             (* Skip bracket *)
      do e <- getExpr k;
      let v := Z.land (val e) 4095 in               (* 07777 *)
      run (fun s => if chr (cur s (lexstart (lexs s))) "]" then nextLexBlank s else s);
      do s <- get;
      do l <- (if literals_on (mach s) then insertLiteral PZ v else ret 0);
      set_eval_val l
    else if chr c "(" then                          (* Generate literal on current page. *)
      run (fun s => if literals_on (mach s) then s
                    else errorMessage literal_gen_off (lexstart (lexs s)) s);
      run nextLexBlank;                             (* Skip paren *)
      do e <- getExprs k;
      let v := Z.land e 4095 in
      run (fun s => if chr (cur s (lexstart (lexs s))) ")" then nextLexBlank s else s);
      do s <- get;
      do l <- (if literals_on (mach s) then insertLiteral CP v else ret 0);
      set_eval_val (w16 (l + Z.land (clc (mach s) + reloc (mach s)) 32640))  (* 077600 *)
    else
      run (fun s => if chr c "="
                    then moveToEndOfLine (errorMessage illegal_equals (lexstart (lexs s)) s)
                    else errorMessage illegal_character (lexstart (lexs s)) s);
      run nextLexBlank;                             (* Go past illegal character. *)
      set_eval_val 0                                (* On error, set value to zero. *)
  end

with getExpr (fuel : nat) : M SYM_T :=
  match fuel with
  | O => raise OutOfFuel
  | S k =>
    do st <- get;
    run set_delimiter (cur st (lexterm (lexs st)));
    do _ <- (if chr (cur st (lexstart (lexs st))) "-" then
               run nextLexBlank;
               do s <- eval k;
               run set_sym_getexpr s;
               run upd_getexpr (fun v => w16 (- v));
               ret tt
             else
               do s <- eval k;
               run set_sym_getexpr s;
               ret tt);
    do st1 <- get;
    if is_blank (delimiter (lexs st1)) then ret (sym_getexpr (syms st1))
    else getExpr_loop k
  end

(** The operator loop of [getExpr]: the current lexeme is the operator
    separating the previous operand from the next, if any. *)
with getExpr_loop (fuel : nat) : M SYM_T :=
  match fuel with
  | O => raise OutOfFuel
  | S k =>
    do st <- get;
    if is_blank (delimiter (lexs st)) then ret (sym_getexpr (syms st))
    else
      let c := cur st (lexstart (lexs st)) in
      if chr c "+" then                             (* add *)
        run nextLexBlank;
        do s <- eval k;
        run upd_getexpr (fun v => w16 (v + val s));
        getExpr_loop k
      else if chr c "-" then                        (* subtract *)
        run nextLexBlank;
        do s <- eval k;
        run upd_getexpr (fun v => w16 (v - val s));
        getExpr_loop k
      else if chr c "^" then                        (* multiply *)
        run nextLexBlank;
        do s <- eval k;
        run upd_getexpr (fun v => w16 (v * val s));
        getExpr_loop k
      else if chr c "%" then                        (* divide *)
        run nextLexBlank;
        do s <- eval k;
        if val s =? 0 then raise DivideByZero
        else
          run upd_getexpr (fun v => w16 (Z.quot v (val s)));
          getExpr_loop k
      else if chr c "&" then                        (* and *)
        run nextLexBlank;
        do s <- eval k;
        run upd_getexpr (fun v => Z.land v (val s));
        getExpr_loop k
      else if chr c "!" then                        (* or *)
        run nextLexBlank;
        do s <- eval k;
        run upd_getexpr (fun v => Z.lor v (val s));
        getExpr_loop k
      else if isend c then ret (sym_getexpr (syms st))
      else if chr c "/" || chr c ";" || chr c ")" || chr c "]" || chr c "<"
      then ret (sym_getexpr (syms st))
      else
        run errorMessage (if chr c "=" then illegal_equals else illegal_expression)
              (lexstart (lexs st));
        run moveToEndOfLine;
        run upd_getexpr (fun _ => 0);
        do st1 <- get;
        ret (sym_getexpr (syms st1))
  end

(** Or together a list of blank separated expressions, from the current
    lexeme onward. *)
with getExprs (fuel : nat) : M Z :=
  match fuel with
  | O => raise OutOfFuel
  | S k =>
    do symv <- getExpr k;
    getExprs_loop k (val symv) (type symv)
  end

with getExprs_loop (fuel : nat) (value : Z) (value_type : SYMTYP) : M Z :=
  match fuel with
  | O => raise OutOfFuel
  | S k =>
    do st <- get;
    let c := cur st (lexstart (lexs st)) in
    if isdone c || chr c ")" || chr c "]" then ret value
    else
      (* Interpret space as logical or *)
      do symt <- getExpr k;
      let temp := Z.land (val symt) 4095 in         (* 07777 *)
      let temp_type := type symt in
      if (value_type =? MRI) || (value_type =? MRIFIX) then
        (* Previous symbol was a Memory Reference Instruction. *)
        if (temp_type =? MRI) || (temp_type =? MRIFIX) then
          (* Current symbol is also a Memory Reference Instruction. *)
          getExprs_loop k (Z.lor value temp) value_type
        else
          (* Now have the address part of the MRI instruction. *)
          do st1 <- get;
          let here := fieldlc (mach st1) + reloc (mach st1) in
          if temp <? 128 then                       (* Page zero MRI. *)
            getExprs_loop k (Z.lor value temp) value_type
          else if (Z.land here 3968 <=? temp) && (temp <=? Z.lor here 127) then
            (* Current page MRI *)
            getExprs_loop k (Z.lor value (Z.lor PAGE_BIT (Z.land temp ADDRESS_FIELD)))
                          value_type
          else if Z.land value INDIRECT_BIT =? INDIRECT_BIT then
            (* Already indirect, can't generate *)
            run errorSymbol illegal_indirect (name symt) (lexstartprev (lexs st1));
            getExprs_loop k value value_type
          else if literals_on (mach st1) then
            (* Now fix off page reference.  Search current page literal pool
               for needed value.  Set Indirect Current Page *)
            do ix <- insertLiteral CP temp;
            run set_indirect_generated true;
            getExprs_loop k (Z.lor value (Z.lor 384 ix)) value_type   (* 00600 *)
          else
            run errorSymbol illegal_reference (name symt) (lexstartprev (lexs st1));
            getExprs_loop k (Z.lor value (Z.land temp 127)) value_type
      else
        getExprs_loop k (Z.lor value temp) value_type   (* Normal 12 bit value. *)
  end.

(** ** Initial symbol tables *)

(** Table of pseudo-ops (directives) which are used to setup the symbol
    table on startup and when the EXPUNGE pseudo-op is executed. *)
Definition pseudo : list (SYMTYP * string * Z) :=
  [(PSEUDO, "BANK", BANK); (PSEUDO, "BINPUN", BINPUNCH); (PSEUDO, "DECIMA", DECIMAL);
   (PSEUDO, "DUBL", DUBL); (PSEUDO, "EJECT", EJECT); (PSEUDO, "ENPUNC", ENPUNCH);
   (PSEUDO, "EXPUNG", EXPUNGE); (PSEUDO, "FIELD", FIELD); (PSEUDO, "FIXMRI", FIXMRI);
   (PSEUDO, "FIXTAB", FIXTAB); (PSEUDO, "FLTG", FLTG); (PSEUDO, "IFDEF", IFDEF);
   (PSEUDO, "IFNDEF", IFNDEF); (PSEUDO, "IFNZER", IFNZERO); (PSEUDO, "IFZERO", IFZERO);
   (PSEUDO, "NOPUNC", NOPUNCH); (PSEUDO, "OCTAL", OCTAL); (PSEUDO, "PAGE", PAGE);
   (PSEUDO, "PAUSE", PAUSE); (PSEUDO, "RELOC", RELOC); (PSEUDO, "RIMPUN", RIMPUNCH);
   (PSEUDO, "SEGMNT", SEGMNT); (PSEUDO, "TEXT", TEXT); (PSEUDO, "TITLE", TITLE);
   (PSEUDO, "XLIST", XLIST); (PSEUDO, "ZBLOCK", ZBLOCK)].

(** The permanent symbols, with their values in decimal. *)
Definition permanent_symbols : list (SYMTYP * string * Z) :=
  [(MRIFIX, "AND", 0); (MRIFIX, "TAD", 512); (MRIFIX, "ISZ", 1024); (MRIFIX, "DCA", 1536);
   (MRIFIX, "I", 256); (MRIFIX, "JMP", 2560); (MRIFIX, "JMS", 2048); (MRIFIX, "Z", 0);
   (MRIFIX, "FEXT", 0); (MRIFIX, "FADD", 512); (MRIFIX, "FSUB", 1024);
   (MRIFIX, "FMPY", 1536); (MRIFIX, "FDIV", 2048); (MRIFIX, "FGET", 2560);
   (MRIFIX, "FPUT", 3072); (FIXED, "FNOR", 3584); (FIXED, "FEXT", 0); (FIXED, "SQUARE", 1);
   (FIXED, "SQROOT", 2); (FIXED, "NOP", 3584); (FIXED, "IAC", 3585); (FIXED, "RAL", 3588);
   (FIXED, "RTL", 3590); (FIXED, "RAR", 3592); (FIXED, "RTR", 3594); (FIXED, "CML", 3600);
   (FIXED, "CMA", 3616); (FIXED, "CLL", 3648); (FIXED, "CLA", 3712); (FIXED, "BSW", 3586);
   (FIXED, "HLT", 3842); (FIXED, "OSR", 3844); (FIXED, "SKP", 3848); (FIXED, "SNL", 3856);
   (FIXED, "SZL", 3864); (FIXED, "SZA", 3872); (FIXED, "SNA", 3880); (FIXED, "SMA", 3904);
   (FIXED, "SPA", 3912); (FIXED, "CIA", 3617); (FIXED, "STL", 3664); (FIXED, "GLK", 3716);
   (FIXED, "STA", 3744); (FIXED, "LAS", 3972); (FIXED, "MQL", 3857); (FIXED, "MQA", 3905);
   (FIXED, "SWP", 3921); (FIXED, "ACL", 4033); (FIXED, "IOT", 3072); (FIXED, "ION", 3073);
   (FIXED, "IOF", 3074); (FIXED, "SKON", 3072); (FIXED, "SRQ", 3075); (FIXED, "GTF", 3076);
   (FIXED, "RTF", 3077); (FIXED, "SGT", 3078); (FIXED, "CAF", 3079); (FIXED, "KSF", 3097);
   (FIXED, "KCC", 3098); (FIXED, "KRS", 3100); (FIXED, "KRB", 3102); (FIXED, "TSF", 3105);
   (FIXED, "TCF", 3106); (FIXED, "TPC", 3108); (FIXED, "TLS", 3110); (FIXED, "RSF", 3081);
   (FIXED, "RRB", 3082); (FIXED, "RFC", 3084); (FIXED, "RPE", 3080); (FIXED, "PCE", 3088);
   (FIXED, "RCC", 3086); (FIXED, "PSF", 3089); (FIXED, "PCF", 3090); (FIXED, "PPC", 3092);
   (FIXED, "PLS", 3094); (FIXED, "DTRA", 3569); (FIXED, "DTCA", 3570);
   (FIXED, "DTXA", 3572); (FIXED, "DTLA", 3574); (FIXED, "DTSF", 3577);
   (FIXED, "DTRB", 3578); (FIXED, "DTLB", 3580); (FIXED, "DCMA", 3457);
   (FIXED, "DMAR", 3459); (FIXED, "DMAW", 3461); (FIXED, "DCEA", 3465);
   (FIXED, "DSAC", 3466); (FIXED, "DEAL", 3469); (FIXED, "DEAC", 3470);
   (FIXED, "DFSE", 3473); (FIXED, "DFSC", 3474); (FIXED, "DMAC", 3478);
   (FIXED, "DCIM", 3465); (FIXED, "DIML", 3469); (FIXED, "DIMA", 3470);
   (FIXED, "DISK", 3475); (FIXED, "DCXA", 3489); (FIXED, "DXAL", 3491);
   (FIXED, "DXAC", 3493); (FIXED, "DMMT", 3494); (FIXED, "CDF", 3201);
   (FIXED, "CIF", 3202); (FIXED, "CDI", 3203); (FIXED, "RDF", 3212); (FIXED, "RIF", 3220);
   (FIXED, "RIB", 3228); (FIXED, "RMF", 3220); (FIXED, "SMP", 3137); (FIXED, "CMP", 3140);
   (FIXED, "DPI", 3136); (FIXED, "SNP", 3137); (FIXED, "EPI", 3139); (FIXED, "CNP", 3140);
   (FIXED, "CEP", 3142); (FIXED, "SPO", 3143); (FIXED, "TTINCR", 3329);
   (FIXED, "TTI", 3330); (FIXED, "TTO", 3332); (FIXED, "TTCL", 3337);
   (FIXED, "TTSL", 3338); (FIXED, "TTRL", 3340); (FIXED, "TTSKP", 3345);
   (FIXED, "TTXON", 3348); (FIXED, "TTXOF", 3346)].

Fixpoint define_all (tab : list (SYMTYP * string * Z)) (extra : SYMTYP) : M unit :=
  match tab with
  | [] => ret tt
  | (ty, nm, v) :: rest =>
      do _ <- defineSymbol nm v (Z.lor ty extra) 0;
      define_all rest extra
  end.

(** [qsort( symtab, symbol_top, sizeof(symtab[0]), compareSymbols )].  Names
    in the table are distinct, so the order of the result does not depend on
    the sorting algorithm. *)
Fixpoint insert_sorted (s : SYM_T) (tab : list SYM_T) : list SYM_T :=
  match tab with
  | [] => [s]
  | t :: rest =>
      match strcmp (name s) (name t) with
      | Gt => t :: insert_sorted s rest
      | _ => s :: tab
      end
  end.

Definition qsort (tab : list SYM_T) : list SYM_T := foldr insert_sorted [] tab.

(** ** Conditional assembly *)

(** Called when a true conditional has been evaluated.  Lex should be the
    opening <; skip it and setup for normal assembly. *)
Definition conditionTrue (st : state) : state :=
  if chr (cur st (lexstart (lexs st))) "<"
  then nextLexeme st                                (* Skip the opening '<' *)
  else errorMessage lt_expected (lexstart (lexs st)) st.

(** [while( level > 0 )]: [line[cc]] is the next unexamined character. *)
Fixpoint conditionFalse_loop (fuel : nat) (level : Z) : M unit :=
  match fuel with
  | O => raise OutOfFuel
  | S k =>
      if 0 <? level then
        do st <- get;
        let c := cur st (cc (lexs st)) in
        if isend c then do _ <- readLine; conditionFalse_loop k level
        else
          run set_cc (cc (lexs st) + 1);
          conditionFalse_loop k
            (if chr c ">" then level - 1
             else if chr c "<" then level + 1
             else if chr c "$" then 0
             else level)
      else ret tt
  end.

(** Called when a false conditional has been evaluated.  Lex should be the
    opening <; ignore all text until the closing >. *)
Definition conditionFalse (fuel : nat) : M unit :=
  do st <- get;
  if chr (cur st (lexstart (lexs st))) "<" then
    do _ <- conditionFalse_loop fuel 1;
    run nextLexeme;
    ret tt
  else
    run errorMessage lt_expected (lexstart (lexs st));
    ret tt.

(** ** Pseudo-operators *)

(** The packing loop of TEXT: returns the final [index], [pack] and [count]. *)
Fixpoint text_loop (n : nat) (delim : ascii) (index pack count : Z) (st : state)
  : Z * Z * Z * state :=
  match n with
  | O => (index, pack, count, st)
  | S k =>
      let c := cur st index in
      if negb (chr c delim) && negb (isend c) then
        let pack := Z.lor (Z.shiftl pack 6) (Z.land (code c) 63) in   (* 077 *)
        let count := count + 1 in
        if 1 <? count
        then text_loop k delim (index + 1) 0 0
               (incrementClc (punchOutObject (clc (mach st)) pack st))
        else text_loop k delim (index + 1) pack count st
      else (index, pack, count, st)
  end.

Fixpoint zblock_loop (n : nat) (st : state) : state :=
  match n with
  | O => st
  | S k => zblock_loop k (incrementClc (punchOutObject (clc (mach st)) 0 st))
  end.

(** The TEXT directive: pack 6 bit trimmed ASCII into memory. *)
Definition pseudo_TEXT (st : state) : state :=
  let delim := cur st (lexstart (lexs st)) in
  let '(index, pack, count, st1) :=
    text_loop (String.length (line (lexs st))) delim (lexstart (lexs st) + 1) 0 0 st in
  let st2 :=
    incrementClc (punchOutObject (clc (mach st1))
                    (if negb (count =? 0) then Z.shiftl pack 6 else 0) st1) in
  let st3 :=
    if isend (cur st2 index)
    then errorMessage text_string index (set_lexterm index (set_cc index st2))
    else set_lexterm (index + 1) (set_cc (index + 1) st2) in
  nextLexeme st3.

(** The field select frame of FIELD: [punchObject( value ); checksum -= value;] *)
Definition punchField (newfield : Z) (st : state) : state :=
  let value := Z.lor (Z.shiftl (Z.land newfield 7) 3) 192 in          (* 00300 *)
  let st1 := punchObject value st in
  (* Field punches are not added to checksum. *)
  set_checksum (w16 (checksum (enc st1) - value)) st1.

(** [leaderlen] of BINPUNCH and RIMPUNCH: 8 if not specified. *)
Definition leader_length (fuel : nat) : M Z :=
  do st <- get;
  if isdone (cur st (lexstart (lexs st))) then ret 8
  else do e <- getExpr fuel; ret (val e).

(** The FIELD directive: set origin to memory field. *)
Definition pseudo_FIELD (fuel : nat) : M bool :=
  run (fun st => punchLiteralPool CP (w16 (clc (mach st) - 1)) st);
  run punchLiteralPool PZ 0;
  do st <- get;
  let lexstartsave := lexstartprev (lexs st) in
  do newfield <-
    (if isdone (cur st (lexstart (lexs st)))
     then ret (w16 (Z.shiftr (field (mach st)) 12 + 1))     (* Blank FIELD directive. *)
     else do e <- getExpr fuel; ret (val e));               (* FIELD with argument. *)
  run (fun s =>
    if rim_mode (mach s)
    then errorMessage in_rim_mode lexstartsave s            (* Can't change fields. *)
    else if (7 <? newfield) || (newfield <? 0)
    then errorMessage illegal_field_value (lexstartprev (lexs s)) s
    else set_field (w16 (Z.shiftl newfield 12)) (punchField newfield s));
  run (fun s => set_clc (Z.lor 128 (field (mach s))) s);              (* 0200 | field *)
  run (fun s => set_fieldlc (Z.land (clc (mach s)) 4095) s);
  run (fun s => if rim_mode (mach s) then s else punchOrigin (clc (mach s)) s);
  ret true.

(** The IFDEF directive: assemble if symbol is defined. *)
Definition pseudo_IFDEF (fuel : nat) : M bool :=
  do st <- get;
  if isalpha (cur st (lexstart (lexs st))) then
    do ix <- evalSymbol;
    run nextLexeme;
    do st1 <- get;
    if M_DEFINED_CONDITIONALLY (pass (mach st1)) (type (sym_at st1 ix))
    then run conditionTrue; ret true
    else do _ <- conditionFalse fuel; ret true
  else
    run errorLexeme label_syntax (lexstart (lexs st));
    ret true.

(** The IFNDEF directive: assemble if symbol is not defined. *)
Definition pseudo_IFNDEF (fuel : nat) : M bool :=
  do st <- get;
  if isalpha (cur st (lexstart (lexs st))) then
    do ix <- evalSymbol;
    run nextLexeme;
    do st1 <- get;
    if M_DEFINED_CONDITIONALLY (pass (mach st1)) (type (sym_at st1 ix))
    then do _ <- conditionFalse fuel; ret true
    else run conditionTrue; ret true
  else
    run errorLexeme label_syntax (lexstart (lexs st));
    ret true.

(** The SEGMNT directive: like page, but with page size=1K words.  [v] is
    the [val] parameter of [pseudoOperators], the code of the directive. *)
Definition pseudo_SEGMNT (fuel : nat) (v : Z) : M bool :=
  run (fun st => punchLiteralPool CP (w16 (clc (mach st) - 1)) st);
  do st <- get;
  do newclc <-
    (if isdone (cur st (lexstart (lexs st)))
     then ret (w16 (Z.land (clc (mach st)) 3072 + 1024))      (* ( clc & 06000 ) + 02000 *)
     else do _ <- getExpr fuel;
          ret (w16 (Z.shiftl (Z.land v 3) 10)));              (* ( val & 003 ) << 10 *)
  run set_clc newclc;
  run set_fieldlc (Z.land newclc 4095);
  run (fun s => if rim_mode (mach s) then s else punchOrigin (clc (mach s)) s);
  run (fun s => snd (testForLiteralCollision (clc (mach s)) s));
  ret true.

(** Process pseudo-ops (directives).  Returns TRUE to go on scanning the
    line.  [v] is the value of the directive's symbol. *)
Definition pseudoOperators (fuel : nat) (v : Z) : M bool :=
  if v =? BANK then
    run (fun st => errorSymbol no_pseudo_op "BANK" (lexstartprev (lexs st)) st);
    ret true
  else if v =? BINPUNCH then
    (* If there has been data output and this is a mode switch, set up to
       output data in BIN mode. *)
    do st <- get;
    do _ <- (if binary_data_output (enc st) && rim_mode (mach st) then
               do leaderlen <- leader_length fuel;
               (* Clear the literal tables. *)
               run (fun s => set_cp (pool_error false (pool_loc 128 (cp (lits s)))) s);
               run (fun s => set_pz (pool_error false (pool_loc 128 (pz (lits s)))) s);
               run punchLeader leaderlen;
               run set_checksum 0;
               run set_binary_data_output false;
               ret tt
             else ret tt);
    run set_rim_mode false;
    ret true
  else if v =? DECIMAL then run set_radix 10; ret true
  else if v =? DUBL then raise NotEmbedded
  else if v =? EJECT then ret false       (* This will force reading of next line *)
  else if v =? ENPUNCH then
    run (fun st => if pass (mach st) =? 2 then set_objectfile (objectsave (enc st)) st
                   else st);
    ret true
  else if v =? EXPUNGE then                         (* Erase symbol table *)
    do st <- get;
    if pass (mach st) =? 1 then
      run set_symtab [];
      run set_number_of_fixed_symbols 0;
      (* Enter the pseudo-ops into the symbol table. *)
      do _ <- define_all pseudo 0;
      run (fun s => set_number_of_fixed_symbols (symbol_top s) s);
      ret true
    else ret true
  else if v =? FIELD then pseudo_FIELD fuel
  else if v =? FIXMRI then
    do st <- get;
    if chr (cur st (lexterm (lexs st))) "=" && isalpha (cur st (lexstart (lexs st))) then
      let lexstartsave := lexstart (lexs st) in
      let term := lexterm (lexs st) in
      run nextLexeme;                               (* Skip symbol. *)
      run nextLexeme;                               (* Skip trailing = *)
      do e <- getExprs fuel;
      do _ <- defineLexeme lexstartsave term e MRI;
      ret true
    else
      run errorLexeme symbol_syntax (lexstart (lexs st));
      run nextLexeme;                               (* Skip symbol. *)
      run nextLexeme;                               (* Skip trailing = *)
      do _ <- getExprs fuel;                        (* Skip expression. *)
      ret true
  else if v =? FIXTAB then
    (* Mark all current symbols as permanent symbols. *)
    run (fun st => set_number_of_fixed_symbols (symbol_top st) st);
    (* Re-sort the symbol table *)
    run (fun st => set_symtab
           (qsort (map (fun s => sym_type (Z.lor (type s) FIXED) s) (symtab (syms st)))) st);
    ret true
  else if v =? FLTG then raise NotEmbedded
  else if v =? IFDEF then pseudo_IFDEF fuel
  else if v =? IFNDEF then pseudo_IFNDEF fuel
  else if (v =? IFNZERO) || (v =? IFZERO) then
    do e <- getExpr fuel;
    if xorb (val e =? 0) (v =? IFNZERO)
    then run conditionTrue; ret true
    else do _ <- conditionFalse fuel; ret true
  else if v =? NOPUNCH then
    run (fun st => if pass (mach st) =? 2 then set_objectfile false st else st);
    ret true
  else if v =? OCTAL then run set_radix 8; ret true
  else if v =? PAGE then
    run (fun st => punchLiteralPool CP (w16 (clc (mach st) - 1)) st);
    do st <- get;
    let oldclc := clc (mach st) in
    do newclc <-
      (if isdone (cur st (lexstart (lexs st)))
       then ret (w16 (Z.land (clc (mach st) + 127) 32640))     (* ( clc + 0177 ) & 077600 *)
       else do e <- getExpr fuel;
            do s <- get;
            ret (w16 (Z.shiftl (field (mach s)) 12
                      + Z.shiftl (Z.land (val e) 31) 7)));    (* ( value & 037 ) << 7 *)
    run set_clc newclc;
    run set_fieldlc (Z.land newclc 4095);
    run (fun s => snd (testForLiteralCollision (clc (mach s)) s));
    run (fun s => if negb (rim_mode (mach s)) && negb (clc (mach s) =? oldclc)
                  then punchOrigin (clc (mach s)) s else s);
    ret true
  else if v =? PAUSE then ret true
  else if v =? RELOC then
    do st <- get;
    (if isdone (cur st (lexstart (lexs st)))
     then run set_reloc 0; ret true                 (* Blank RELOC directive. *)
     else
       do e <- getExpr fuel;                        (* RELOC with argument. *)
       run (fun s => set_reloc (w16 (val e - (clc (mach s) + reloc (mach s)))) s);
       ret true)
  else if v =? RIMPUNCH then
    (* If the assembler has output any BIN data, output the literal tables
       and the checksum for what has been assembled and setup for RIM mode. *)
    do st <- get;
    do _ <- (if binary_data_output (enc st) && negb (rim_mode (mach st)) then
               do leaderlen <- leader_length fuel;
               run endOfBinary;
               run (fun s => if leaderlen =? -1 then s else punchChecksum s);
               run punchLeader leaderlen;
               ret tt
             else ret tt);
    run set_rim_mode true;
    ret true
  else if v =? SEGMNT then pseudo_SEGMNT fuel v
  else if v =? TEXT then
    (* With the NUL that ends the line as the delimiter, the source packs what
       earlier lines left in [line] behind it: not embedded. *)
    do st <- get;
    if strlen (line (lexs st)) <=? lexstart (lexs st) then raise NotEmbedded
    else (run pseudo_TEXT; ret true)
  else if v =? TITLE then raise NotEmbedded
  else if v =? XLIST then
    (* only the scan of the argument concerns the engine *)
    do st <- get;
    if isdone (cur st (lexstart (lexs st))) then ret true
    else do _ <- getExpr fuel; ret true
  else if v =? ZBLOCK then
    do e <- getExpr fuel;
    let value := val e in
    run (fun s =>
      if value <? 0 then errorMessage zblock_too_small (lexstartprev (lexs s)) s
      else if 4095 <? value + Z.land (clc (mach s)) 4095 - 1
      then errorMessage zblock_too_large (lexstartprev (lexs s)) s
      else zblock_loop (Z.to_nat value) s);
    ret true
  else ret true.

(** ** Pass driver *)

(** The origin statement [*expr] of [onePass]. *)
Definition onePass_origin (fuel : nat) : M unit :=
  run nextLexeme;                                   (* Skip '*', (set origin symbol) *)
  do e <- getExpr fuel;
  do st <- get;
  let newclc := w16 (Z.lor (Z.land (val e) 4095) (field (mach st))) in
  (* Do not change Current Location Counter if an error occurred. *)
  if error_in_line (errs st) then ret tt
  else
    run (fun s => if negb (Z.land newclc 3968 =? Z.land (clc (mach s)) 3968)
                  then punchLiteralPool CP (w16 (clc (mach s) - 1)) s   (* page has changed *)
                  else s);
    run (fun s => set_clc (w16 (newclc - reloc (mach s))) s);
    run (fun s => set_fieldlc (Z.land (clc (mach s)) 4095) s);
    (* Not rim mode, put out origin. *)
    run (fun s => if rim_mode (mach s) then s else punchOrigin (clc (mach s)) s);
    ret tt.

(** The label statement [name,] of [onePass]. *)
Definition onePass_label : M unit :=
  do st <- get;
  do _ <- (if isalpha (cur st (lexstart (lexs st))) then
             (* Use lookup so symbol will not be counted as reference. *)
             do ix <- lookup (lexemeToName st (lexstart (lexs st)) (lexterm (lexs st)));
             do st1 <- get;
             let sym := sym_at st1 ix in
             run (fun s =>
               if M_DEFINED (type sym) then
                 let s1 :=
                   if negb (val sym =? clc (mach s)) && (pass (mach s) =? 2)
                   then errorSymbol duplicate_label (name sym) (lexstart (lexs s)) s
                   else s in
                 set_sym ix (sym_type (Z.lor (type sym) DUPLICATE) sym) s1
               else s);
             (* Must call define on pass 2 to generate concordance. *)
             do _ <- defineLexeme (lexstart (lexs st)) (lexterm (lexs st))
                       (w16 (clc (mach st) + reloc (mach st))) LABEL;
             ret tt
           else
             run errorLexeme label_syntax (lexstart (lexs st));
             ret tt);
  run nextLexeme;                                   (* skip label *)
  run nextLexeme;                                   (* skip comma *)
  ret tt.

(** The assignment statement [name=expr] of [onePass]. *)
Definition onePass_assign (fuel : nat) : M unit :=
  do st <- get;
  if isalpha (cur st (lexstart (lexs st))) then
    let start := lexstart (lexs st) in
    let term := lexterm (lexs st) in
    run set_delimiter (cur st (lexterm (lexs st)));
    run nextLexBlank;                               (* skip symbol *)
    run nextLexBlank;                               (* skip trailing = *)
    do v <- getExprs fuel;
    do _ <- defineLexeme start term v DEFINED;
    ret tt
  else
    run errorLexeme symbol_syntax (lexstartprev (lexs st));
    run nextLexeme;                                 (* skip symbol *)
    run nextLexeme;                                 (* skip trailing = *)
    do _ <- getExprs fuel;                          (* skip expression *)
    ret tt.

(** [punchOutObject( clc, getExprs() & 07777 ); incrementClc();] *)
Definition onePass_word (fuel : nat) : M unit :=
  do v <- getExprs fuel;
  run (fun s => punchOutObject (clc (mach s)) (Z.land v 4095) s);
  run incrementClc;
  ret tt.

Inductive flow := Scan | NextLine | EndPass.

(** One turn of the [while( scanning_line )] loop of [onePass]. *)
Definition statement (fuel : nat) : M flow :=
  do st <- get;
  let c := cur st (lexstart (lexs st)) in
  if isend c then ret NextLine
  else if chr c "/" then ret NextLine
  else if chr c ";" then run nextLexeme; ret Scan
  else if chr c "$" then run endOfBinary; ret EndPass
  else if chr c "*" then do _ <- onePass_origin fuel; ret Scan
  else
    let t := cur st (lexterm (lexs st)) in
    if chr t "," then do _ <- onePass_label; ret Scan
    else if chr t "=" then do _ <- onePass_assign fuel; ret Scan
    else if isalpha c then
      do ix <- evalSymbol;
      do st1 <- get;
      let sym := sym_at st1 ix in
      if M_PSEUDO (type sym) then
        run nextLexeme;                             (* Skip symbol *)
        do status <- pseudoOperators fuel (Z.land (val sym) 4095);
        ret (if status then Scan else NextLine)
      else
        (* Identifier is not a pseudo-op, interpret as load value *)
        do _ <- onePass_word fuel; ret Scan
    else
      (* Identifier is a value, interpret as load value *)
      do _ <- onePass_word fuel; ret Scan.

Fixpoint scan_line (fuel : nat) : M bool :=
  match fuel with
  | O => raise OutOfFuel
  | S k =>
      do f <- statement k;
      match f with
      | Scan => scan_line k
      | NextLine => ret false
      | EndPass => ret true
      end
  end.

Fixpoint onePass_loop (fuel : nat) : M unit :=
  match fuel with
  | O => raise OutOfFuel
  | S k =>
      do _ <- readLine;
      run nextLexeme;
      do finished <- scan_line k;
      if finished then ret tt else onePass_loop k
  end.

Definition empty_pool (l : Z) (p : LPOOL_T) : LPOOL_T := pool_error false (pool_loc l p).

(** The settings at the head of [onePass]. *)
Definition onePass_init : M unit :=
  run set_clc 128;                      (* Default starting address is 200 octal. *)
  run set_field 0;
  run set_fieldlc 0;
  run set_reloc 0;
  run (fun s => set_cp (empty_pool 128 (cp (lits s))) s);
  run (fun s => set_pz (empty_pool 128 (pz (lits s))) s);
  run set_lineno 0;
  run set_last_xref_lexstart 0;
  run set_last_xref_lineno 0;
  run set_radix 8;                      (* Initial radix is octal (base 8). *)
  ret tt.

(** Do one assembly pass. *)
Definition onePass (fuel : nat) : M unit :=
  do _ <- onePass_init;
  onePass_loop fuel.

(** ** main *)

Definition sym_holder : SYM_T := mkSym DEFINED EmptyString 0 0.

(** The globals as the C runtime and the first lines of [main] leave them,
    for the command line flags [-l] ([l]), [-r] ([r]) and [-x] ([x]) and the
    source text [src].  The error file is opened before the tables are
    filled; [pass = 0] is required for symbol table initialization. *)
Definition startup (l r x : bool) (src : string) : state :=
  {| lexs := mkLexer src EmptyString 0 0 0 0 0 0 0 NUL false;
     mach := mkMachine 0 0 0 0 0 0 l r;
     enc := mkEncoder 0 false false false [];
     syms := mkSymbols [] 0 x 0 0 sym_holder sym_holder;
     lits := mkPools (mkPool false 0 (replicate 128 0)) (mkPool false 0 (replicate 128 0));
     errs := mkErrstate 0 false [] |}.

(** Symbol table initialization: enter the pseudo-ops and the predefined
    symbols, and make them the permanent symbol table. *)
Definition install_symbols : M unit :=
  do _ <- define_all pseudo 0;
  do _ <- define_all permanent_symbols DEFFIX;
  run (fun s => set_number_of_fixed_symbols (symbol_top s) s);
  ret tt.

(** Do pass one of the assembly *)
Definition pass_one (fuel : nat) : M unit :=
  run set_checksum 0;
  run set_pass 1;
  onePass fuel.

(** Set up for pass two and do pass two of the assembly; [src] is the source
    text again ([rewind( infile )]). *)
Definition pass_two (fuel : nat) (src : string) : M unit :=
  run set_infile src;
  run set_errorfile [];
  run set_objectfile true;
  run set_objectsave true;
  run punchLeader 0;
  run set_checksum 0;
  run set_errors 0;
  (* Clear the count for pass 2. *)
  run (fun s => if xref (syms s)
                then set_symtab (map (sym_xref_count 0) (symtab (syms s))) s
                else s);
  run set_pass 2;
  onePass fuel.

(** Controls order of assembly: both passes over [src], then the checksum
    and the trailer. *)
Definition main_prog (fuel : nat) (src : string) : M unit :=
  do _ <- install_symbols;
  do _ <- pass_one fuel;
  do _ <- pass_two fuel src;
  (* Undo effects of NOPUNCH for any following checksum *)
  run (fun s => set_objectfile (objectsave (enc s)) s);
  run punchChecksum;
  (* Works great for trailer. *)
  run punchLeader 1;
  ret tt.

Definition exec {A} (m : M A) (st : state) : result state :=
  match m st with
  | Ok (_, st') => Ok st'
  | Fault f => Fault f
  end.

Definition main (fuel : nat) (l r x : bool) (src : string) : result state :=
  exec (main_prog fuel src) (startup l r x src).

(** Observation points for examples: the state at the end of pass one, and
    the state of pass [p] after its first [n] source lines. *)
Definition after_pass_one (fuel : nat) (l r x : bool) (src : string) : result state :=
  exec (do _ <- install_symbols; pass_one fuel) (startup l r x src).

Fixpoint lines_loop (n fuel : nat) : M unit :=
  match n with
  | O => ret tt
  | S m =>
      do _ <- readLine;
      run nextLexeme;
      do _ <- scan_line fuel;
      lines_loop m fuel
  end.

Definition after_lines (fuel n : nat) (p : Z) (l r x : bool) (src : string) : result state :=
  exec (do _ <- install_symbols;
        run set_pass p;
        do _ <- onePass_init;
        lines_loop n fuel)
       (startup l r x src).

(** Source lines joined with newlines, and the frames of the object file
    without leader and trailer, for stating examples. *)
Fixpoint unlines (ls : list string) : string :=
  match ls with
  | [] => EmptyString
  | l :: rest => (l ++ String NL (unlines rest))%string
  end.

Definition observe {A} (f : state -> A) (r : result state) : option A :=
  match r with
  | Ok st => Some (f st)
  | Fault _ => None
  end.

Definition tape (r : result state) : option (list Z) :=
  match r with
  | Ok st => Some (filter (fun f => f ≠ 128) (object_out (enc st)))
  | Fault _ => None
  end.

(* ===================================================================== *)
(** * Vocabulary of the properties                                         *)
(* ===================================================================== *)

(** ** Frames and checksums *)

(** The frames [punchOrigin] and [punchLocObject] hand to [punchObject], and
    the field select frame of FIELD. *)
Definition origin_frames (l : Z) : list Z :=
  [Z.lor (Z.land (Z.shiftr l 6) 63) 64; Z.land l 63].

Definition data_frames (v : Z) : list Z :=
  [Z.land (Z.shiftr v 6) 63; Z.land v 63].

Definition field_frame (newfield : Z) : Z :=
  Z.lor (Z.shiftl (Z.land newfield 7) 3) 192.

Definition sumZ (l : list Z) : Z := foldr Z.add 0 l.

(** What the engine hands to the encoder between two resets of the
    checksum: an origin, a word, or the field select frame of FIELD. *)
Inductive punch :=
  | Origin (l : Z)
  | Word (l v : Z)
  | FieldSelect (newfield : Z).

(** The encoder calls behind them. *)
Definition do_punch (st : state) (op : punch) : state :=
  match op with
  | Origin l => punchOrigin l st
  | Word l v => punchLocObject l v st
  | FieldSelect n => punchField n st
  end.

(** Frames of one operation in BIN mode, and the field select frames among
    them. *)
Definition frames_of (op : punch) : list Z :=
  match op with
  | Origin l => origin_frames l
  | Word _ v => data_frames v
  | FieldSelect n => [field_frame n]
  end.

Definition field_frames_of (op : punch) : list Z :=
  match op with
  | FieldSelect n => [field_frame n]
  | _ => []
  end.

Definition data_and_origin_frames_of (op : punch) : list Z :=
  match op with
  | FieldSelect _ => []
  | _ => frames_of op
  end.

Definition frames (ops : list punch) : list Z := concat (map frames_of ops).

Definition field_frames (ops : list punch) : list Z := concat (map field_frames_of ops).

Definition data_and_origin_frames (ops : list punch) : list Z :=
  concat (map data_and_origin_frames_of ops).

(** What the assembler does between two resets of the checksum in pass
    two: a punch, or one of the directives NOPUNCH ([objectfile = NULL]) and
    ENPUNCH ([objectfile = objectsave]). *)
Inductive step :=
  | Punch (op : punch)
  | NoPunch
  | EnPunch.

Definition do_step (st : state) (s : step) : state :=
  match s with
  | Punch op => do_punch st op
  | NoPunch => set_objectfile false st
  | EnPunch => set_objectfile (objectsave (enc st)) st
  end.

(** The punches among the steps. *)
Fixpoint ops_of (steps : list step) : list punch :=
  match steps with
  | [] => []
  | Punch op :: r => op :: ops_of r
  | _ :: r => ops_of r
  end.

(** The frames of the punches done while the object file is open: [on]
    tells whether it is open at the first step, and ENPUNCH opens it again
    (the file was opened for the pass). *)
Fixpoint punched (on : bool) (steps : list step) : list Z :=
  match steps with
  | [] => []
  | Punch op :: r => (if on then frames_of op else []) ++ punched on r
  | NoPunch :: r => punched false r
  | EnPunch :: r => punched true r
  end.

(** No NOPUNCH among the steps. *)
Definition never_off (steps : list step) : bool :=
  forallb (fun s => match s with NoPunch => false | _ => true end) steps.

(** A program that suppresses the punch for one word, and its steps. *)
Definition nopunch_source : string :=
  unlines ["*200"; "NOPUNCH"; "CLA"; "ENPUNCH"; "CMA"; "$"].

Definition nopunch_steps : list step :=
  [Punch (Origin 128); NoPunch; Punch (Word 128 3712); EnPunch; Punch (Word 129 3616)].

(** ** Frames of the evaluator *)

(** Evaluating an expression moves the lexer, enters symbols, reports errors
    and inserts literals.  It never writes a machine register or the object
    encoder, and a literal pool only grows (its [loc] only goes down). *)
Definition expr_frame (st st' : state) : Prop :=
  mach st' = mach st /\ enc st' = enc st /\
  loc (cp (lits st')) <= loc (cp (lits st)) /\
  loc (pz (lits st')) <= loc (pz (lits st)).

(** The stronger frame of the lexer, the symbol table and the diagnostics:
    the pools are not touched at all. *)
Definition quiet (st st' : state) : Prop :=
  mach st' = mach st /\ enc st' = enc st /\ lits st' = lits st.

(** A computation whose runs, when they return, relate the first state to
    the last by [R]. *)
Definition keeps (R : state -> state -> Prop) {A} (m : M A) : Prop :=
  forall st a st', m st = Ok (a, st') -> R st st'.

(** The relations the evaluator can be shown to keep: preorders that hold
    across quiet steps and across an insertion into a pool. *)
Class Frame (R : state -> state -> Prop) : Prop := {
  frame_refl : forall st, R st st;
  frame_trans : forall a b c, R a b -> R b c -> R a c;
  frame_quiet : forall a b, quiet a b -> R a b;
  frame_insert : forall w v st ix st', insertLiteral w v st = Ok (ix, st') -> R st st'
}.

(** ** Location counter and pools *)

(** [incrementClc] on the location counter alone. *)
Definition next_clc (c : Z) : Z := w16 (Z.land c 28672 + Z.land (c + 1) 4095).

(** [punchOutObject( clc, v ); incrementClc();] *)
Definition emit_word (v : Z) (st : state) : state :=
  incrementClc (punchOutObject (clc (mach st)) v st).

(** The pool [insertLiteral] works on: the page zero pool when the location
    counter is on page zero, whatever pool the caller names. *)
Definition target_pool (w : pool_id) (st : state) : pool_id :=
  if Z.land (clc (mach st)) 3968 =? 0 then PZ else w.

Definition other_pool (w : pool_id) : pool_id :=
  match w with PZ => CP | CP => PZ end.

(** ** Bounds of the literal pools *)

(** Both pools have their [loc] within the array, or one past its end. *)
Definition pool_bounds (st : state) : Prop :=
  0 <= loc (pz (lits st)) <= 128 /\ 0 <= loc (cp (lits st)) <= 128.

Definition bounds_kept (st st' : state) : Prop := pool_bounds st -> pool_bounds st'.

(** A step that leaves the [loc] of each pool as it was or empties the
    pool ([loc = 128]). *)
Definition resets (st st' : state) : Prop :=
  (loc (pz (lits st')) = loc (pz (lits st)) \/ loc (pz (lits st')) = 128) /\
  (loc (cp (lits st')) = loc (cp (lits st)) \/ loc (cp (lits st')) = 128).

(** ** Observations and sample states *)

(** The state a run ended in. *)
Definition state_of (r : result state) : state :=
  match r with
  | Ok st => st
  | Fault _ => startup false false false EmptyString
  end.

(** Value and type of a symbol, for examples. *)
Definition symbol_entry (nm : string) (st : state) : option (Z * SYMTYP) :=
  match lookup nm st with
  | Ok (ix, st') => Some (val (sym_at st' ix), type (sym_at st' ix))
  | Fault _ => None
  end.

(** Pass two with the object file open and nothing punched yet. *)
Definition encoder_state : state :=
  set_objectfile true (set_pass 2 (startup false false false EmptyString)).

(** The same with the file recorded as opened for the pass. *)
Definition punching_state : state := set_objectsave true encoder_state.

(** The statement [*=] in pass one: the expression is in error. *)
Definition origin_error_state : state :=
  nextLexeme (set_maxcc 3 (set_line ("*=" ++ String NL EmptyString)
                                    (set_pass 1 (startup false false false EmptyString)))).

(** The operator loop at the [%] of [6%0]. *)
Definition division_state : state :=
  nextLexeme
    (set_cc 1 (set_lexterm 1 (set_maxcc 4 (set_line ("6%0" ++ String NL EmptyString)
       (set_radix 8 (set_pass 1 (startup false false false EmptyString))))))).

(** The directive [SEGMNT 2] with the lexer on its argument. *)
Definition segmnt_state : state :=
  nextLexeme (nextLexeme
    (set_maxcc 9 (set_line ("SEGMNT 2" ++ String NL EmptyString)
       (set_radix 8 (set_pass 1 (startup false false false EmptyString)))))).

(** A conditional on a symbol that is never defined. *)
Definition ifdef_source : string := unlines ["IFDEF UND <CLA>"; "$"].

(** The directive [TEXT /AB/] in pass two, with the lexer on the first
    delimiter. *)
Definition text_state : state :=
  nextLexeme (nextLexeme
    (set_maxcc 10 (set_line ("TEXT /AB/" ++ String NL EmptyString)
       (set_objectfile true (set_pass 2 (startup false false false EmptyString)))))).

(** A program with 129 different page zero literals, for the [-l] flag. *)
Definition literal_line (n : nat) : string :=
  ("[" ++ NilEmpty.string_of_uint (Nat.to_uint n) ++ "]")%string.

Definition many_literals (n : nat) : string :=
  unlines ("DECIMAL" :: map literal_line (seq 1 n) ++ ["$"]).

(** The statement [TAD 500] on page 0200, in pass one with [-l] and the
    lexer on the second operand of the OR list, which is off the page. *)
Definition off_page_state : state :=
  nextLexeme (nextLexeme
    (set_maxcc 8 (set_line ("TAD 500" ++ String NL EmptyString)
       (set_fieldlc 128 (set_clc 128
          (set_cp (mkPool false 128 (replicate 128 0))
             (set_radix 8 (set_pass 1 (startup true false false EmptyString))))))))).

(** Pass two begins; pass one has left [A] defined as 2. *)
Definition redefinition_state : state :=
  state_of (exec (do _ <- install_symbols;
                  run set_pass 1;
                  do _ <- defineSymbol "A" 2 DEFINED 0;
                  run set_pass 2;
                  ret tt)
                 (startup false false false EmptyString)).


(** * Vocabulary of the further properties *)

(** ** Order of the symbol table *)

Definition name_at (tab : list SYM_T) (i : Z) : string := name (tab !!! Z.to_nat i).

(** The names of [symtab[lo .. hi)] are strictly increasing for [strcmp]. *)
Definition sorted_range (tab : list SYM_T) (lo hi : Z) : Prop :=
  forall i j, lo <= i -> i < j -> j < hi -> strcmp (name_at tab i) (name_at tab j) = Lt.

(** The permanent and the user part of the table are each sorted, and no
    name is in both. *)
Definition table_ok (st : state) : Prop :=
  let tab := symtab (syms st) in
  let nf := number_of_fixed_symbols (syms st) in
  0 <= nf <= symbol_top st /\
  sorted_range tab 0 nf /\ sorted_range tab nf (symbol_top st) /\
  (forall i j, 0 <= i < nf -> nf <= j < symbol_top st -> name_at tab i <> name_at tab j).

(** A test for [sorted_range] and [table_ok] on a given table. *)
Fixpoint sortedb (l : list SYM_T) : bool :=
  match l with
  | a :: (b :: _) as r =>
      match strcmp (name a) (name b) with Lt => sortedb r | _ => false end
  | _ => true
  end.

Definition table_okb (st : state) : bool :=
  let tab := symtab (syms st) in
  let nf := number_of_fixed_symbols (syms st) in
  (0 <=? nf) && (nf <=? symbol_top st) &&
  sortedb (take (Z.to_nat nf) tab) && sortedb (drop (Z.to_nat nf) tab) &&
  forallb (fun s => forallb (fun u => negb (String.eqb (name s) (name u)))
                      (drop (Z.to_nat nf) tab))
          (take (Z.to_nat nf) tab).

(** The table with [s] entered at index [ix], as [lookup] does it. *)
Definition enter_at (ix : Z) (s : SYM_T) (tab : list SYM_T) : list SYM_T :=
  take (Z.to_nat ix) tab ++ s :: drop (Z.to_nat ix) tab.

(** The symbol table as [main] sets it up before pass one. *)
Definition installed : state :=
  state_of (exec install_symbols (startup false false false EmptyString)).

(** The same table filled up to the last entry [lookup] accepts, with the
    user symbols [XAAA], [XAAB], ... *)
Definition letter (n : nat) : ascii := ascii_of_nat (65 + n mod 26).

Definition user_name (n : nat) : string :=
  String "X" (String (letter (n / 676)) (String (letter (n / 26))
    (String (letter n) EmptyString))).

Definition full_table : state :=
  set_symtab
    (symtab (syms installed) ++
     map (fun n => mkSym UNDEFINED (user_name n) 0 0)
         (seq 0 (Z.to_nat (SYMBOL_TABLE_SIZE - 1) - length (symtab (syms installed)))))
    installed.

(** The value and the state a computation returns, for stating examples. *)
Definition returned {A} (d : A) (r : result (A * state)) : A :=
  match r with
  | Ok (a, _) => a
  | Fault _ => d
  end.

Definition state_after {A} (r : result (A * state)) : state :=
  match r with
  | Ok (_, st) => st
  | Fault _ => startup false false false EmptyString
  end.

(** The index of an old entry after a new one is entered at [ix]. *)
Definition moved (ix i : Z) : Z := if i <? ix then i else i + 1.

(** ** Invariants of a run *)

(** A computation that keeps the property [I] of the state whenever it
    returns. *)
Definition preserves (I : state -> Prop) {A} (m : M A) : Prop :=
  forall st a st', I st -> m st = Ok (a, st') -> I st'.

(** A table in order with no permanent part yet, as during the set up of
    the table. *)
Definition fresh_table (st : state) : Prop :=
  table_ok st /\ number_of_fixed_symbols (syms st) = 0.


(** ** Literal pools *)

(** The words of a pool that are in use, [pool[loc .. 127]], each with the
    address [punchLiteralPool] punches it at. *)
Definition pool_words (p : LPOOL_T) (page : Z) : list punch :=
  map (fun k : nat => Word (w16 (Z.of_nat k + page)) (pool p !!! k))
      (seq (Z.to_nat (loc p)) (Z.to_nat (128 - loc p))).

(** ** Strings *)

(** Every character of [s] satisfies [p]. *)
Fixpoint all_chars (p : ascii -> bool) (s : string) : bool :=
  match s with
  | EmptyString => true
  | String c s' => p c && all_chars p s'
  end.

(** The state [readLine] leaves at the end of the file: the line [$]. *)
Definition eof_line (st : state) : state :=
  set_maxcc 2 (set_line (String "$" (String NL EmptyString))
    (set_error_in_line true
       (set_lexstartprev 0 (set_cc 0 (set_indirect_generated false
          (set_lineno (lineno (lexs st) + 1) st)))))).

(** ** Numerals *)

(** The digit in column [k] of the line. *)
Definition digit_at (st : state) (k : Z) : Z := code (cur st k) - 48.

(** The number the digits of columns [from .. from + n) spell in radix [r]:
    the sum of [digit * r ^ place]. *)
Fixpoint positional (r : Z) (st : state) (from : Z) (n : nat) : Z :=
  match n with
  | O => 0
  | S k => digit_at st from * r ^ Z.of_nat k + positional r st (from + 1) k
  end.

(** A number lexeme at the start of a line, in pass one with radix [r]. *)
Definition number_state (r : Z) (l : string) : state :=
  nextLexeme (set_maxcc (strlen l + 1) (set_line (l ++ String NL EmptyString)
    (set_radix r (set_pass 1 (startup false false false EmptyString))))).

(** ** Words of a directive *)

(** Six bit trimmed ASCII, two characters to the word, high character
    first; a string of even length is followed by a word of zeros. *)
Definition sixbit (c : ascii) : Z := Z.land (code c) 63.

Fixpoint sixbit_words (cs : list ascii) : list Z :=
  match cs with
  | a :: b :: rest => Z.lor (Z.shiftl (sixbit a) 6) (sixbit b) :: sixbit_words rest
  | [a] => [Z.shiftl (sixbit a) 6]
  | [] => [0]
  end.

(** [punchOutObject( clc, w ); incrementClc();] for each word in turn. *)
Definition emit_words (ws : list Z) (st : state) : state :=
  foldl (fun s w => emit_word w s) st ws.

(** The directive [TEXT /HELLO/] in pass two, with the lexer on the first
    delimiter. *)
Definition hello_state : state :=
  nextLexeme (nextLexeme
    (set_maxcc 13 (set_line ("TEXT /HELLO/" ++ String NL EmptyString)
       (set_objectfile true (set_pass 2 (startup false false false EmptyString)))))).

(** The directive [ZBLOCK 3] in pass two, with the lexer on the argument. *)
Definition zblock_state : state :=
  nextLexeme (nextLexeme
    (set_maxcc 9 (set_line ("ZBLOCK 3" ++ String NL EmptyString)
       (set_clc 128 (set_radix 8
          (set_objectfile true (set_pass 2 (startup false false false EmptyString)))))))).

(** The characters in columns [from .. from + n) of the line. *)
Definition line_chars (st : state) (from : Z) (n : nat) : list ascii :=
  map (fun i : nat => cur st (from + Z.of_nat i)) (seq 0 n).

(** ** Double precision integers

    [WORD32] is [long int], of 32 bits or more.  The embedding takes the
    width [W] of [long] as an argument; arithmetic on a [WORD32] wraps at
    that width, as the compiled code does.  The global [overflow] is set by
    [evalDubl] and read nowhere; it is left out. *)

Definition wlong (W z : Z) : Z := (z + 2 ^ (W - 1)) mod 2 ^ W - 2 ^ (W - 1).

(** The digit loop of [evalDubl]: [from] runs up to [lexterm]. *)
Fixpoint evalDubl_loop (W : Z) (n : nat) (from v : Z) (st : state) : Z * state :=
  match n with
  | O => (v, st)
  | S k =>
      if from <? lexterm (lexs st) then
        let c := cur st from in
        if isdigit c then
          let digit := code c - 48 in
          evalDubl_loop W k (from + 1) (wlong W (v * 10 + digit)) st
        else (0, errorLexeme not_a_number from st)
      else (v, st)
  end.

(** Get the value of the current lexeme as a double word.  The number is
    always considered to have a decimal radix. *)
Definition evalDubl (W initial_value : Z) (st : state) : Z * state :=
  let st1 := set_delimiter (cur st (lexterm (lexs st))) st in
  evalDubl_loop W (Z.to_nat (lexterm (lexs st1) - lexstart (lexs st1)))
    (lexstart (lexs st1)) initial_value st1.
(* ===================================================================== *)
(** * Properties                                                           *)
(* ===================================================================== *)

(** ** Arithmetic of 16 and 12 bit words *)

Lemma w16_range z : -32768 <= w16 z < 32768.
Proof. unfold w16. pose proof (Z.mod_pos_bound (z + 32768) 65536). lia. Qed.

Lemma w16_small z : -32768 <= z < 32768 -> w16 z = z.
Proof. intros H. unfold w16. rewrite Z.mod_small by lia. lia. Qed.

Lemma w16_mod z : w16 z mod 65536 = z mod 65536.
Proof.
  unfold w16.
  replace ((z + 32768) mod 65536 - 32768)
    with ((z + 32768) mod 65536 + (-32768)) by lia.
  rewrite Zplus_mod_idemp_l. f_equal. lia.
Qed.

Lemma mod65536_mod4096 a b : a mod 65536 = b mod 65536 -> a mod 4096 = b mod 4096.
Proof.
  intros H.
  rewrite <- (Z.mod_mod_divide a 65536 4096), <- (Z.mod_mod_divide b 65536 4096)
    by (exists 16; lia).
  now rewrite H.
Qed.

(** The two six bit frames of a word carry its low twelve bits. *)
Lemma frames_of_word c :
  0 <= Z.land (Z.shiftr c 6) 63 < 64 /\ 0 <= Z.land c 63 < 64 /\
  Z.land (Z.shiftr c 6) 63 * 64 + Z.land c 63 = c mod 4096.
Proof.
  change 63 with (Z.ones 6). rewrite !Z.land_ones by lia.
  rewrite Z.shiftr_div_pow2 by lia. change (2 ^ 6) with 64.
  pose proof (Z.mod_pos_bound (c / 64) 64). pose proof (Z.mod_pos_bound c 64).
  repeat split; try lia.
  pose proof (Z.div_mod c 64). pose proof (Z.div_mod (c / 64) 64).
  pose proof (Z.mod_pos_bound c 4096). pose proof (Z.div_mod c 4096).
  assert (c / 64 / 64 = c / 4096) by (rewrite Z.div_div by lia; reflexivity).
  lia.
Qed.

Lemma land_255_small v : 0 <= v < 256 -> Z.land v 255 = v.
Proof. intros H. change 255 with (Z.ones 8). rewrite Z.land_ones by lia. apply Z.mod_small. lia. Qed.

(** ** Object encoder and checksum *)

Lemma sumZ_app l1 l2 : sumZ (l1 ++ l2) = sumZ l1 + sumZ l2.
Proof. induction l1 as [|x l1 IH]; simpl; [reflexivity | rewrite IH; lia]. Qed.

Lemma origin_frame_hi_range l : 0 <= Z.lor (Z.land (Z.shiftr l 6) 63) 64 < 256.
Proof.
  destruct (frames_of_word l) as [H _].
  assert (E : Z.lor (Z.land (Z.shiftr l 6) 63) 64 = Z.land (Z.shiftr l 6) 63 + 64).
  { assert (D : Z.land (Z.land (Z.shiftr l 6) 63) 64 = 0).
    { rewrite <- Z.land_assoc. change (Z.land 63 64) with 0. apply Z.land_0_r. }
    symmetry. rewrite Z.add_nocarry_lxor by exact D. apply Z.lxor_lor. exact D. }
  lia.
Qed.

Lemma field_frame_range n : 0 <= field_frame n < 256.
Proof.
  unfold field_frame.
  assert (H : 0 <= Z.land n 7 < 8).
  { change 7 with (Z.ones 3). rewrite Z.land_ones by lia. apply Z.mod_pos_bound. lia. }
  assert (C : Z.land n 7 = 0 \/ Z.land n 7 = 1 \/ Z.land n 7 = 2 \/ Z.land n 7 = 3 \/
              Z.land n 7 = 4 \/ Z.land n 7 = 5 \/ Z.land n 7 = 6 \/ Z.land n 7 = 7) by lia.
  destruct C as [E|[E|[E|[E|[E|[E|[E|E]]]]]]]; rewrite E; vm_compute; split; congruence.
Qed.

Lemma punchObject_checksum v st :
  checksum (enc (punchObject v st)) = w16 (checksum (enc st) + Z.land v 255).
Proof. unfold punchObject. destruct (objectfile (enc st)); reflexivity. Qed.

Lemma punchObject_out v st :
  object_out (enc (punchObject v st)) =
  if objectfile (enc st) then object_out (enc st) ++ [Z.land v 255] else object_out (enc st).
Proof. unfold punchObject. destruct (objectfile (enc st)); reflexivity. Qed.

Lemma punchObject_flags v st :
  objectfile (enc (punchObject v st)) = objectfile (enc st) /\
  binary_data_output (enc (punchObject v st)) = true /\
  mach (punchObject v st) = mach st.
Proof. unfold punchObject. destruct (objectfile (enc st)) eqn:E; simpl; rewrite ?E; repeat split. Qed.

Lemma punchOrigin_checksum l st :
  checksum (enc (punchOrigin l st)) =
  w16 (w16 (checksum (enc st) + Z.lor (Z.land (Z.shiftr l 6) 63) 64) + Z.land l 63).
Proof.
  unfold punchOrigin. rewrite !punchObject_checksum.
  rewrite (land_255_small (Z.lor _ 64)) by apply origin_frame_hi_range.
  rewrite (land_255_small (Z.land l 63)); [reflexivity|].
  destruct (frames_of_word l) as (_ & H & _). lia.
Qed.




Lemma frames_split ops :
  sumZ (frames ops) - sumZ (field_frames ops) = sumZ (data_and_origin_frames ops).
Proof.
  unfold frames, field_frames, data_and_origin_frames.
  induction ops as [|op ops IH]; simpl; [reflexivity|].
  rewrite !sumZ_app. destruct op; simpl; lia.
Qed.

(** Effect of one operation in BIN mode with the object file open. *)
Lemma do_punch_bin st op :
  rim_mode (mach st) = false -> objectfile (enc st) = true ->
  let st' := do_punch st op in
  rim_mode (mach st') = false /\ objectfile (enc st') = true /\
  binary_data_output (enc st') = true /\
  object_out (enc st') = object_out (enc st) ++ frames_of op /\
  checksum (enc st') mod 65536 =
  (checksum (enc st) + sumZ (frames_of op) - sumZ (field_frames_of op)) mod 65536.
Proof.
  intros Hr Ho. destruct op as [l | l v | n]; cbv zeta; cbv [do_punch frames_of field_frames_of].
  - pose proof (punchObject_flags (Z.lor (Z.land (Z.shiftr l 6) 63) 64) st) as (F1 & F2 & F3).
    pose proof (punchObject_flags (Z.land l 63)
                  (punchObject (Z.lor (Z.land (Z.shiftr l 6) 63) 64) st)) as (G1 & G2 & G3).
    rewrite punchOrigin_checksum. unfold punchOrigin.
    rewrite G3, F3, G1, F1, G2. repeat split; try assumption.
    + rewrite !punchObject_out, F1, Ho.
      rewrite (land_255_small (Z.lor _ 64)) by apply origin_frame_hi_range.
      rewrite (land_255_small (Z.land l 63))
        by (destruct (frames_of_word l) as (_ & H & _); lia).
      rewrite <- app_assoc. reflexivity.
    + rewrite w16_mod.
      rewrite Zplus_mod, w16_mod, <- Zplus_mod. f_equal. unfold sumZ; simpl. lia.
  - unfold punchLocObject. rewrite Hr.
    pose proof (punchObject_flags (Z.land (Z.shiftr v 6) 63) st) as (F1 & F2 & F3).
    pose proof (punchObject_flags (Z.land v 63)
                  (punchObject (Z.land (Z.shiftr v 6) 63) st)) as (G1 & G2 & G3).
    rewrite G3, F3, G1, F1, G2. repeat split; try assumption.
    + rewrite !punchObject_out, F1, Ho.
      destruct (frames_of_word v) as (H1 & H2 & _).
      rewrite !land_255_small by lia. rewrite <- app_assoc. reflexivity.
    + rewrite !punchObject_checksum, w16_mod.
      destruct (frames_of_word v) as (H1 & H2 & _).
      rewrite !land_255_small by lia.
      rewrite Zplus_mod, w16_mod, <- Zplus_mod. f_equal. unfold sumZ; simpl. lia.
  - unfold punchField. fold (field_frame n).
    pose proof (punchObject_flags (field_frame n) st) as (F1 & F2 & F3).
    pose proof (field_frame_range n) as R.
    cbn [enc mach checksum objectfile binary_data_output object_out set_checksum with_enc].
    rewrite F3, F1, F2. repeat split; try assumption.
    + rewrite punchObject_out, Ho, land_255_small by assumption. reflexivity.
    + rewrite w16_mod, punchObject_checksum, land_255_small by assumption.
      rewrite Zminus_mod, w16_mod, <- Zminus_mod. f_equal. unfold sumZ; simpl. lia.
Qed.

Lemma run_punch_bin ops : forall st,
  rim_mode (mach st) = false -> objectfile (enc st) = true ->
  let st' := foldl do_punch st ops in
  rim_mode (mach st') = false /\ objectfile (enc st') = true /\
  (ops <> [] -> binary_data_output (enc st') = true) /\
  object_out (enc st') = object_out (enc st) ++ frames ops /\
  checksum (enc st') mod 65536 =
  (checksum (enc st) + sumZ (frames ops) - sumZ (field_frames ops)) mod 65536.
Proof.
  induction ops as [|op ops IH]; intros st Hr Ho; simpl.
  - repeat split; try assumption; try congruence.
    + unfold frames; simpl. now rewrite app_nil_r.
    + f_equal. unfold frames, field_frames, sumZ; simpl. lia.
  - destruct (do_punch_bin st op Hr Ho) as (A1 & A2 & A3 & A4 & A5).
    destruct (IH (do_punch st op) A1 A2) as (B1 & B2 & B3 & B4 & B5).
    repeat split; try assumption.
    + intros _. destruct ops as [|op' ops']; [exact A3 | apply B3; congruence].
    + rewrite B4, A4. unfold frames; simpl. now rewrite app_assoc.
    + rewrite B5. unfold frames, field_frames; simpl. rewrite !sumZ_app.
      rewrite Zminus_mod, Zplus_mod, A5, <- Zplus_mod, <- Zminus_mod. f_equal. lia.
Qed.

(** Effect of one operation in BIN mode, with the object file open or not:
    the frames are summed either way. *)
Lemma do_punch_any st op :
  rim_mode (mach st) = false ->
  let st' := do_punch st op in
  rim_mode (mach st') = false /\ objectfile (enc st') = objectfile (enc st) /\
  objectsave (enc st') = objectsave (enc st) /\
  binary_data_output (enc st') = true /\
  object_out (enc st') =
    object_out (enc st) ++ (if objectfile (enc st) then frames_of op else []) /\
  checksum (enc st') mod 65536 =
  (checksum (enc st) + sumZ (frames_of op) - sumZ (field_frames_of op)) mod 65536.
Proof.
  intros Hr. cbv zeta. destruct (objectfile (enc st)) eqn:Ho.
  - destruct (do_punch_bin st op Hr Ho) as (A1 & A2 & A3 & A4 & A5).
    split; [exact A1|]. split; [exact A2|]. split; [|split; [exact A3|split; [exact A4|exact A5]]].
    destruct op as [l | l v | n]; cbv [do_punch punchOrigin punchLocObject punchField];
      rewrite ?Hr; unfold punchObject;
      repeat (match goal with |- context [if ?b then _ else _] => destruct b end);
      reflexivity.
  - assert (P : forall v s, objectfile (enc s) = false ->
                punchObject v s =
                set_binary_data_output true (set_checksum (w16 (checksum (enc s) + Z.land v 255)) s)).
    { intros v s E. unfold punchObject. rewrite E. reflexivity. }
    destruct op as [l | l v | n]; cbv [do_punch frames_of field_frames_of].
    + unfold punchOrigin. rewrite (P _ st Ho), P by exact Ho.
      cbn [enc mach checksum objectfile objectsave binary_data_output object_out
           set_checksum set_binary_data_output with_enc].
      rewrite Ho, app_nil_r. repeat split; try assumption.
      rewrite (land_255_small (Z.lor _ 64)) by apply origin_frame_hi_range.
      rewrite (land_255_small (Z.land l 63))
        by (destruct (frames_of_word l) as (_ & H & _); lia).
      rewrite w16_mod, Zplus_mod, w16_mod, <- Zplus_mod. f_equal. unfold sumZ; simpl. lia.
    + unfold punchLocObject. rewrite Hr, (P _ st Ho), P by exact Ho.
      cbn [enc mach checksum objectfile objectsave binary_data_output object_out
           set_checksum set_binary_data_output with_enc].
      rewrite Ho, app_nil_r. repeat split; try assumption.
      destruct (frames_of_word v) as (H1 & H2 & _).
      rewrite !land_255_small by lia.
      rewrite w16_mod, Zplus_mod, w16_mod, <- Zplus_mod. f_equal. unfold sumZ; simpl. lia.
    + unfold punchField. fold (field_frame n). rewrite (P _ st Ho).
      pose proof (field_frame_range n) as R.
      cbn [enc mach checksum objectfile objectsave binary_data_output object_out
           set_checksum set_binary_data_output with_enc].
      rewrite Ho, app_nil_r. repeat split; try assumption.
      rewrite land_255_small by assumption.
      rewrite w16_mod, Zminus_mod, w16_mod, <- Zminus_mod. f_equal. unfold sumZ; simpl. lia.
Qed.

(** The steps of a segment: the tape takes the frames of the punches done
    while the object file is open, the checksum those of all punches. *)
Lemma run_steps steps : forall st,
  rim_mode (mach st) = false -> objectsave (enc st) = true ->
  let st' := foldl do_step st steps in
  rim_mode (mach st') = false /\ objectsave (enc st') = true /\
  (ops_of steps <> [] -> binary_data_output (enc st') = true) /\
  object_out (enc st') = object_out (enc st) ++ punched (objectfile (enc st)) steps /\
  checksum (enc st') mod 65536 =
  (checksum (enc st) + sumZ (frames (ops_of steps)) - sumZ (field_frames (ops_of steps)))
    mod 65536 /\
  (ops_of steps = [] -> binary_data_output (enc st') = binary_data_output (enc st)).
Proof.
  induction steps as [|s steps IH]; intros st Hr Hs; cbn [foldl].
  - cbn [ops_of punched]. rewrite app_nil_r.
    repeat split; try assumption; try congruence.
    f_equal. unfold frames, field_frames, sumZ; simpl. lia.
  - destruct s as [op | |]; cbn [do_step ops_of punched].
    + destruct (do_punch_any st op Hr) as (A1 & A2 & A3 & A4 & A5 & A6).
      rewrite Hs in A3.
      destruct (IH (do_punch st op) A1 A3) as (B1 & B2 & B3 & B4 & B5 & B6).
      cbv zeta in B1, B2, B3, B4, B5, B6.
      split; [exact B1|]. split; [exact B2|]. split; [|split; [|split]].
      * intros _. destruct (ops_of steps) eqn:E; [rewrite B6 by reflexivity; exact A4|].
        apply B3. discriminate.
      * rewrite B4, A5, A2, <- app_assoc. reflexivity.
      * rewrite B5. unfold frames, field_frames; cbn [map concat]. rewrite !sumZ_app.
        rewrite Zminus_mod, Zplus_mod, A6, <- Zplus_mod, <- Zminus_mod. f_equal. lia.
      * discriminate.
    + destruct (IH (set_objectfile false st) Hr Hs) as (B1 & B2 & B3 & B4 & B5 & B6).
      cbv zeta in B1, B2, B3, B4, B5, B6.
      cbn [enc objectfile binary_data_output checksum object_out set_objectfile with_enc]
        in B4, B5, B6.
      split; [exact B1|]. split; [exact B2|]. split; [exact B3|]. split; [exact B4|].
      split; [exact B5 | exact B6].
    + rewrite Hs.
      destruct (IH (set_objectfile true st) Hr Hs) as (B1 & B2 & B3 & B4 & B5 & B6).
      cbv zeta in B1, B2, B3, B4, B5, B6.
      cbn [enc objectfile binary_data_output checksum object_out set_objectfile with_enc]
        in B4, B5, B6.
      split; [exact B1|]. split; [exact B2|]. split; [exact B3|]. split; [exact B4|].
      split; [exact B5 | exact B6].
Qed.

Lemma punched_all steps :
  never_off steps = true -> punched true steps = frames (ops_of steps).
Proof.
  induction steps as [|s steps IH]; intros H; [reflexivity|].
  cbn [never_off forallb] in H. apply andb_true_iff in H as (H1 & H2).
  destruct s as [op | |]; cbn [punched ops_of]; [|discriminate|exact (IH H2)].
  rewrite (IH H2). reflexivity.
Qed.

(** The checksum of a segment.  In BIN mode, from a reset checksum, a
    segment of origins, words and field selects, with NOPUNCH and ENPUNCH
    among them, is closed by [objectfile = objectsave; punchChecksum()] with
    two frames [hi], [lo].  They spell, modulo 4096, the sum of the frames
    of every data word and origin handed to the encoder since the reset, the
    frames of field selects left out, whether the frames went to the tape or
    were suppressed by NOPUNCH.  When no NOPUNCH occurs, these are the
    frames on the tape.  The checksum is reset again. *)
Lemma bin_segment_checksum (steps : list step) (st : state) :
  rim_mode (mach st) = false -> objectsave (enc st) = true ->
  checksum (enc st) = 0 -> ops_of steps <> [] ->
  let s1 := foldl do_step st steps in
  let st' := punchChecksum (set_objectfile (objectsave (enc s1)) s1) in
  exists hi lo,
    object_out (enc st') =
      object_out (enc st) ++ punched (objectfile (enc st)) steps ++ [hi; lo] /\
    0 <= hi < 64 /\ 0 <= lo < 64 /\
    hi * 64 + lo = (sumZ (frames (ops_of steps)) - sumZ (field_frames (ops_of steps)))
                     mod 4096 /\
    hi * 64 + lo = sumZ (data_and_origin_frames (ops_of steps)) mod 4096 /\
    (objectfile (enc st) = true -> never_off steps = true ->
     punched (objectfile (enc st)) steps = frames (ops_of steps)) /\
    checksum (enc st') = 0.
Proof.
  intros Hr Hs Hc Hne.
  destruct (run_steps steps st Hr Hs) as (A1 & A2 & A3 & A4 & A5 & _).
  specialize (A3 Hne). rewrite Hc in A5. simpl in A5.
  set (s1 := foldl do_step st steps) in *. cbv zeta.
  set (s2 := set_objectfile (objectsave (enc s1)) s1).
  assert (B : rim_mode (mach s2) = false /\ objectfile (enc s2) = true /\
              binary_data_output (enc s2) = true /\ checksum (enc s2) = checksum (enc s1) /\
              object_out (enc s2) = object_out (enc s1)).
  { unfold s2. cbn [enc mach set_objectfile with_enc objectfile binary_data_output checksum
                    object_out]. repeat split; assumption. }
  destruct B as (B1 & B2 & B3 & B4 & B5).
  set (c := checksum (enc s1)) in *.
  destruct (frames_of_word c) as (H1 & H2 & H3).
  exists (Z.land (Z.shiftr c 6) 63), (Z.land c 63).
  assert (E : Z.land (Z.shiftr c 6) 63 * 64 + Z.land c 63 =
              (sumZ (frames (ops_of steps)) - sumZ (field_frames (ops_of steps))) mod 4096).
  { rewrite H3. apply mod65536_mod4096. rewrite A5. f_equal. }
  unfold punchChecksum. rewrite B3, B1, B4.
  cbn [andb negb enc checksum object_out set_checksum set_binary_data_output with_enc].
  unfold punchLocObject. rewrite B1.
  pose proof (punchObject_flags (Z.land (Z.shiftr c 6) 63) s2) as (F1 & F2 & F3).
  split.
  { rewrite punchObject_out, F1, B2, punchObject_out, B2, B5, A4, !land_255_small by lia.
    rewrite <- !app_assoc. reflexivity. }
  split; [lia|]. split; [lia|]. split; [exact E|].
  split; [rewrite <- frames_split; exact E|].
  split; [|reflexivity].
  intros Ho Hn. rewrite Ho. apply punched_all, Hn.
Qed.

(** The steps of [*200; NOPUNCH; CLA; ENPUNCH; CMA]: CLA is summed and not
    punched. *)
Lemma nopunch_steps_checksum :
  let s1 := foldl do_step punching_state nopunch_steps in
  exists hi lo,
    object_out (enc (punchChecksum (set_objectfile (objectsave (enc s1)) s1)))
      = object_out (enc punching_state) ++ [66; 0; 56; 32] ++ [hi; lo] /\
    hi * 64 + lo = (66 + 0 + 58 + 0 + 56 + 32) mod 4096.
Proof.
  destruct (bin_segment_checksum nopunch_steps punching_state)
    as (hi & lo & H1 & _ & _ & H2 & _);
    [reflexivity | reflexivity | reflexivity | discriminate |].
  exists hi, lo. split; [exact H1 | exact H2].
Qed.

(** C2 fails on the code.  [punchObject] adds a frame to the checksum also
    when NOPUNCH has closed the object file, so the checksum word counts
    frames that are not on the tape.  The assembly of
    [*200; NOPUNCH; CLA; ENPUNCH; CMA; $] punches the origin 0102 0000 and
    the word CMA, 0070 0040, which sum to 0232, and then the checksum 0324:
    the sum with the frames 0072 0000 of CLA, which was not punched.
    Without the NOPUNCH the same program ends with the sum of the frames on
    its tape, as the claim has it. *)
Theorem C2_checksum_counts_unpunched_frames :
  tape (main 30 false false false nopunch_source) = Some ([66; 0; 56; 32] ++ [3; 20]) /\
  sumZ [66; 0; 56; 32] mod 4096 = 154 /\
  3 * 64 + 20 <> 154 /\
  3 * 64 + 20 = sumZ ([66; 0] ++ data_frames 3712 ++ [56; 32]) mod 4096 /\
  tape (main 30 false false false (unlines ["*200"; "CLA"; "ENPUNCH"; "CMA"; "$"]))
    = Some ([66; 0; 58; 0; 56; 32] ++ [3; 20]) /\
  3 * 64 + 20 = sumZ [66; 0; 58; 0; 56; 32] mod 4096.
Proof.
  split; [vm_compute; reflexivity|]. split; [reflexivity|]. split; [discriminate|].
  split; [reflexivity|]. split; [vm_compute; reflexivity | reflexivity].
Qed.

(** The scenario of the specification: origin 0200, word 7200, and the
    checksum of the four frames, 0174. *)
Example cla_tape :
  tape (main 20 false false false (unlines ["*0200"; "CLA"; "$"])) = Some [66; 0; 58; 0; 1; 60].
Proof. vm_compute. reflexivity. Qed.

(** A field select frame is on the tape and not in the checksum. *)
Example field_tape :
  tape (main 20 false false false (unlines ["FIELD 1"; "CLA"; "$"]))
  = Some [200; 66; 0; 58; 0; 1; 60].
Proof. vm_compute. reflexivity. Qed.

(** ** What expression evaluation leaves alone

    Evaluating an expression moves the lexer, enters symbols, reports errors
    and inserts literals.  It never writes a machine register or the object
    encoder, and a literal pool only grows (its [loc] only goes down). *)

Lemma quiet_refl st : quiet st st.
Proof. repeat split. Qed.

Lemma quiet_trans a b c : quiet a b -> quiet b c -> quiet a c.
Proof. unfold quiet. intros (?&?&?) (?&?&?). repeat split; congruence. Qed.

Lemma quiet_frame a b : quiet a b -> expr_frame a b.
Proof. unfold quiet, expr_frame. intros (-> & -> & ->). repeat split; lia. Qed.

Lemma expr_frame_refl st : expr_frame st st.
Proof. apply quiet_frame, quiet_refl. Qed.

Lemma expr_frame_trans a b c : expr_frame a b -> expr_frame b c -> expr_frame a c.
Proof.
  unfold expr_frame. intros (?&?&?&?) (?&?&?&?). repeat split; try congruence; lia.
Qed.

Create HintDb quiet.

Lemma set_infile_quiet v st : quiet st (set_infile v st).
Proof. repeat split. Qed.
Lemma set_line_quiet v st : quiet st (set_line v st).
Proof. repeat split. Qed.
Lemma set_lineno_quiet v st : quiet st (set_lineno v st).
Proof. repeat split. Qed.
Lemma set_cc_quiet v st : quiet st (set_cc v st).
Proof. repeat split. Qed.
Lemma set_maxcc_quiet v st : quiet st (set_maxcc v st).
Proof. repeat split. Qed.
Lemma set_lexstart_quiet v st : quiet st (set_lexstart v st).
Proof. repeat split. Qed.
Lemma set_lexterm_quiet v st : quiet st (set_lexterm v st).
Proof. repeat split. Qed.
Lemma set_lexstartprev_quiet v st : quiet st (set_lexstartprev v st).
Proof. repeat split. Qed.
Lemma set_lextermprev_quiet v st : quiet st (set_lextermprev v st).
Proof. repeat split. Qed.
Lemma set_delimiter_quiet v st : quiet st (set_delimiter v st).
Proof. repeat split. Qed.
Lemma set_indirect_generated_quiet v st : quiet st (set_indirect_generated v st).
Proof. repeat split. Qed.
Lemma set_symtab_quiet v st : quiet st (set_symtab v st).
Proof. repeat split. Qed.
Lemma set_number_of_fixed_symbols_quiet v st : quiet st (set_number_of_fixed_symbols v st).
Proof. repeat split. Qed.
Lemma set_xref_quiet v st : quiet st (set_xref v st).
Proof. repeat split. Qed.
Lemma set_last_xref_lexstart_quiet v st : quiet st (set_last_xref_lexstart v st).
Proof. repeat split. Qed.
Lemma set_last_xref_lineno_quiet v st : quiet st (set_last_xref_lineno v st).
Proof. repeat split. Qed.
Lemma set_sym_eval_quiet v st : quiet st (set_sym_eval v st).
Proof. repeat split. Qed.
Lemma set_sym_getexpr_quiet v st : quiet st (set_sym_getexpr v st).
Proof. repeat split. Qed.
Lemma set_errors_quiet v st : quiet st (set_errors v st).
Proof. repeat split. Qed.
Lemma set_error_in_line_quiet v st : quiet st (set_error_in_line v st).
Proof. repeat split. Qed.
Lemma set_errorfile_quiet v st : quiet st (set_errorfile v st).
Proof. repeat split. Qed.
#[global] Hint Resolve
  set_infile_quiet set_line_quiet set_lineno_quiet set_cc_quiet
  set_maxcc_quiet set_lexstart_quiet set_lexterm_quiet set_lexstartprev_quiet
  set_lextermprev_quiet set_delimiter_quiet set_indirect_generated_quiet set_symtab_quiet
  set_number_of_fixed_symbols_quiet set_xref_quiet set_last_xref_lexstart_quiet set_last_xref_lineno_quiet
  set_sym_eval_quiet set_sym_getexpr_quiet set_errors_quiet set_error_in_line_quiet
  set_errorfile_quiet : quiet.

(** One step of a quietness proof: peel the outermost update or call, or
    split on a test. *)
Ltac quiet_step :=
  lazymatch goal with
  | |- quiet ?a ?a => apply quiet_refl
  | |- quiet _ (if ?b then _ else _) => destruct b
  | |- quiet ?a (let x := ?v in @?b x) =>
      first [ apply (quiet_trans a v (b v));
              [ | let s := fresh "s" in generalize v; intro s; cbv beta ]
            | change (quiet a (b v)); cbv beta ]
  | |- quiet ?a (?f ?s) => apply (quiet_trans a s (f s)); [ | solve [auto with quiet] ]
  end.
Ltac quiet_auto := repeat quiet_step.

Lemma log_error_quiet m n c st : quiet st (log_error m n c st).
Proof. unfold log_error. quiet_auto. Qed.
#[global] Hint Resolve log_error_quiet : quiet.

Lemma errorSymbol_quiet m n c st : quiet st (errorSymbol m n c st).
Proof. unfold errorSymbol. quiet_auto. Qed.

Lemma errorMessage_quiet m c st : quiet st (errorMessage m c st).
Proof. unfold errorMessage. quiet_auto. Qed.
#[global] Hint Resolve errorSymbol_quiet errorMessage_quiet : quiet.

Lemma errorLexeme_quiet m c st : quiet st (errorLexeme m c st).
Proof. unfold errorLexeme. apply errorSymbol_quiet. Qed.

Lemma skip_quiet p st : quiet st (skip p st).
Proof. unfold skip. quiet_auto. Qed.
#[global] Hint Resolve errorLexeme_quiet skip_quiet : quiet.

Lemma moveToEndOfLine_quiet st : quiet st (moveToEndOfLine st).
Proof. cbv delta [moveToEndOfLine]; cbv beta. quiet_auto. Qed.

Lemma nextLexeme_quiet st : quiet st (nextLexeme st).
Proof. cbv delta [nextLexeme]; cbv beta. quiet_auto. Qed.
#[global] Hint Resolve moveToEndOfLine_quiet nextLexeme_quiet : quiet.

Lemma nextLexBlank_quiet st : quiet st (nextLexBlank st).
Proof. cbv delta [nextLexBlank]; cbv beta. quiet_auto. Qed.

Lemma set_sym_quiet ix s st : quiet st (set_sym ix s st).
Proof. unfold set_sym. quiet_auto. Qed.

Lemma upd_getexpr_quiet f st : quiet st (upd_getexpr f st).
Proof. unfold upd_getexpr. quiet_auto. Qed.
#[global] Hint Resolve nextLexBlank_quiet set_sym_quiet upd_getexpr_quiet : quiet.

Lemma eval_number_quiet n : forall from v st, quiet st (snd (eval_number n from v st)).
Proof.
  induction n as [|n IH]; intros from v st; simpl; [apply quiet_refl|].
  destruct (_ <? _); [|apply quiet_refl].
  destruct (isdigit _); [|apply errorLexeme_quiet].
  destruct (_ <? _); [apply IH | apply errorLexeme_quiet].
Qed.

Lemma lookup_quiet nm st ix st' : lookup nm st = Ok (ix, st') -> quiet st st'.
Proof.
  unfold lookup. intros H.
  repeat match type of H with
         | (if ?b then _ else _) = _ => destruct b
         end; inversion H; subst; repeat split.
Qed.

(** *** Frames of monadic computations *)

Section Frames.

Context {R : state -> state -> Prop} `{!Frame R}.

Lemma keeps_ret {A} (a : A) : keeps R (ret a).
Proof. intros st a' st' H. inversion H; subst. apply frame_refl. Qed.

Lemma keeps_raise {A} f : keeps R (@raise A f).
Proof. intros st a st' H. discriminate. Qed.

Lemma keeps_get : keeps R get.
Proof. intros st a st' H. inversion H; subst. apply frame_refl. Qed.

Lemma keeps_bind {A B} (m : M A) (k : A -> M B) :
  keeps R m -> (forall a, keeps R (k a)) -> keeps R (bind m k).
Proof.
  intros Hm Hk st b st' H. unfold bind in H.
  destruct (m st) as [[a st1]|f] eqn:E; [|discriminate].
  eapply frame_trans; [eapply Hm, E | eapply Hk, H].
Qed.

Lemma keeps_modify f : (forall st, R st (f st)) -> keeps R (modify f).
Proof. intros Hf st a st' H. inversion H; subst. apply Hf. Qed.

Lemma keeps_quiet f : (forall st, quiet st (f st)) -> keeps R (modify f).
Proof. intros Hf. apply keeps_modify. intros st. apply frame_quiet, Hf. Qed.

Lemma keeps_call {A} (f : state -> A * state) :
  (forall st, R st (snd (f st))) -> keeps R (call f).
Proof.
  intros Hf st a st' H. unfold call in H. inversion H as [E].
  specialize (Hf st). rewrite E in Hf. exact Hf.
Qed.

Lemma insertLiteral_keeps w v : keeps R (insertLiteral w v).
Proof. intros st ix st'. apply frame_insert. Qed.

Lemma lookup_keeps nm : keeps R (lookup nm).
Proof. intros st a st' E. apply frame_quiet. eapply lookup_quiet, E. Qed.

End Frames.

(** Peels a monadic computation: binds, tests and the basic steps. *)
Ltac keeps_step :=
  first
    [ assumption
    | apply keeps_ret | apply keeps_raise | apply keeps_get
    | apply lookup_keeps | apply insertLiteral_keeps
    | apply keeps_quiet; intros ?; solve [auto with quiet | quiet_auto]
    | apply keeps_call; intros ?; apply frame_quiet, eval_number_quiet
    | apply keeps_bind; [| intros ?]
    | match goal with
      | |- keeps _ (if ?b then _ else _) => destruct b
      | |- keeps _ (let '(_, _) := ?x in _) => destruct x
      end ].
Ltac keeps_tac := repeat keeps_step.

Section Evaluator.

Context {R : state -> state -> Prop} `{!Frame R}.

Lemma evalSymbol_keeps : keeps R evalSymbol.
Proof. unfold evalSymbol. keeps_tac. Qed.

Lemma set_eval_val_keeps v : keeps R (set_eval_val v).
Proof. unfold set_eval_val. keeps_tac. Qed.

Lemma defineSymbol_keeps nm v ty start : keeps R (defineSymbol nm v ty start).
Proof. unfold defineSymbol. keeps_tac. Qed.

Lemma defineLexeme_keeps start term v ty : keeps R (defineLexeme start term v ty).
Proof. unfold defineLexeme. keeps_tac. apply defineSymbol_keeps. Qed.

(** Expression evaluation keeps every [Frame]. *)
Theorem evaluator_keeps (fuel : nat) :
  keeps R (eval fuel) /\ keeps R (getExpr fuel) /\ keeps R (getExpr_loop fuel) /\
  keeps R (getExprs fuel) /\ (forall v t, keeps R (getExprs_loop fuel v t)).
Proof.
  induction fuel as [|k (IHe & IHg & IHl & IHs & IHsl)].
  - refine (conj _ (conj _ (conj _ (conj _ _)))); intros; apply keeps_raise.
  - refine (conj _ (conj _ (conj _ (conj _ _)))); intros.
    + cbn [eval].
      repeat first [apply evalSymbol_keeps | apply set_eval_val_keeps | progress keeps_tac].
    + cbn [getExpr]. keeps_tac.
    + cbn [getExpr_loop]. keeps_tac.
    + cbn [getExprs]. repeat first [apply IHsl | progress keeps_tac].
    + cbn [getExprs_loop]. repeat first [apply IHsl | progress keeps_tac].
Qed.

Lemma eval_keeps fuel : keeps R (eval fuel).
Proof. apply (evaluator_keeps fuel). Qed.

Lemma getExpr_keeps fuel : keeps R (getExpr fuel).
Proof. apply (evaluator_keeps fuel). Qed.

Lemma getExprs_keeps fuel : keeps R (getExprs fuel).
Proof. apply (evaluator_keeps fuel). Qed.

End Evaluator.

(** *** The frame of claim C10 *)

Lemma search_pool_lower p v n : -1 <= search_pool p v n.
Proof.
  induction n as [|n IH]; simpl; [lia|].
  destruct (_ && _); [exact IH | lia].
Qed.

Lemma w16_le z : -32768 <= z -> w16 z <= z.
Proof.
  intros H. unfold w16.
  pose proof (Z.mod_le (z + 32768) 65536). lia.
Qed.

Lemma insertLiteral_frame w v st ix st' :
  insertLiteral w v st = Ok (ix, st') -> expr_frame st st'.
Proof.
  intros H. unfold insertLiteral in H.
  set (w' := if _ =? 0 then PZ else w) in H.
  set (p := get_pool w' st) in H.
  pose proof (search_pool_lower p v (Z.to_nat PAGE_SIZE)) as L.
  destruct (_ && _); [discriminate|].
  destruct (_ <? loc p) eqn:E1.
  - destruct (_ && _) eqn:E2; [|discriminate].
    inversion H; subst; clear H.
    apply Z.ltb_lt in E1.
    assert (w16 (loc p - 1) <= loc p) by (pose proof (w16_le (loc p - 1)); lia).
    subst p. destruct w'; repeat split; simpl in *; try lia.
  - inversion H; subst. apply expr_frame_refl.
Qed.

#[global] Instance expr_frame_Frame : Frame expr_frame.
Proof.
  split.
  - exact expr_frame_refl.
  - exact expr_frame_trans.
  - exact quiet_frame.
  - exact insertLiteral_frame.
Qed.

(** ** The origin statement *)

(** C10: if the expression after [*] leaves [error_in_line] set, the origin
    statement ends in the very state the expression left; the location
    counter and [fieldlc] are those before the statement, the encoder has
    punched nothing, and no pool was emptied ([loc] did not go up). *)
Theorem C10_origin_atomic_on_error (fuel : nat) (st st1 : state) (e : SYM_T) :
  getExpr fuel (nextLexeme st) = Ok (e, st1) ->
  error_in_line (errs st1) = true ->
  onePass_origin fuel st = Ok (tt, st1) /\
  clc (mach st1) = clc (mach st) /\
  fieldlc (mach st1) = fieldlc (mach st) /\
  enc st1 = enc st /\
  loc (cp (lits st1)) <= loc (cp (lits st)) /\
  loc (pz (lits st1)) <= loc (pz (lits st)).
Proof.
  intros He Herr.
  destruct (getExpr_keeps (R := expr_frame) fuel _ _ _ He) as (Hm & Hen & Hcp & Hpz).
  destruct (nextLexeme_quiet st) as (Qm & Qe & Ql).
  split.
  - unfold onePass_origin, bind, modify, get. rewrite He, Herr. reflexivity.
  - rewrite Hm, Hen, Qm, Qe. rewrite Ql in Hcp, Hpz. repeat split; assumption.
Qed.

Lemma C10_origin_atomic_on_error_witness :
  exists st1,
    onePass_origin 5 origin_error_state = Ok (tt, st1) /\
    clc (mach st1) = clc (mach origin_error_state) /\
    fieldlc (mach st1) = fieldlc (mach origin_error_state) /\
    enc st1 = enc origin_error_state /\
    loc (cp (lits st1)) <= loc (cp (lits origin_error_state)) /\
    loc (pz (lits st1)) <= loc (pz (lits origin_error_state)).
Proof.
  eexists.
  eapply (C10_origin_atomic_on_error 5 origin_error_state).
  - vm_compute. reflexivity.
  - reflexivity.
Defined.

(** Without an error the same statement moves the location counter. *)
Example origin_sets_clc :
  observe (fun st => (clc (mach st), fieldlc (mach st)))
    (after_lines 20 1 2 false false false (unlines ["*0400"; "$"])) = Some (256, 256).
Proof. vm_compute. reflexivity. Qed.

(** ** Division *)

Lemma getExpr_loop_divide (fuel : nat) (st st1 : state) (s : SYM_T) :
  is_blank (delimiter (lexs st)) = false ->
  cur st (lexstart (lexs st)) = "%"%char ->
  eval fuel (nextLexBlank st) = Ok (s, st1) ->
  getExpr_loop (S fuel) st =
  if val s =? 0 then Fault DivideByZero
  else getExpr_loop fuel (upd_getexpr (fun v => w16 (Z.quot v (val s))) st1).
Proof.
  intros Hb Hc He.
  cbn [getExpr_loop]. unfold bind at 1. unfold get at 1. cbv beta iota.
  rewrite Hb, Hc. cbn [chr Ascii.eqb Bool.eqb andb orb].
  unfold bind at 1. unfold modify at 1. cbv beta iota.
  unfold bind at 1. rewrite He. cbv beta iota.
  destruct (val s =? 0); reflexivity.
Qed.

(** C9: at the operator [%] the quotient is taken without a test of the
    divisor.  When the right operand evaluates to 0 the operator loop stops
    with [DivideByZero], whatever the fuel; otherwise it goes on with the
    truncated quotient.  The statement [A=1%0] reaches the division by
    zero. *)
Theorem C9_division_is_unguarded :
  (forall (fuel : nat) (st st1 : state) (s : SYM_T),
     is_blank (delimiter (lexs st)) = false ->
     cur st (lexstart (lexs st)) = "%"%char ->
     eval fuel (nextLexBlank st) = Ok (s, st1) ->
     (val s = 0 -> getExpr_loop (S fuel) st = Fault DivideByZero) /\
     (val s <> 0 ->
      getExpr_loop (S fuel) st =
      getExpr_loop fuel (upd_getexpr (fun v => w16 (Z.quot v (val s))) st1))) /\
  main 50 false false false (unlines ["A=1%0"; "$"]) = Fault DivideByZero.
Proof.
  split; [|vm_compute; reflexivity].
  intros fuel st st1 s Hb Hc He.
  rewrite (getExpr_loop_divide fuel st st1 s Hb Hc He).
  split; intros Hv.
  - rewrite Hv. reflexivity.
  - apply Z.eqb_neq in Hv. rewrite Hv. reflexivity.
Qed.

Lemma C9_division_is_unguarded_witness :
  getExpr_loop 3 (set_delimiter "%" division_state) = Fault DivideByZero.
Proof.
  eapply (proj1 C9_division_is_unguarded 2%nat (set_delimiter "%" division_state)).
  - reflexivity.
  - reflexivity.
  - vm_compute. reflexivity.
  - reflexivity.
Defined.

(** ** What the encoder and the pools leave alone *)

Lemma punchObject_lexs v st : lexs (punchObject v st) = lexs st.
Proof. unfold punchObject. destruct (objectfile (enc st)); reflexivity. Qed.

Lemma punchObject_mach v st : mach (punchObject v st) = mach st.
Proof. apply punchObject_flags. Qed.

Lemma punchObject_lits v st : lits (punchObject v st) = lits st.
Proof. unfold punchObject. destruct (objectfile (enc st)); reflexivity. Qed.

Lemma punchObject_errs v st : errs (punchObject v st) = errs st.
Proof. unfold punchObject. destruct (objectfile (enc st)); reflexivity. Qed.

Lemma punchOrigin_lexs l st : lexs (punchOrigin l st) = lexs st.
Proof. unfold punchOrigin. now rewrite !punchObject_lexs. Qed.

Lemma punchOrigin_mach l st : mach (punchOrigin l st) = mach st.
Proof. unfold punchOrigin. now rewrite !punchObject_mach. Qed.

Lemma punchOrigin_lits l st : lits (punchOrigin l st) = lits st.
Proof. unfold punchOrigin. now rewrite !punchObject_lits. Qed.

Lemma punchOrigin_errs l st : errs (punchOrigin l st) = errs st.
Proof. unfold punchOrigin. now rewrite !punchObject_errs. Qed.

Lemma punchLocObject_lexs l v st : lexs (punchLocObject l v st) = lexs st.
Proof.
  unfold punchLocObject. rewrite !punchObject_lexs.
  destruct (rim_mode (mach st)); [apply punchOrigin_lexs | reflexivity].
Qed.

Lemma punchLocObject_mach l v st : mach (punchLocObject l v st) = mach st.
Proof.
  unfold punchLocObject. rewrite !punchObject_mach.
  destruct (rim_mode (mach st)); [apply punchOrigin_mach | reflexivity].
Qed.

Lemma punchLocObject_lits l v st : lits (punchLocObject l v st) = lits st.
Proof.
  unfold punchLocObject. rewrite !punchObject_lits.
  destruct (rim_mode (mach st)); [apply punchOrigin_lits | reflexivity].
Qed.

Lemma punchLocObject_errs l v st : errs (punchLocObject l v st) = errs st.
Proof.
  unfold punchLocObject. rewrite !punchObject_errs.
  destruct (rim_mode (mach st)); [apply punchOrigin_errs | reflexivity].
Qed.

Lemma punch_pool_words_frame p page n : forall l st,
  lexs (punch_pool_words p page l n st) = lexs st /\
  mach (punch_pool_words p page l n st) = mach st /\
  lits (punch_pool_words p page l n st) = lits st.
Proof.
  induction n as [|n IH]; intros l st; simpl; [repeat split|].
  destruct (IH (l + 1) (punchLocObject (w16 (l + page)) (pool p !!! Z.to_nat l) st))
    as (A & B & C).
  rewrite A, B, C, punchLocObject_lexs, punchLocObject_mach, punchLocObject_lits.
  repeat split.
Qed.

Lemma punchLiteralPool_frame w page st :
  lexs (punchLiteralPool w page st) = lexs st /\
  mach (punchLiteralPool w page st) = mach st.
Proof.
  unfold punchLiteralPool. destruct (_ <? 128); [|split; reflexivity].
  match goal with
  | |- context [punch_pool_words ?p ?g ?l ?n ?s] =>
      destruct (punch_pool_words_frame p g n l s) as (A & B & _)
  end.
  destruct w; cbn [put_pool lexs mach set_pz set_cp with_lits]; rewrite A, B;
    destruct (rim_mode (mach st)); rewrite ?punchOrigin_lexs, ?punchOrigin_mach; split; reflexivity.
Qed.

Lemma testForLiteralCollision_frame l st :
  lexs (snd (testForLiteralCollision l st)) = lexs st /\
  mach (snd (testForLiteralCollision l st)) = mach st /\
  enc (snd (testForLiteralCollision l st)) = enc st.
Proof.
  unfold testForLiteralCollision.
  destruct (errorMessage_quiet pz_literal_overflow (-1) st) as (A & B & _).
  destruct (errorMessage_quiet literal_overflow (-1) st) as (A' & B' & _).
  assert (L : forall m c, lexs (errorMessage m c st) = lexs st).
  { intros m c. unfold errorMessage, log_error. destruct (_ =? 2); reflexivity. }
  destruct (_ =? 0); destruct (_ && _);
    cbn [snd lexs mach enc set_pz set_cp with_lits];
    rewrite ?A, ?B, ?A', ?B', ?L; repeat split.
Qed.

Lemma incrementClc_frame st :
  lexs (incrementClc st) = lexs st /\ enc (incrementClc st) = enc st /\
  clc (mach (incrementClc st)) =
    w16 (Z.land (clc (mach st)) 28672 + Z.land (clc (mach st) + 1) 4095) /\
  rim_mode (mach (incrementClc st)) = rim_mode (mach st).
Proof.
  unfold incrementClc. cbv zeta.
  destruct (testForLiteralCollision_frame (clc (mach st)) st) as (A & B & C).
  simpl. rewrite A, B, C. repeat split.
Qed.

(** ** SEGMNT *)

Lemma pseudoOperators_SEGMNT fuel : pseudoOperators fuel SEGMNT = pseudo_SEGMNT fuel SEGMNT.
Proof. reflexivity. Qed.

(** C4 fails on the code.  With an argument, SEGMNT evaluates the
    expression and drops its value: the location counter is made from the
    code of the directive, [( SEGMNT & 3 ) << 10 = 02000], whatever the
    argument.  [SEGMNT 2] leaves [clc = 02000], where [( 2 & 3 ) << 10] is
    [04000]. *)
Theorem C4_SEGMNT_argument_is_dropped :
  (forall (fuel : nat) (st st' : state) (b : bool),
     isdone (cur st (lexstart (lexs st))) = false ->
     pseudoOperators fuel SEGMNT st = Ok (b, st') ->
     clc (mach st') = 1024 /\ fieldlc (mach st') = 1024) /\
  observe (fun st => clc (mach st))
    (after_lines 20 1 2 false false false (unlines ["SEGMNT 2"; "$"])) = Some 1024 /\
  Z.shiftl (Z.land 2 3) 10 = 2048.
Proof.
  split; [|vm_compute; split; reflexivity].
  intros fuel st st' b Hd H.
  rewrite pseudoOperators_SEGMNT in H. unfold pseudo_SEGMNT in H.
  unfold bind at 1 in H. unfold modify at 1 in H. cbv beta iota in H.
  unfold bind at 1 in H. unfold get at 1 in H. cbv beta iota in H.
  destruct (punchLiteralPool_frame CP (w16 (clc (mach st) - 1)) st) as (Lx & _).
  unfold cur in H at 1. rewrite Lx in H. fold (cur st (lexstart (lexs st))) in H.
  rewrite Hd in H.
  unfold bind at 1 in H. unfold bind at 1 in H.
  destruct (getExpr fuel _) as [[e s1]|f]; [|discriminate].
  unfold ret at 1 in H. cbv beta iota in H.
  unfold bind, modify, ret in H. cbv beta iota in H.
  inversion H; subst; clear H.
  match goal with
  | |- context [testForLiteralCollision ?l ?s] =>
      destruct (testForLiteralCollision_frame l s) as (_ & M & _); rewrite M
  end.
  destruct (rim_mode _); rewrite ?punchOrigin_mach; split; reflexivity.
Qed.

Lemma C4_SEGMNT_argument_is_dropped_witness :
  match pseudoOperators 5 SEGMNT segmnt_state with
  | Ok (_, st') => clc (mach st') = 1024 /\ fieldlc (mach st') = 1024
  | Fault _ => False
  end.
Proof.
  destruct (pseudoOperators 5 SEGMNT segmnt_state) as [[b st']|f] eqn:E.
  - apply (proj1 C4_SEGMNT_argument_is_dropped 5%nat segmnt_state st' b);
      [vm_compute; reflexivity | exact E].
  - vm_compute in E. discriminate.
Defined.

(** ** Conditional assembly *)

(** C1 fails on the code.  [M_COND] tests DEFINED, not CONDITION, so for
    one and the same symbol type the predicate of pass 2 is the negation of
    the predicate of pass 1.  For a symbol that is never defined, [IFDEF UND
    <CLA>] skips the block in pass 1 (the pass ends with [clc] still 0200)
    and assembles it in pass 2 (the tape holds the word 7200 and its
    checksum). *)
Theorem C1_IFDEF_differs_between_passes :
  (forall t, M_DEFINED_CONDITIONALLY 1 t = M_DEFINED t /\
             M_DEFINED_CONDITIONALLY 2 t = negb (M_DEFINED t)) /\
  observe (fun st => clc (mach st)) (after_pass_one 30 false false false ifdef_source)
    = Some 128 /\
  observe (fun st => clc (mach st)) (main 30 false false false ifdef_source) = Some 129 /\
  tape (main 30 false false false ifdef_source) = Some [58; 0; 0; 58].
Proof.
  split.
  - intros t. unfold M_DEFINED_CONDITIONALLY, M_DEF, M_COND.
    change (1 =? 1) with true. change (1 =? 2) with false.
    change (2 =? 1) with false. change (2 =? 2) with true.
    destruct (M_DEFINED t); split; reflexivity.
  - repeat split; vm_compute; reflexivity.
Qed.

(** ** TEXT *)

Lemma pseudoOperators_TEXT fuel st :
  lexstart (lexs st) < strlen (line (lexs st)) ->
  pseudoOperators fuel TEXT st = Ok (true, pseudo_TEXT st).
Proof.
  intros H.
  change (pseudoOperators fuel TEXT) with
    (do s <- get;
     if strlen (line (lexs s)) <=? lexstart (lexs s) then raise NotEmbedded
     else (run pseudo_TEXT; ret true)).
  unfold bind, get. cbv beta iota.
  replace (strlen (line (lexs st)) <=? lexstart (lexs st)) with false
    by (symmetry; apply Z.leb_gt; exact H).
  reflexivity.
Qed.

Lemma word_in_bin v st :
  rim_mode (mach st) = false -> objectfile (enc st) = true ->
  lexs (emit_word v st) = lexs st /\
  rim_mode (mach (emit_word v st)) = false /\ objectfile (enc (emit_word v st)) = true /\
  object_out (enc (emit_word v st)) = object_out (enc st) ++ data_frames v /\
  clc (mach (emit_word v st)) = next_clc (clc (mach st)).
Proof.
  intros Hr Ho. unfold emit_word, punchOutObject.
  destruct (do_punch_bin st (Word (clc (mach st)) v) Hr Ho) as (A1 & A2 & _ & A4 & _).
  cbn [do_punch frames_of] in A1, A2, A4.
  destruct (incrementClc_frame (punchLocObject (clc (mach st)) v st)) as (B1 & B2 & B3 & B4).
  rewrite B1, B2, B3, B4, punchLocObject_lexs, punchLocObject_mach.
  repeat split; assumption.
Qed.

(** The three ways one turn of the packing loop of TEXT can go. *)
Lemma text_loop_stop n delim index pack count st :
  negb (chr (cur st index) delim) && negb (isend (cur st index)) = false ->
  text_loop (S n) delim index pack count st = (index, pack, count, st).
Proof. intros H. cbn [text_loop]. cbv zeta. rewrite H. reflexivity. Qed.

Lemma text_loop_first n delim index pack st :
  negb (chr (cur st index) delim) && negb (isend (cur st index)) = true ->
  text_loop (S n) delim index pack 0 st =
  text_loop n delim (index + 1)
    (Z.lor (Z.shiftl pack 6) (Z.land (code (cur st index)) 63)) 1 st.
Proof. intros H. cbn [text_loop]. cbv zeta. rewrite H. reflexivity. Qed.

Lemma text_loop_second n delim index pack st :
  negb (chr (cur st index) delim) && negb (isend (cur st index)) = true ->
  text_loop (S n) delim index pack 1 st =
  text_loop n delim (index + 1) 0 0
    (incrementClc (punchOutObject (clc (mach st))
       (Z.lor (Z.shiftl pack 6) (Z.land (code (cur st index)) 63)) st)).
Proof. intros H. cbn [text_loop]. cbv zeta. rewrite H. reflexivity. Qed.

Section TextAB.

Variable st : state.
Hypothesis Hl : line (lexs st) = ("TEXT /AB/" ++ String NL EmptyString)%string.
Hypothesis Hs : lexstart (lexs st) = 5.
Hypothesis Hr : rim_mode (mach st) = false.
Hypothesis Ho : objectfile (enc st) = true.

Lemma text_AB_char (s : state) (i : Z) (c : ascii) :
  lexs s = lexs st ->
  str_at ("TEXT /AB/" ++ String NL EmptyString) i = c -> cur s i = c.
Proof. intros E <-. unfold cur. now rewrite E, Hl. Qed.

Lemma text_AB_loop : text_loop 10 "/" 6 0 0 st = (8, 0, 0, emit_word 66 st).
Proof.
  destruct (word_in_bin 66 st Hr Ho) as (A1 & _).
  rewrite text_loop_first by (rewrite (text_AB_char st 6 "A"%char eq_refl eq_refl); reflexivity).
  rewrite (text_AB_char st 6 "A"%char eq_refl eq_refl). change (6 + 1) with 7.
  rewrite text_loop_second
    by (rewrite (text_AB_char st 7 "B"%char eq_refl eq_refl); reflexivity).
  rewrite (text_AB_char st 7 "B"%char eq_refl eq_refl). change (7 + 1) with 8.
  change (Z.lor (Z.shiftl (Z.lor (Z.shiftl 0 6) (Z.land (code "A") 63)) 6)
                (Z.land (code "B") 63)) with 66.
  fold (emit_word 66 st).
  apply text_loop_stop. rewrite (text_AB_char _ 8 "/"%char A1 eq_refl). reflexivity.
Qed.

Lemma text_AB_result :
  pseudo_TEXT st = nextLexeme (set_lexterm 9 (set_cc 9 (emit_word 0 (emit_word 66 st)))).
Proof.
  destruct (word_in_bin 66 st Hr Ho) as (A1 & A2 & A3 & _).
  destruct (word_in_bin 0 (emit_word 66 st) A2 A3) as (B1 & _).
  cbv delta [pseudo_TEXT]; cbv beta.
  rewrite (text_AB_char st (lexstart (lexs st)) "/"%char eq_refl)
    by (rewrite Hs; reflexivity).
  rewrite Hl, Hs. change (String.length _) with 10%nat. change (5 + 1) with 6.
  cbv zeta. rewrite text_AB_loop. cbv iota beta.
  change (negb (0 =? 0)) with false. cbv iota.
  fold (emit_word 0 (emit_word 66 st)).
  rewrite (text_AB_char (emit_word 0 (emit_word 66 st)) 8 "/"%char)
    by (rewrite ?B1; auto).
  reflexivity.
Qed.

End TextAB.

(** [TEXT /AB/] packs A and B into the word 0102 and, the string having an
    even number of characters, adds a word of zeros; two words are punched
    and the location counter moves by two. *)
Lemma text_AB_two_words (fuel : nat) (st : state) :
  line (lexs st) = ("TEXT /AB/" ++ String NL EmptyString)%string ->
  lexstart (lexs st) = 5 ->
  rim_mode (mach st) = false -> objectfile (enc st) = true ->
  exists st',
    pseudoOperators fuel TEXT st = Ok (true, st') /\
    object_out (enc st') = object_out (enc st) ++ [1; 2] ++ [0; 0] /\
    clc (mach st') = next_clc (next_clc (clc (mach st))).
Proof.
  intros Hl Hs Hr Ho.
  exists (pseudo_TEXT st).
  split; [apply pseudoOperators_TEXT; rewrite Hl, Hs; reflexivity|].
  rewrite (text_AB_result st Hl Hs Hr Ho).
  destruct (word_in_bin 66 st Hr Ho) as (A1 & A2 & A3 & A4 & A5).
  destruct (word_in_bin 0 (emit_word 66 st) A2 A3) as (B1 & B2 & B3 & B4 & B5).
  match goal with
  | |- context [nextLexeme (set_lexterm 9 (set_cc 9 ?s))] =>
      destruct (nextLexeme_quiet (set_lexterm 9 (set_cc 9 s))) as (Q1 & Q2 & _);
      destruct (set_lexterm_quiet 9 (set_cc 9 s)) as (R1 & R2 & _);
      destruct (set_cc_quiet 9 s) as (S1 & S2 & _)
  end.
  rewrite Q1, Q2, R1, R2, S1, S2, B4, B5, A4, A5, <- app_assoc. split; reflexivity.
Qed.

(** C6 as stated fails: the assembly of [TEXT /AB/] puts two words on the
    tape, 0102 and 0000, before the checksum 0003, and leaves the location
    counter at 0202. *)
Lemma C6_TEXT_AB_not_one_word :
  tape (main 30 false false false (unlines ["TEXT /AB/"; "$"])) = Some [1; 2; 0; 0; 0; 3] /\
  observe (fun st => clc (mach st))
    (after_lines 30 1 2 false false false (unlines ["TEXT /AB/"; "$"])) = Some 130.
Proof. split; vm_compute; reflexivity. Qed.

(** ** Literal pools *)

(** Where the downward search of [insertLiteral] stops. *)
Lemma search_pool_spec p v n :
  let ix := search_pool p v n in
  -1 <= ix < Z.of_nat n /\
  (forall k : nat, ix < Z.of_nat k < Z.of_nat n -> loc p <= Z.of_nat k /\ pool p !!! k <> v) /\
  (0 <= ix -> ix < loc p \/ pool p !!! Z.to_nat ix = v).
Proof.
  induction n as [|n (IH1 & IH2 & IH3)]; cbn [search_pool]; cbv zeta.
  - repeat split; intros; lia.
  - destruct ((loc p <=? Z.of_nat n) && negb (pool p !!! n =? v)) eqn:E.
    + apply andb_true_iff in E as (E1 & E2).
      apply Z.leb_le in E1. apply negb_true_iff, Z.eqb_neq in E2.
      split; [lia|]. split; [|exact IH3].
      intros k Hk. destruct (decide (k = n)) as [->|Hne]; [split; assumption|].
      apply IH2. lia.
    + split; [lia|]. split; [intros k Hk; lia|].
      intros _. rewrite Nat2Z.id.
      apply andb_false_iff in E as [E|E].
      * left. apply Z.leb_gt in E. exact E.
      * right. apply negb_false_iff, Z.eqb_eq in E. exact E.
Qed.

Lemma get_put_pool w p st : get_pool w (put_pool w p st) = p.
Proof. destruct w; reflexivity. Qed.

Lemma get_put_other w p st : get_pool (other_pool w) (put_pool w p st) = get_pool (other_pool w) st.
Proof. destruct w; reflexivity. Qed.

(** [insertLiteral] on a pool with room: the value is found among
    [pool[loc .. 127]] and nothing changes, or it is stored at [loc - 1]. *)
Lemma insertLiteral_spec w v st :
  let w' := target_pool w st in
  let p := get_pool w' st in
  length (pool p) = 128%nat -> 0 < loc p <= 128 ->
  exists ix st',
    insertLiteral w v st = Ok (ix, st') /\
    let p' := get_pool w' st' in
    loc p' <= ix < 128 /\ pool p' !!! Z.to_nat ix = v /\
    get_pool (other_pool w') st' = get_pool (other_pool w') st /\
    ((exists k : nat, loc p <= Z.of_nat k < 128 /\ pool p !!! k = v) -> st' = st) /\
    ((forall k : nat, loc p <= Z.of_nat k < 128 -> pool p !!! k <> v) ->
     ix = loc p - 1 /\ loc p' = loc p - 1 /\
     forall k : nat, loc p <= Z.of_nat k < 128 -> pool p' !!! k = pool p !!! k).
Proof.
  intros w' p Hlen Hloc. unfold insertLiteral. fold (target_pool w st). fold w'. fold p.
  destruct (search_pool_spec p v (Z.to_nat PAGE_SIZE)) as (S1 & S2 & S3).
  set (ix := search_pool p v (Z.to_nat PAGE_SIZE)) in *.
  change (Z.of_nat (Z.to_nat PAGE_SIZE)) with 128 in *.
  replace ((ix <? 0) && (loc p <=? ix)) with false
    by (symmetry; apply andb_false_iff; destruct (Z.ltb_spec ix 0);
        [right; apply Z.leb_gt; lia | left; reflexivity]).
  destruct (Z.ltb_spec ix (loc p)) as [Hlt|Hge].
  - rewrite (w16_small (loc p - 1)) by lia.
    replace ((0 <=? loc p - 1) && (loc p - 1 <? PAGE_SIZE)) with true
      by (symmetry; apply andb_true_iff; split;
          [apply Z.leb_le; lia | apply Z.ltb_lt; unfold PAGE_SIZE; lia]).
    eexists _, _. split; [reflexivity|].
    cbv zeta. rewrite get_put_pool, get_put_other. cbn [loc pool pool_pool pool_loc].
    assert (Hfresh : forall k : nat, loc p <= Z.of_nat k < 128 -> pool p !!! k <> v).
    { intros k Hk. apply S2. lia. }
    split; [lia|]. split.
    { apply list_lookup_total_insert_eq. lia. }
    split; [reflexivity|]. split.
    { intros (k & Hk & Hv). exfalso. exact (Hfresh k Hk Hv). }
    intros _. split; [reflexivity|]. split; [reflexivity|].
    intros k Hk. apply list_lookup_total_insert_ne. lia.
  - exists ix, st. split; [reflexivity|]. cbv zeta. fold p.
    assert (Hfound : pool p !!! Z.to_nat ix = v) by (destruct S3; lia).
    split; [lia|]. split; [exact Hfound|]. split; [reflexivity|]. split; [reflexivity|].
    intros Hfresh. exfalso. apply (Hfresh (Z.to_nat ix)); [lia | exact Hfound].
Qed.

(** A full pool that does not hold the value: the source decrements [loc]
    to -1 and stores to [pool[-1]]. *)
Lemma insertLiteral_full_pool w v st :
  let p := get_pool (target_pool w st) st in
  loc p = 0 -> (forall k : nat, (k < 128)%nat -> pool p !!! k <> v) ->
  insertLiteral w v st = Fault PoolOverrun.
Proof.
  intros p Hloc Hfresh. unfold insertLiteral. fold (target_pool w st). fold p.
  destruct (search_pool_spec p v (Z.to_nat PAGE_SIZE)) as (S1 & S2 & S3).
  set (ix := search_pool p v (Z.to_nat PAGE_SIZE)) in *.
  change (Z.of_nat (Z.to_nat PAGE_SIZE)) with 128 in *.
  assert (ix = -1).
  { destruct (Z.ltb_spec ix 0); [lia|]. exfalso.
    destruct S3 as [S3|S3]; [lia | lia |].
    apply (Hfresh (Z.to_nat ix)); [lia | exact S3]. }
  rewrite H, Hloc. reflexivity.
Qed.

(** [punchLiteralPool] leaves the pool empty or as it was. *)
Lemma punchLiteralPool_loc w page st :
  let p' := get_pool w (punchLiteralPool w page st) in
  (loc p' = 128 \/ loc p' = loc (get_pool w st)) /\ 128 <= loc p' /\
  get_pool (other_pool w) (punchLiteralPool w page st) = get_pool (other_pool w) st.
Proof.
  cbv zeta. unfold punchLiteralPool.
  destruct (Z.ltb_spec (loc (get_pool w st)) 128) as [H|H].
  - rewrite get_put_pool, get_put_other. cbn [loc pool_loc pool_error].
    split; [left; reflexivity|]. split; [lia|].
    match goal with
    | |- context [punch_pool_words ?p ?g ?l ?n ?s] =>
        destruct (punch_pool_words_frame p g n l s) as (_ & _ & C);
        set (X := punch_pool_words p g l n s) in *;
        assert (L : lits X = lits st)
          by (rewrite C; destruct (rim_mode (mach st)); rewrite ?punchOrigin_lits; reflexivity)
    end.
    clearbody X. destruct w; unfold other_pool, get_pool; rewrite L; reflexivity.
  - split; [right; reflexivity|]. split; [lia | reflexivity].
Qed.

(** C8 fails on the code.  [insertLiteral] has no test for a full pool
    ([insertLiteral_full_pool]).  With [-l], the 128th different literal of
    page zero leaves [loc = 0]; at the 129th the source decrements [loc] to
    -1 and stores below [pool[0]]: the assembly stops in pass one. *)
Theorem C8_pool_overrun :
  observe (fun st => loc (pz (lits st)))
    (after_lines 20 129 1 true false false (many_literals 129)) = Some 0 /\
  after_lines 20 130 1 true false false (many_literals 129) = Fault PoolOverrun /\
  main 200 true false false (many_literals 129) = Fault PoolOverrun.
Proof. repeat split; vm_compute; reflexivity. Qed.

(** ** Off page references *)

(** One turn of the OR loop of [getExprs] on an operand that is an address
    off the page, with literals on and the indirect bit clear. *)
Lemma getExprs_loop_off_page (k : nat) (st st1 st2 : state) (value value_type ix : Z)
      (symt : SYM_T) :
  isdone (cur st (lexstart (lexs st))) || chr (cur st (lexstart (lexs st))) ")"
    || chr (cur st (lexstart (lexs st))) "]" = false ->
  (value_type =? MRI) || (value_type =? MRIFIX) = true ->
  getExpr k st = Ok (symt, st1) ->
  (type symt =? MRI) || (type symt =? MRIFIX) = false ->
  (Z.land (val symt) 4095 <? 128) = false ->
  (Z.land (fieldlc (mach st1) + reloc (mach st1)) 3968 <=? Z.land (val symt) 4095)
    && (Z.land (val symt) 4095 <=? Z.lor (fieldlc (mach st1) + reloc (mach st1)) 127) = false ->
  (Z.land value INDIRECT_BIT =? INDIRECT_BIT) = false ->
  literals_on (mach st1) = true ->
  insertLiteral CP (Z.land (val symt) 4095) st1 = Ok (ix, st2) ->
  getExprs_loop (S k) value value_type st =
  getExprs_loop k (Z.lor value (Z.lor 384 ix)) value_type (set_indirect_generated true st2).
Proof.
  intros Hc Hv He Ht Hz Hp Hi Hl Hins.
  cbn [getExprs_loop]. unfold bind at 1. unfold get at 1. cbv beta iota zeta.
  rewrite Hc. unfold bind at 1. rewrite He. cbv beta iota.
  rewrite Hv, Ht. unfold bind at 1. unfold get at 1. cbv beta iota.
  rewrite Hz, Hp, Hi, Hl.
  unfold bind at 1. rewrite Hins. cbv beta iota.
  unfold bind at 1. unfold modify at 1. cbv beta iota. reflexivity.
Qed.

(** C3, as the code has it: an MRI followed by an off page address [a],
    with literals on, the indirect bit clear and room in the pool.  The
    literal goes to the pool of the page the location counter is on: the
    current page pool [cp], or the page zero pool [pz] when [clc] is on page
    zero.  It is found in [pool[loc .. 127]] and the pools stay as they are,
    or it is stored once at [loc - 1]; its index [ix] is ORed into the value
    with 0600, and [indirect_generated] is set. *)
Theorem C3_off_page_literal (k : nat) (st st1 : state) (value value_type : Z) (symt : SYM_T) :
  let a := Z.land (val symt) 4095 in
  let here := fieldlc (mach st1) + reloc (mach st1) in
  let w := target_pool CP st1 in
  let p := get_pool w st1 in
  isdone (cur st (lexstart (lexs st))) || chr (cur st (lexstart (lexs st))) ")"
    || chr (cur st (lexstart (lexs st))) "]" = false ->
  value_type = MRI \/ value_type = MRIFIX ->
  getExpr k st = Ok (symt, st1) ->
  type symt <> MRI -> type symt <> MRIFIX ->
  128 <= a -> ~ (Z.land here 3968 <= a <= Z.lor here 127) ->
  Z.land value INDIRECT_BIT <> INDIRECT_BIT ->
  literals_on (mach st1) = true ->
  length (pool p) = 128%nat -> 0 < loc p <= 128 ->
  exists ix st2,
    insertLiteral CP a st1 = Ok (ix, st2) /\
    getExprs_loop (S k) value value_type st =
    getExprs_loop k (Z.lor value (Z.lor 384 ix)) value_type
                  (set_indirect_generated true st2) /\
    indirect_generated (lexs (set_indirect_generated true st2)) = true /\
    let p' := get_pool w st2 in
    loc p' <= ix < 128 /\ pool p' !!! Z.to_nat ix = a /\
    get_pool (other_pool w) st2 = get_pool (other_pool w) st1 /\
    ((exists j : nat, loc p <= Z.of_nat j < 128 /\ pool p !!! j = a) -> st2 = st1) /\
    ((forall j : nat, loc p <= Z.of_nat j < 128 -> pool p !!! j <> a) ->
     ix = loc p - 1 /\ loc p' = loc p - 1 /\
     forall j : nat, loc p <= Z.of_nat j < 128 -> pool p' !!! j = pool p !!! j).
Proof.
  intros a here w p Hc Hv He Ht1 Ht2 Ha Hp Hi Hl Hlen Hloc.
  destruct (insertLiteral_spec CP a st1 Hlen Hloc) as (ix & st2 & Hins & Hspec).
  exists ix, st2. split; [exact Hins|]. split; [|split; [reflexivity | exact Hspec]].
  apply (getExprs_loop_off_page k st st1 st2 value value_type ix symt); try assumption.
  - destruct Hv as [-> | ->]; reflexivity.
  - apply orb_false_iff. split; apply Z.eqb_neq; assumption.
  - apply Z.ltb_ge. exact Ha.
  - apply andb_false_iff. fold here a.
    destruct (Z.le_gt_cases (Z.land here 3968) a).
    + right. apply Z.leb_gt. lia.
    + left. apply Z.leb_gt. lia.
  - apply Z.eqb_neq. exact Hi.
Qed.

Lemma C3_off_page_literal_witness :
  exists symt st1 ix st2,
    getExpr 3 off_page_state = Ok (symt, st1) /\
    insertLiteral CP (Z.land (val symt) 4095) st1 = Ok (ix, st2) /\
    getExprs_loop 4 512 MRIFIX off_page_state =
    getExprs_loop 3 (Z.lor 512 (Z.lor 384 ix)) MRIFIX (set_indirect_generated true st2).
Proof.
  destruct (getExpr 3 off_page_state) as [[symt st1]|f] eqn:He;
    [|vm_compute in He; discriminate].
  pose proof He as He'. vm_compute in He'. injection He' as <- <-.
  eexists _, _.
  destruct (C3_off_page_literal 3 off_page_state _ 512 MRIFIX _
              ltac:(vm_compute; reflexivity) (or_intror eq_refl) He
              ltac:(vm_compute; discriminate) ltac:(vm_compute; discriminate)
              ltac:(vm_compute; discriminate)
              ltac:(vm_compute; intros [H1 H2]; apply H2; reflexivity)
              ltac:(vm_compute; discriminate) ltac:(vm_compute; reflexivity)
              ltac:(vm_compute; reflexivity)
              ltac:(vm_compute; split; [reflexivity | discriminate]))
    as (ix & st2 & H1 & H2 & _).
  exists ix, st2. split; [reflexivity|]. split; assumption.
Defined.

(** C3 as stated fails when the location counter is on page zero: after
    [*0], the off page operand of [TAD 400] is stored in the page zero pool
    [pz] and the current page pool [cp] stays empty; the literal is punched
    at 0177, the top of page zero. *)
Lemma C3_literal_on_page_zero_goes_to_pz :
  observe (fun st => (loc (cp (lits st)), loc (pz (lits st)), pool (pz (lits st)) !!! 127%nat))
    (after_lines 20 2 1 true false false (unlines ["*0"; "TAD 400"; "$"]))
  = Some (128, 127, 256) /\
  tape (main 20 true false false (unlines ["*0"; "TAD 400"; "$"]))
  = Some [64; 0; 15; 63; 65; 63; 4; 0; 4; 18].
Proof. split; vm_compute; reflexivity. Qed.

(** The same statement on page 0200 uses [cp]. *)
Example off_page_literal_in_cp :
  observe (fun st => (loc (cp (lits st)), loc (pz (lits st)), pool (cp (lits st)) !!! 127%nat))
    (after_lines 20 2 1 true false false (unlines ["*200"; "TAD 400"; "$"]))
  = Some (127, 128, 256) /\
  tape (main 20 true false false (unlines ["*200"; "TAD 400"; "$"]))
  = Some [66; 0; 15; 63; 67; 63; 4; 0; 4; 22].
Proof. split; vm_compute; reflexivity. Qed.

(** ** Redefinition *)

Lemma land_lor_absorb a b : Z.land (Z.lor a b) b = b.
Proof.
  apply Z.bits_inj'. intros n Hn.
  rewrite Z.land_spec, Z.lor_spec.
  destruct (Z.testbit a n), (Z.testbit b n); reflexivity.
Qed.

Lemma lookup_errs nm st ix st' :
  lookup nm st = Ok (ix, st') -> errs st' = errs st /\ lexs st' = lexs st.
Proof.
  unfold lookup. intros H.
  repeat match type of H with
         | (if ?b then _ else _) = _ => destruct b
         end; inversion H; subst; split; reflexivity.
Qed.

(** C5, as the code has it: in pass 2, a definition of a symbol that is
    DEFINED, not FIXED, with a value other than the stored one marks the
    symbol REDEFINED, and reports [redefined_symbol] exactly when the symbol
    was marked REDEFINED already.  The first such definition is silent; the
    next one is reported. *)
Theorem C5_redefinition_report (st st1 : state) (nm : string) (v ty start ix : Z) :
  pass (mach st) = 2 -> 1 <= strlen nm ->
  lookup nm st = Ok (ix, st1) -> 0 <= ix < symbol_top st1 ->
  M_FIXED (type (sym_at st1 ix)) = false ->
  M_DEFINED (type (sym_at st1 ix)) = true ->
  val (sym_at st1 ix) <> v ->
  exists st2,
    defineSymbol nm v ty start st = Ok (Some ix, st2) /\
    M_REDEFINED (type (sym_at st2 ix)) = true /\
    errorfile (errs st2) =
      errorfile (errs st) ++
      (if M_REDEFINED (type (sym_at st1 ix))
       then [mkErr redefined_symbol (Some (name (sym_at st1 ix)))
                   (lineno (lexs st)) start (clc (mach st))]
       else []).
Proof.
  intros Hp Hn Hl Hix Hf Hd Hv.
  destruct (lookup_quiet _ _ _ _ Hl) as (Qm & _ & _).
  destruct (lookup_errs _ _ _ _ Hl) as (Qe & Qx).
  unfold defineSymbol.
  replace (strlen nm <? 1) with false by (symmetry; apply Z.ltb_ge; lia).
  unfold bind at 1. rewrite Hl. cbv beta iota.
  unfold bind at 1. unfold get at 1. cbv beta iota.
  rewrite Hf, Hd, Qm, Hp. change (2 =? 2) with true. change (2 =? 1) with false.
  replace (val (sym_at st1 ix) =? v) with false by (symmetry; apply Z.eqb_neq; exact Hv).
  cbn [andb negb].
  unfold bind, modify, ret. cbv beta iota.
  eexists. split; [reflexivity|].
  split.
  - unfold sym_at at 1, set_sym. cbn [syms symtab set_symtab with_syms].
    rewrite list_lookup_total_insert_eq.
    + cbn [type]. unfold M_REDEFINED, has. rewrite land_lor_absorb. reflexivity.
    + destruct (M_REDEFINED _); [unfold errorSymbol, log_error; rewrite Qm, Hp|];
        cbn; unfold symbol_top in Hix; lia.
  - unfold set_sym. cbn [errs set_symtab with_syms].
    destruct (M_REDEFINED _).
    + unfold errorSymbol, log_error. rewrite Qm, Hp. cbn. rewrite Qe, Qx. reflexivity.
    + rewrite Qe, app_nil_r. reflexivity.
Qed.

Lemma C5_redefinition_report_witness :
  exists ix st2,
    defineSymbol "A" 1 DEFINED 0 redefinition_state = Ok (Some ix, st2) /\
    M_REDEFINED (type (sym_at st2 ix)) = true /\
    errorfile (errs st2) = errorfile (errs redefinition_state) ++ [].
Proof.
  destruct (lookup "A" redefinition_state) as [[ix st1]|f] eqn:Hl;
    [|vm_compute in Hl; discriminate].
  pose proof Hl as Hl'. vm_compute in Hl'. injection Hl' as <- <-.
  eexists.
  apply (C5_redefinition_report redefinition_state _ "A" 1 DEFINED 0 _
           ltac:(vm_compute; reflexivity) ltac:(vm_compute; discriminate) Hl
           ltac:(vm_compute; split; [discriminate | reflexivity])
           ltac:(vm_compute; reflexivity) ltac:(vm_compute; reflexivity)
           ltac:(vm_compute; discriminate)).
Defined.

(** C5 as stated fails: [A] is defined twice with different values.  Pass 1
    leaves [A = 2], DEFINED with CONDITION.  In pass 2 the definition on
    line 1 meets a stored value other than its own and is the first
    redefinition; it is not reported.  The one on line 2 is reported. *)
Lemma C5_first_redefinition_is_silent :
  observe (symbol_entry "A")
    (after_pass_one 30 false false false (unlines ["A=1"; "A=2"; "$"])) = Some (Some (2, 129)) /\
  observe (fun st => map (fun e => (e_mesg e, e_name e, e_lineno e)) (errorfile (errs st)))
    (main 30 false false false (unlines ["A=1"; "A=2"; "$"]))
  = Some [(redefined_symbol, Some "A"%string, 2)].
Proof. split; vm_compute; reflexivity. Qed.

(** ** The pool bounds along a run

    Where [insertLiteral] returns, the [loc] of both pools stays within
    [0 .. 128]; every other step of the assembler leaves a [loc] alone or
    sets it to 128.  So a run keeps the bounds up to the store below
    [pool[0]], where the embedding stops with [PoolOverrun]. *)

Lemma resets_refl st : resets st st.
Proof. split; left; reflexivity. Qed.

Lemma resets_trans a b c : resets a b -> resets b c -> resets a c.
Proof.
  unfold resets. intros (H1 & H2) (H3 & H4).
  split; [destruct H1, H3 | destruct H2, H4]; first [left; congruence | right; congruence].
Qed.

Lemma lits_resets a b : lits b = lits a -> resets a b.
Proof. unfold resets. intros ->. split; left; reflexivity. Qed.

Lemma quiet_resets a b : quiet a b -> resets a b.
Proof. intros (_ & _ & H). apply lits_resets, H. Qed.

Lemma resets_kept a b : resets a b -> bounds_kept a b.
Proof. unfold resets, bounds_kept, pool_bounds. lia. Qed.

Create HintDb resets.

Lemma set_clc_resets v st : resets st (set_clc v st).
Proof. apply lits_resets. reflexivity. Qed.
Lemma set_field_resets v st : resets st (set_field v st).
Proof. apply lits_resets. reflexivity. Qed.
Lemma set_fieldlc_resets v st : resets st (set_fieldlc v st).
Proof. apply lits_resets. reflexivity. Qed.
Lemma set_reloc_resets v st : resets st (set_reloc v st).
Proof. apply lits_resets. reflexivity. Qed.
Lemma set_radix_resets v st : resets st (set_radix v st).
Proof. apply lits_resets. reflexivity. Qed.
Lemma set_pass_resets v st : resets st (set_pass v st).
Proof. apply lits_resets. reflexivity. Qed.
Lemma set_literals_on_resets v st : resets st (set_literals_on v st).
Proof. apply lits_resets. reflexivity. Qed.
Lemma set_rim_mode_resets v st : resets st (set_rim_mode v st).
Proof. apply lits_resets. reflexivity. Qed.
Lemma set_checksum_resets v st : resets st (set_checksum v st).
Proof. apply lits_resets. reflexivity. Qed.
Lemma set_binary_data_output_resets v st : resets st (set_binary_data_output v st).
Proof. apply lits_resets. reflexivity. Qed.
Lemma set_objectfile_resets v st : resets st (set_objectfile v st).
Proof. apply lits_resets. reflexivity. Qed.
Lemma set_objectsave_resets v st : resets st (set_objectsave v st).
Proof. apply lits_resets. reflexivity. Qed.
Lemma set_object_out_resets v st : resets st (set_object_out v st).
Proof. apply lits_resets. reflexivity. Qed.

(** Writing a pool whose [loc] is the old one or 128. *)
Lemma set_pz_resets p st :
  loc p = loc (pz (lits st)) \/ loc p = 128 -> resets st (set_pz p st).
Proof. intros H. split; [exact H | left; reflexivity]. Qed.

Lemma set_cp_resets p st :
  loc p = loc (cp (lits st)) \/ loc p = 128 -> resets st (set_cp p st).
Proof. intros H. split; [left; reflexivity | exact H]. Qed.

#[global] Hint Resolve
  resets_refl set_clc_resets set_field_resets set_fieldlc_resets set_reloc_resets
  set_radix_resets set_pass_resets set_literals_on_resets set_rim_mode_resets
  set_checksum_resets set_binary_data_output_resets set_objectfile_resets
  set_objectsave_resets set_object_out_resets : resets.

Ltac resets_leaf :=
  solve [ auto with resets
        | apply quiet_resets; auto with quiet
        | first [apply set_pz_resets | apply set_cp_resets];
          first [left; reflexivity | right; reflexivity] ].

(** One step of a proof of [resets]: peel the outermost update or call, or
    split on a test. *)
Ltac resets_step :=
  lazymatch goal with
  | |- resets ?a ?a => apply resets_refl
  | |- resets _ (if ?b then _ else _) => destruct b
  | |- resets ?a (let x := ?v in @?b x) =>
      first [ apply (resets_trans a v (b v));
              [ | let s := fresh "s" in generalize v; intro s; cbv beta ]
            | change (resets a (b v)); cbv beta ]
  | |- resets ?a (?f ?s) =>
      apply (resets_trans a s (f s));
      [ | let s' := fresh "s" in generalize s; intro s'; resets_leaf ]
  end.
Ltac resets_auto := cbv beta; repeat resets_step.

Lemma fputc_resets v st : resets st (fputc v st).
Proof. unfold fputc. resets_auto. Qed.
#[global] Hint Resolve fputc_resets : resets.

Lemma punchObject_resets v st : resets st (punchObject v st).
Proof. apply lits_resets, punchObject_lits. Qed.

Lemma punchOrigin_resets l st : resets st (punchOrigin l st).
Proof. apply lits_resets, punchOrigin_lits. Qed.

Lemma punchLocObject_resets l v st : resets st (punchLocObject l v st).
Proof. apply lits_resets, punchLocObject_lits. Qed.

Lemma punchOutObject_resets l v st : resets st (punchOutObject l v st).
Proof. apply punchLocObject_resets. Qed.
#[global] Hint Resolve
  punchObject_resets punchOrigin_resets punchLocObject_resets punchOutObject_resets : resets.

Lemma punchChecksum_resets st : resets st (punchChecksum st).
Proof. cbv delta [punchChecksum]; cbv beta. resets_auto. Qed.

Lemma punchLeader_resets n st : resets st (punchLeader n st).
Proof. cbv delta [punchLeader]; cbv beta zeta. resets_auto. Qed.

Lemma punchField_resets n st : resets st (punchField n st).
Proof. cbv delta [punchField]; cbv beta zeta. resets_auto. Qed.
#[global] Hint Resolve punchChecksum_resets punchLeader_resets punchField_resets : resets.

Lemma punchLiteralPool_resets w page st : resets st (punchLiteralPool w page st).
Proof.
  destruct (punchLiteralPool_loc w page st) as (H1 & _ & H2).
  destruct w; unfold other_pool, get_pool in *; unfold resets; rewrite H2;
    split; first [left; reflexivity | destruct H1; [right|left]; assumption].
Qed.
#[global] Hint Resolve punchLiteralPool_resets : resets.

Lemma testForLiteralCollision_resets l st :
  resets st (snd (testForLiteralCollision l st)).
Proof.
  unfold testForLiteralCollision. cbv zeta.
  destruct (_ =? 0); destruct (_ && _); cbn [snd]; try apply resets_refl.
  - eapply resets_trans; [apply quiet_resets, errorMessage_quiet|].
    apply set_pz_resets. left. reflexivity.
  - eapply resets_trans; [apply quiet_resets, errorMessage_quiet|].
    apply set_cp_resets. left. reflexivity.
Qed.
#[global] Hint Resolve testForLiteralCollision_resets : resets.

Lemma incrementClc_resets st : resets st (incrementClc st).
Proof.
  unfold incrementClc. cbv zeta.
  eapply resets_trans; [apply testForLiteralCollision_resets|].
  eapply resets_trans; [apply set_clc_resets | apply set_fieldlc_resets].
Qed.
#[global] Hint Resolve incrementClc_resets : resets.

Lemma emit_word_resets v st : resets st (emit_word v st).
Proof.
  unfold emit_word.
  eapply resets_trans; [apply punchOutObject_resets | apply incrementClc_resets].
Qed.

Lemma endOfBinary_resets st : resets st (endOfBinary st).
Proof. cbv delta [endOfBinary]; cbv beta. resets_auto. Qed.
#[global] Hint Resolve endOfBinary_resets : resets.

Lemma conditionTrue_resets st : resets st (conditionTrue st).
Proof. unfold conditionTrue. destruct (chr _ _); apply quiet_resets; auto with quiet. Qed.
#[global] Hint Resolve conditionTrue_resets : resets.

Lemma zblock_loop_resets n : forall st, resets st (zblock_loop n st).
Proof.
  induction n as [|n IH]; intros st; cbn [zblock_loop]; [apply resets_refl|].
  eapply resets_trans; [apply (emit_word_resets 0) | apply IH].
Qed.

Lemma text_loop_resets n delim : forall index pack count st,
  resets st (snd (text_loop n delim index pack count st)).
Proof.
  induction n as [|n IH]; intros index pack count st; cbn [text_loop]; [apply resets_refl|].
  cbv zeta. destruct (_ && _); [|apply resets_refl].
  destruct (1 <? _); [|apply IH].
  eapply resets_trans; [apply emit_word_resets | apply IH].
Qed.

Lemma pseudo_TEXT_resets st : resets st (pseudo_TEXT st).
Proof.
  unfold pseudo_TEXT. cbv zeta.
  pose proof (text_loop_resets (String.length (line (lexs st)))
                (cur st (lexstart (lexs st))) (lexstart (lexs st) + 1) 0 0 st) as H.
  destruct (text_loop _ _ _ _ _ st) as [[[index pack] count] st1]. cbn [snd] in H.
  eapply resets_trans; [exact H|]. clear H.
  set (st2 := incrementClc _).
  apply (resets_trans _ st2); [apply (emit_word_resets _ st1)|].
  generalize st2. clear. intros st.
  eapply resets_trans; [|apply quiet_resets, nextLexeme_quiet].
  destruct (isend _); apply quiet_resets; quiet_auto.
Qed.
#[global] Hint Resolve zblock_loop_resets pseudo_TEXT_resets : resets.

(** *** [insertLiteral] *)

Lemma insertLiteral_bounds w v st ix st' :
  insertLiteral w v st = Ok (ix, st') -> bounds_kept st st'.
Proof.
  intros H. unfold insertLiteral in H.
  set (w' := if _ =? 0 then PZ else w) in H.
  set (p := get_pool w' st) in H.
  destruct (_ && _); [discriminate|].
  destruct (_ <? loc p) eqn:E1.
  - destruct (_ && _) eqn:E2; [|discriminate].
    inversion H; subst; clear H.
    apply andb_true_iff in E2. destruct E2 as (L1 & L2).
    apply Z.leb_le in L1. apply Z.ltb_lt in L2. unfold PAGE_SIZE in L2.
    unfold bounds_kept, pool_bounds. subst p.
    destruct w'; cbn [put_pool lits set_pz set_cp with_lits pz cp loc pool_pool pool_loc];
      intros (? & ?); split; lia.
  - inversion H; subst. intros Hb. exact Hb.
Qed.

#[global] Instance bounds_kept_Frame : Frame bounds_kept.
Proof.
  split.
  - intros st H. exact H.
  - intros a b c H1 H2 H. apply H2, H1, H.
  - intros a b H. apply resets_kept, quiet_resets, H.
  - exact insertLiteral_bounds.
Qed.

(** *** The statements *)

Lemma readLine_quiet st u st' : readLine st = Ok (u, st') -> quiet st st'.
Proof.
  unfold readLine. cbv zeta. intros H.
  destruct (fgets _ _) as [inpline rest].
  destruct (strlen inpline =? 0);
    destruct (LINELEN <=? _); try discriminate; inversion H; subst; quiet_auto.
Qed.

Lemma readLine_keeps : keeps bounds_kept readLine.
Proof. intros st u st' H. apply frame_quiet. eapply readLine_quiet, H. Qed.

Lemma keeps_resets f : (forall st, resets st (f st)) -> keeps bounds_kept (modify f).
Proof. intros Hf. apply keeps_modify. intros st. apply resets_kept, Hf. Qed.

Create HintDb bounds.

#[global] Hint Resolve readLine_keeps : bounds.

(** Peels a statement by the head of the computation: binds, tests, the
    basic steps, expressions and symbol definitions, updates that are quiet
    or only reset pools, and the lemmas of the [bounds] database. *)
Ltac bounds_step :=
  lazymatch goal with
  | |- keeps _ (bind _ _) => apply keeps_bind; [| intros ?]
  | |- keeps _ (ret _) => apply keeps_ret
  | |- keeps _ (raise _) => apply keeps_raise
  | |- keeps _ get => apply keeps_get
  | |- keeps _ (modify _) =>
      first [ apply keeps_quiet; intros ?; solve [auto with quiet | quiet_auto]
            | apply keeps_resets; intros ?; cbv beta; solve [resets_leaf | resets_auto] ]
  | |- keeps _ (if ?b then _ else _) => destruct b
  | |- keeps _ (match ?f with Scan => _ | NextLine => _ | EndPass => _ end) => destruct f
  | |- keeps _ (lookup _) => apply lookup_keeps
  | |- keeps _ evalSymbol => apply evalSymbol_keeps
  | |- keeps _ (getExpr _) => apply getExpr_keeps
  | |- keeps _ (getExprs _) => apply getExprs_keeps
  | |- keeps _ (defineSymbol _ _ _ _) => apply defineSymbol_keeps
  | |- keeps _ (defineLexeme _ _ _ _) => apply defineLexeme_keeps
  | |- keeps _ _ => first [ progress cbv beta zeta | solve [auto with bounds] ]
  end.
Ltac bounds_tac := repeat bounds_step.

Lemma conditionFalse_loop_keeps fuel : forall level,
  keeps bounds_kept (conditionFalse_loop fuel level).
Proof.
  induction fuel as [|k IH]; intros level; cbn [conditionFalse_loop]; bounds_tac.
Qed.
#[global] Hint Resolve conditionFalse_loop_keeps : bounds.

Lemma conditionFalse_keeps fuel : keeps bounds_kept (conditionFalse fuel).
Proof. unfold conditionFalse. bounds_tac. Qed.
#[global] Hint Resolve conditionFalse_keeps : bounds.

Lemma define_all_keeps tab extra : keeps bounds_kept (define_all tab extra).
Proof.
  induction tab as [|[[ty nm] v] rest IH]; cbn [define_all]; bounds_tac.
Qed.

Lemma leader_length_keeps fuel : keeps bounds_kept (leader_length fuel).
Proof. unfold leader_length. bounds_tac. Qed.
#[global] Hint Resolve define_all_keeps leader_length_keeps : bounds.

Lemma pseudo_FIELD_keeps fuel : keeps bounds_kept (pseudo_FIELD fuel).
Proof. unfold pseudo_FIELD. bounds_tac. Qed.

Lemma pseudo_IFDEF_keeps fuel : keeps bounds_kept (pseudo_IFDEF fuel).
Proof. unfold pseudo_IFDEF. bounds_tac. Qed.

Lemma pseudo_IFNDEF_keeps fuel : keeps bounds_kept (pseudo_IFNDEF fuel).
Proof. unfold pseudo_IFNDEF. bounds_tac. Qed.

Lemma pseudo_SEGMNT_keeps fuel v : keeps bounds_kept (pseudo_SEGMNT fuel v).
Proof. unfold pseudo_SEGMNT. bounds_tac. Qed.
#[global] Hint Resolve
  pseudo_FIELD_keeps pseudo_IFDEF_keeps pseudo_IFNDEF_keeps pseudo_SEGMNT_keeps : bounds.

Lemma pseudoOperators_keeps fuel v : keeps bounds_kept (pseudoOperators fuel v).
Proof. unfold pseudoOperators. bounds_tac. Qed.

Lemma onePass_origin_keeps fuel : keeps bounds_kept (onePass_origin fuel).
Proof. unfold onePass_origin. bounds_tac. Qed.

Lemma onePass_label_keeps : keeps bounds_kept onePass_label.
Proof. unfold onePass_label. bounds_tac. Qed.

Lemma onePass_assign_keeps fuel : keeps bounds_kept (onePass_assign fuel).
Proof. unfold onePass_assign. bounds_tac. Qed.

Lemma onePass_word_keeps fuel : keeps bounds_kept (onePass_word fuel).
Proof. unfold onePass_word. bounds_tac. Qed.
#[global] Hint Resolve
  pseudoOperators_keeps onePass_origin_keeps onePass_label_keeps onePass_assign_keeps
  onePass_word_keeps : bounds.

Lemma statement_keeps fuel : keeps bounds_kept (statement fuel).
Proof. unfold statement. bounds_tac. Qed.
#[global] Hint Resolve statement_keeps : bounds.

Lemma scan_line_keeps fuel : keeps bounds_kept (scan_line fuel).
Proof. induction fuel as [|k IH]; cbn [scan_line]; bounds_tac. Qed.
#[global] Hint Resolve scan_line_keeps : bounds.

Lemma onePass_loop_keeps fuel : keeps bounds_kept (onePass_loop fuel).
Proof. induction fuel as [|k IH]; cbn [onePass_loop]; bounds_tac. Qed.
#[global] Hint Resolve onePass_loop_keeps : bounds.

(** [onePass] empties both pools before the first line. *)
Lemma onePass_init_bounds st u st' : onePass_init st = Ok (u, st') -> pool_bounds st'.
Proof.
  intros H. inversion H; subst. unfold pool_bounds. cbn. lia.
Qed.

Lemma onePass_bounds fuel st u st' : onePass fuel st = Ok (u, st') -> pool_bounds st'.
Proof.
  unfold onePass, bind. intros H.
  destruct (onePass_init st) as [[[] st1]|] eqn:E; [|discriminate].
  exact (onePass_loop_keeps fuel _ _ _ H (onePass_init_bounds _ _ _ E)).
Qed.


Lemma lines_loop_keeps n fuel : keeps bounds_kept (lines_loop n fuel).
Proof. induction n as [|m IH]; cbn [lines_loop]; bounds_tac. Qed.

(** The same after any number of source lines of a pass. *)
Theorem after_lines_pool_bounds fuel n p l r x src st :
  after_lines fuel n p l r x src = Ok st -> pool_bounds st.
Proof.
  unfold after_lines, exec. intros H.
  match type of H with
  | match ?m ?s with _ => _ end = _ =>
      assert (K : keeps bounds_kept m)
        by (unfold install_symbols, onePass_init; pose proof (lines_loop_keeps n fuel);
            bounds_tac);
      destruct (m s) as [[[] st1]|] eqn:E; [|discriminate]
  end.
  inversion H; subst; clear H.
  apply (K _ _ _ E). unfold pool_bounds. cbn. lia.
Qed.

(** * Further properties of the code *)

(** ** The symbol table *)

(** *** [strcmp] is a strict order *)

Lemma strcmp_refl a : strcmp a a = Eq.
Proof.
  unfold strcmp. induction a as [|c a IH]; simpl; [reflexivity|].
  unfold Ascii.compare. rewrite N.compare_refl. exact IH.
Qed.

Lemma strcmp_eq a b : strcmp a b = Eq <-> a = b.
Proof.
  split; [apply String.compare_eq_iff | intros ->; apply strcmp_refl].
Qed.

Lemma strcmp_gt_lt a b : strcmp a b = Gt <-> strcmp b a = Lt.
Proof.
  unfold strcmp. rewrite (String.compare_antisym b a).
  destruct (String.compare a b); simpl; split; congruence.
Qed.

Lemma strcmp_trans a : forall b c, strcmp a b = Lt -> strcmp b c = Lt -> strcmp a c = Lt.
Proof.
  unfold strcmp. induction a as [|x a IH]; intros [|y b] [|z c]; simpl; try congruence.
  unfold Ascii.compare.
  destruct (N.compare_spec (N_of_ascii x) (N_of_ascii y)) as [E1|L1|G1]; try congruence;
    destruct (N.compare_spec (N_of_ascii y) (N_of_ascii z)) as [E2|L2|G2]; try congruence;
    intros H1 H2.
  - rewrite E1, E2, N.compare_refl. eapply IH; eassumption.
  - rewrite E1. apply N.compare_lt_iff in L2. rewrite L2. reflexivity.
  - rewrite <- E2. apply N.compare_lt_iff in L1. rewrite L1. reflexivity.
  - assert (L : (N_of_ascii x < N_of_ascii z)%N) by lia.
    apply N.compare_lt_iff in L. rewrite L. reflexivity.
Qed.

Lemma strcmp_lt_neq a b : strcmp a b = Lt -> a <> b.
Proof. intros H ->. rewrite strcmp_refl in H. discriminate. Qed.

(** *** [binarySearch] *)

Lemma sorted_range_sub tab lo hi lo' hi' :
  sorted_range tab lo hi -> lo <= lo' -> hi' <= hi -> sorted_range tab lo' hi'.
Proof. intros H ? ? i j ? ? ?. apply H; lia. Qed.

(** The loop of [binarySearch] on a sorted part [lo .. hi) of the table,
    entered with every name left of [lx] below [nm] and every name right of
    [rx] above it. *)
Lemma binarySearch_loop_spec tab nm lo hi : forall fuel lx rx,
  sorted_range tab lo hi ->
  0 <= lo <= lx -> rx < hi -> lx <= rx + 1 -> rx - lx + 1 < Z.of_nat fuel ->
  (forall i, lo <= i < lx -> strcmp nm (name_at tab i) = Gt) ->
  (forall i, rx < i < hi -> strcmp nm (name_at tab i) = Lt) ->
  let r := binarySearch_loop tab nm fuel lx rx in
  (0 <= r -> lx <= r <= rx /\ name_at tab r = nm) /\
  (r < 0 ->
   lx <= Z.lnot r <= rx + 1 /\
   (forall i, lo <= i < Z.lnot r -> strcmp nm (name_at tab i) = Gt) /\
   (forall i, Z.lnot r <= i < hi -> strcmp nm (name_at tab i) = Lt)).
Proof.
  intros fuel. induction fuel as [|k IH]; intros lx rx Hs Hlo Hhi Hle Hfuel Hl Hr; [lia|].
  cbn [binarySearch_loop]. destruct (Z.leb_spec lx rx) as [Hlr|Hlr].
  - cbv zeta. rewrite Z.quot_div_nonneg by lia.
    set (mx := (lx + rx) / 2).
    assert (Hmx : lx <= mx <= rx).
    { subst mx. split; [apply Z.div_le_lower_bound | apply Z.div_le_upper_bound]; lia. }
    fold (name_at tab mx).
    destruct (strcmp nm (name_at tab mx)) eqn:E.
    + apply strcmp_eq in E. split; [intros _; split; [lia | symmetry; exact E] | lia].
    + destruct (IH lx (mx - 1)) as (A & B); try assumption; try lia.
      { intros i Hi. destruct (Z.eq_dec i mx) as [->|Hne]; [exact E|].
        eapply strcmp_trans; [exact E | apply Hs; lia]. }
      split; [intros H; destruct (A H); split; [lia | assumption]|].
      intros H. destruct (B H) as (B1 & B2 & B3). split; [lia | split; assumption].
    + destruct (IH (mx + 1) rx) as (A & B); try assumption; try lia.
      { intros i Hi. destruct (Z.eq_dec i mx) as [->|Hne]; [exact E|].
        destruct (Z.lt_ge_cases i lx); [apply Hl; lia|].
        apply strcmp_gt_lt. apply strcmp_gt_lt in E.
        eapply strcmp_trans; [apply Hs | exact E]; lia. }
      split; [intros H; destruct (A H); split; [lia | assumption]|].
      intros H. destruct (B H) as (B1 & B2 & B3). split; [lia | split; assumption].
  - rewrite Z.lnot_lnot. split; [intros H; pose proof (Z.lnot_neg lx); lia|].
    intros _. split; [lia|]. split; [exact Hl | intros i Hi; apply Hr; lia].
Qed.

(** *** The test [table_okb] *)

Lemma sortedb_head a l :
  sortedb (a :: l) = true ->
  forall j : nat, (j < length l)%nat -> strcmp (name a) (name (l !!! j)) = Lt.
Proof.
  revert a. induction l as [|b l IH]; intros a H j Hj; [simpl in Hj; lia|].
  cbn [sortedb] in H. destruct (strcmp (name a) (name b)) eqn:E; try discriminate.
  destruct j as [|j]; [exact E|].
  eapply strcmp_trans; [exact E|]. apply IH; [exact H | simpl in Hj; lia].
Qed.

Lemma sortedb_tail a l : sortedb (a :: l) = true -> sortedb l = true.
Proof.
  destruct l as [|b l]; [reflexivity|]. cbn [sortedb].
  destruct (strcmp _ _); try discriminate. trivial.
Qed.

Lemma sortedb_spec l :
  sortedb l = true ->
  forall i j : nat, (i < j)%nat -> (j < length l)%nat ->
  strcmp (name (l !!! i)) (name (l !!! j)) = Lt.
Proof.
  induction l as [|a l IH]; intros H i j Hij Hj; [simpl in Hj; lia|].
  destruct j as [|j]; [lia|]. destruct i as [|i].
  - apply (sortedb_head a l H). simpl in Hj. lia.
  - apply IH; [eapply sortedb_tail, H | lia | simpl in Hj; lia].
Qed.

Lemma sortedb_range tab lo hi :
  0 <= lo -> hi <= Z.of_nat (length tab) ->
  sortedb (take (Z.to_nat (hi - lo)) (drop (Z.to_nat lo) tab)) = true ->
  sorted_range tab lo hi.
Proof.
  intros Hlo Hhi H i j Hi Hij Hj. unfold name_at.
  pose proof (sortedb_spec _ H (Z.to_nat (i - lo)) (Z.to_nat (j - lo))) as S.
  rewrite !lookup_total_take_lt, !lookup_total_drop in S by lia.
  replace (Z.to_nat lo + Z.to_nat (i - lo))%nat with (Z.to_nat i) in S by lia.
  replace (Z.to_nat lo + Z.to_nat (j - lo))%nat with (Z.to_nat j) in S by lia.
  apply S; [lia|]. rewrite length_take, length_drop. lia.
Qed.

Lemma table_okb_ok st : table_okb st = true -> table_ok st.
Proof.
  unfold table_okb, table_ok. cbv zeta.
  set (tab := symtab (syms st)). set (nf := number_of_fixed_symbols (syms st)).
  unfold symbol_top. fold tab.
  intros H. repeat (apply andb_true_iff in H; destruct H as (H & ?)).
  apply Z.leb_le in H. match goal with X : (nf <=? _) = true |- _ => apply Z.leb_le in X end.
  split; [lia|]. split; [|split].
  - apply sortedb_range; [lia | lia |].
    rewrite Z.sub_0_r. change (Z.to_nat 0) with 0%nat. rewrite drop_0. assumption.
  - apply sortedb_range; [lia | lia |].
    rewrite take_ge by (rewrite length_drop; lia). assumption.
  - intros i j Hi Hj E.
    match goal with X : forallb _ _ = true |- _ => rename X into F end.
    rewrite forallb_forall in F.
    assert (I1 : In (tab !!! Z.to_nat i) (take (Z.to_nat nf) tab)).
    { rewrite <- (lookup_total_take_lt tab (Z.to_nat nf)) by lia.
      apply list_elem_of_In, list_elem_of_lookup_total_2. rewrite length_take. lia. }
    specialize (F _ I1). rewrite forallb_forall in F.
    assert (I2 : In (tab !!! Z.to_nat j) (drop (Z.to_nat nf) tab)).
    { replace (Z.to_nat j) with (Z.to_nat nf + Z.to_nat (j - nf))%nat by lia.
      rewrite <- lookup_total_drop.
      apply list_elem_of_In, list_elem_of_lookup_total_2. rewrite length_drop. lia. }
    specialize (F _ I2). apply negb_true_iff in F.
    apply String.eqb_neq in F. apply F. exact E.
Qed.

Lemma table_ok_installed : table_ok installed.
Proof. apply table_okb_ok. vm_compute. reflexivity. Qed.

(** A name that [binarySearch] does not find is in no entry of the part. *)
Lemma not_found_absent tab nm lo hi ip :
  (forall i, lo <= i < ip -> strcmp nm (name_at tab i) = Gt) ->
  (forall i, ip <= i < hi -> strcmp nm (name_at tab i) = Lt) ->
  forall i, lo <= i < hi -> name_at tab i <> nm.
Proof.
  intros A B i Hi E. destruct (Z.lt_ge_cases i ip) as [L|L].
  - specialize (A i ltac:(lia)). rewrite E, strcmp_refl in A. discriminate.
  - specialize (B i ltac:(lia)). rewrite E, strcmp_refl in B. discriminate.
Qed.

(** [binarySearch] on a sorted part of the table. *)
Lemma binarySearch_spec st nm start symbol_count :
  0 <= start <= symbol_count -> symbol_count <= symbol_top st ->
  sorted_range (symtab (syms st)) start symbol_count ->
  let tab := symtab (syms st) in
  let r := binarySearch st nm start symbol_count in
  (0 <= r -> start <= r < symbol_count /\ name_at tab r = nm) /\
  (r < 0 ->
   start <= Z.lnot r <= symbol_count /\
   (forall i, start <= i < Z.lnot r -> strcmp nm (name_at tab i) = Gt) /\
   (forall i, Z.lnot r <= i < symbol_count -> strcmp nm (name_at tab i) = Lt)).
Proof.
  intros Hb Ht Hs tab r. subst r tab. unfold binarySearch, symbol_top in *.
  destruct (binarySearch_loop_spec (symtab (syms st)) nm start symbol_count
              (S (length (symtab (syms st)))) start (symbol_count - 1)) as (A & B);
    try assumption; try lia.
  split.
  - intros H. destruct (A H). split; [lia | assumption].
  - intros H. destruct (B H) as (B1 & B2 & B3). split; [lia|]. split; assumption.
Qed.

(** X1 ([binarySearch]).  On a part [start .. symbol_count) of the table
    whose names are sorted, the search finds a name exactly when it is in
    the part: a result that is not negative is the index of the entry named
    [nm]; a negative result is the complement of the insertion point, with
    every name left of the point below [nm] and every name from the point on
    above it. *)
Theorem binarySearch_sorted st nm start symbol_count :
  0 <= start <= symbol_count -> symbol_count <= symbol_top st ->
  sorted_range (symtab (syms st)) start symbol_count ->
  let tab := symtab (syms st) in
  let r := binarySearch st nm start symbol_count in
  (0 <= r <-> exists i, start <= i < symbol_count /\ name_at tab i = nm) /\
  (0 <= r -> start <= r < symbol_count /\ name_at tab r = nm) /\
  (r < 0 ->
   start <= Z.lnot r <= symbol_count /\
   (forall i, start <= i < Z.lnot r -> strcmp nm (name_at tab i) = Gt) /\
   (forall i, Z.lnot r <= i < symbol_count -> strcmp nm (name_at tab i) = Lt)).
Proof.
  intros Hb Ht Hs tab r.
  destruct (binarySearch_spec st nm start symbol_count Hb Ht Hs) as (A & B).
  fold tab in A, B. fold r in A, B.
  split; [|split; assumption].
  split.
  - intros H. exists r. apply A, H.
  - intros (i & Hi & N). destruct (Z.lt_ge_cases r 0) as [L|G]; [|exact G].
    exfalso. destruct (B L) as (_ & G1 & T1).
    exact (not_found_absent tab nm start symbol_count _ G1 T1 i Hi N).
Qed.

Lemma binarySearch_sorted_witness :
  let tab := symtab (syms installed) in
  let r := binarySearch installed "TAD" 0 (symbol_top installed) in
  (0 <= r <-> exists i, 0 <= i < symbol_top installed /\ name_at tab i = "TAD"%string) /\
  (0 <= r -> 0 <= r < symbol_top installed /\ name_at tab r = "TAD"%string) /\
  (r < 0 ->
   0 <= Z.lnot r <= symbol_top installed /\
   (forall i, 0 <= i < Z.lnot r -> strcmp "TAD" (name_at tab i) = Gt) /\
   (forall i, Z.lnot r <= i < symbol_top installed -> strcmp "TAD" (name_at tab i) = Lt)).
Proof.
  apply (binarySearch_sorted installed "TAD" 0 (symbol_top installed)).
  - vm_compute. split; discriminate.
  - vm_compute. discriminate.
  - apply sortedb_range; [lia | vm_compute; discriminate | vm_compute; reflexivity].
Defined.

(** *** [lookup] *)

Lemma enter_at_lookup ix s tab i :
  0 <= ix <= Z.of_nat (length tab) -> 0 <= i ->
  enter_at ix s tab !!! Z.to_nat i =
    if i <? ix then tab !!! Z.to_nat i
    else if i =? ix then s else tab !!! Z.to_nat (i - 1).
Proof.
  intros Hix Hi. unfold enter_at.
  destruct (Z.ltb_spec i ix) as [L|L].
  - rewrite lookup_total_app_l by (rewrite length_take; lia).
    apply lookup_total_take_lt. lia.
  - destruct (Z.eqb_spec i ix) as [->|N].
    + apply list_lookup_total_middle. rewrite length_take. lia.
    + rewrite lookup_total_app_r by (rewrite length_take; lia).
      rewrite length_take.
      rewrite lookup_total_cons_ne_0 by lia.
      rewrite lookup_total_drop. f_equal. lia.
Qed.

Lemma enter_at_length ix s tab :
  0 <= ix <= Z.of_nat (length tab) ->
  Z.of_nat (length (enter_at ix s tab)) = Z.of_nat (length tab) + 1.
Proof.
  intros H. unfold enter_at. rewrite length_app, length_take. cbn [length].
  rewrite length_drop. lia.
Qed.

(** Entering a name at its insertion point keeps the table in order. *)
Lemma table_ok_enter st nm ip :
  table_ok st ->
  number_of_fixed_symbols (syms st) <= ip <= symbol_top st ->
  (forall i, 0 <= i < number_of_fixed_symbols (syms st) -> name_at (symtab (syms st)) i <> nm) ->
  (forall i, number_of_fixed_symbols (syms st) <= i < ip ->
             strcmp nm (name_at (symtab (syms st)) i) = Gt) ->
  (forall i, ip <= i < symbol_top st -> strcmp nm (name_at (symtab (syms st)) i) = Lt) ->
  table_ok (set_symtab (enter_at ip (mkSym UNDEFINED nm 0 0) (symtab (syms st))) st).
Proof.
  unfold table_ok, symbol_top. cbn [syms set_symtab with_syms symtab number_of_fixed_symbols].
  set (tab := symtab (syms st)). set (nf := number_of_fixed_symbols (syms st)).
  intros (Hnf & S1 & S2 & D) Hip Hfix Hgt Hlt.
  assert (Hlen := enter_at_length ip (mkSym UNDEFINED nm 0 0) tab ltac:(lia)).
  assert (N : forall i, 0 <= i ->
            name_at (enter_at ip (mkSym UNDEFINED nm 0 0) tab) i =
              if i <? ip then name_at tab i
              else if i =? ip then nm else name_at tab (i - 1)).
  { intros i Hi. unfold name_at. rewrite enter_at_lookup by lia.
    destruct (i <? ip); [reflexivity|]. destruct (i =? ip); reflexivity. }
  rewrite Hlen. split; [lia|]. split; [|split].
  - intros i j Hi Hij Hj. rewrite !N by lia.
    destruct (Z.ltb_spec i ip); [|lia]. destruct (Z.ltb_spec j ip); [|lia].
    apply S1; lia.
  - intros i j Hi Hij Hj. rewrite !N by lia.
    destruct (Z.ltb_spec i ip); destruct (Z.ltb_spec j ip); try lia.
    + apply S2; lia.
    + destruct (Z.eqb_spec j ip).
      * apply strcmp_gt_lt, Hgt. lia.
      * apply S2; lia.
    + destruct (Z.eqb_spec i ip); destruct (Z.eqb_spec j ip); try lia.
      * apply Hlt. lia.
      * apply S2; lia.
  - intros i j Hi Hj. rewrite !N by lia.
    destruct (Z.ltb_spec i ip); [|lia].
    destruct (Z.ltb_spec j ip); [apply D; lia|].
    destruct (Z.eqb_spec j ip); [apply Hfix; lia | apply D; lia].
Qed.

(** What [lookup] does on a table in order. *)
Lemma lookup_cases nm st :
  table_ok st ->
  let tab := symtab (syms st) in
  match lookup nm st with
  | Ok (ix, st') =>
      0 <= ix < symbol_top st' /\ name (sym_at st' ix) = nm /\ table_ok st' /\
      (st' = st \/
       ((forall i, 0 <= i < symbol_top st -> name_at tab i <> nm) /\
        number_of_fixed_symbols (syms st) <= ix <= symbol_top st /\
        st' = set_symtab (enter_at ix (mkSym UNDEFINED nm 0 0) tab) st))
  | Fault f =>
      f = SymbolTableFull /\ SYMBOL_TABLE_SIZE <= symbol_top st + 1 /\
      forall i, 0 <= i < symbol_top st -> name_at tab i <> nm
  end.
Proof.
  intros Hok tab. pose proof Hok as (Hnf & S1 & S2 & D). fold tab in S1, S2, D.
  set (nf := number_of_fixed_symbols (syms st)) in *.
  unfold lookup. fold nf.
  pose proof (binarySearch_spec st nm 0 nf ltac:(lia) ltac:(lia) S1) as (A1 & B1).
  pose proof (binarySearch_spec st nm nf (symbol_top st) ltac:(lia) ltac:(lia) S2) as (A2 & B2).
  cbv zeta in A1, B1, A2, B2. fold tab in A1, B1, A2, B2.
  destruct (Z.ltb_spec (binarySearch st nm 0 nf) 0) as [L1|L1].
  - destruct (B1 L1) as (_ & G1 & T1). clear A1 B1.
    pose proof (not_found_absent tab nm 0 nf _ G1 T1) as Abs1.
    destruct (Z.ltb_spec (binarySearch st nm nf (symbol_top st)) 0) as [L2|L2].
    + destruct (B2 L2) as (R2 & G2 & T2). clear A2 B2.
      pose proof (not_found_absent tab nm nf (symbol_top st) _ G2 T2) as Abs2.
      set (ip := Z.lnot (binarySearch st nm nf (symbol_top st))) in *.
      assert (Abs : forall i, 0 <= i < symbol_top st -> name_at tab i <> nm).
      { intros i Hi. destruct (Z.lt_ge_cases i nf); [apply Abs1 | apply Abs2]; lia. }
      destruct (Z.leb_spec SYMBOL_TABLE_SIZE (symbol_top st + 1)) as [F|F].
      * split; [reflexivity|]. split; assumption.
      * assert (R2' : nf <= ip <= Z.of_nat (length tab)) by exact R2.
        assert (Hlen := enter_at_length ip (mkSym UNDEFINED nm 0 0) tab ltac:(lia)).
        split.
        { unfold symbol_top. cbn [syms set_symtab with_syms symtab].
          change (0 <= ip < Z.of_nat (length (enter_at ip (mkSym UNDEFINED nm 0 0) tab))).
          lia. }
        split.
        { unfold sym_at. cbn [syms set_symtab with_syms symtab].
          change (name (enter_at ip (mkSym UNDEFINED nm 0 0) tab !!! Z.to_nat ip) = nm).
          rewrite enter_at_lookup by lia.
          rewrite Z.ltb_irrefl, Z.eqb_refl. reflexivity. }
        split.
        { apply table_ok_enter; assumption. }
        right. split; [exact Abs|]. split; [exact R2 | reflexivity].
    + destruct (A2 L2) as (R2 & N2). clear A2 B2.
      split; [lia|]. split; [exact N2|]. split; [exact Hok | left; reflexivity].
  - destruct (A1 L1) as (R1 & N1).
    split; [lia|]. split; [exact N1|]. split; [exact Hok | left; reflexivity].
Qed.

Lemma sorted_range_unique tab lo hi i j :
  sorted_range tab lo hi -> lo <= i < hi -> lo <= j < hi ->
  name_at tab i = name_at tab j -> i = j.
Proof.
  intros S Hi Hj E. destruct (Z.lt_trichotomy i j) as [L|[L|L]]; [|exact L|].
  - specialize (S i j ltac:(lia) L ltac:(lia)). rewrite E, strcmp_refl in S. discriminate.
  - specialize (S j i ltac:(lia) L ltac:(lia)). rewrite E, strcmp_refl in S. discriminate.
Qed.

Lemma table_ok_unique st i j :
  table_ok st -> 0 <= i < symbol_top st -> 0 <= j < symbol_top st ->
  name_at (symtab (syms st)) i = name_at (symtab (syms st)) j -> i = j.
Proof.
  intros (Hnf & S1 & S2 & D) Hi Hj E.
  set (nf := number_of_fixed_symbols (syms st)) in *.
  destruct (Z.lt_ge_cases i nf), (Z.lt_ge_cases j nf).
  - eapply (sorted_range_unique _ 0 nf); eauto; lia.
  - exfalso. apply (D i j); [lia | lia | exact E].
  - exfalso. apply (D j i); [lia | lia | symmetry; exact E].
  - eapply (sorted_range_unique _ nf (symbol_top st)); eauto; lia.
Qed.

Lemma lookup_present nm st i :
  table_ok st -> 0 <= i < symbol_top st -> name_at (symtab (syms st)) i = nm ->
  lookup nm st = Ok (i, st).
Proof.
  intros Hok Hi E. pose proof (lookup_cases nm st Hok) as C. cbv zeta in C.
  destruct (lookup nm st) as [[ix st']|f].
  - destruct C as (R & N & _ & [->|(Abs & _)]).
    + f_equal. f_equal. apply (table_ok_unique st); try assumption.
      unfold sym_at in N. unfold name_at in *. congruence.
    + exfalso. exact (Abs i Hi E).
  - destruct C as (_ & _ & Abs). exfalso. exact (Abs i Hi E).
Qed.

(** X2 ([lookup]).  On a table in order, a [lookup] that returns gives the
    index of an entry with the requested name and leaves the table in
    order.  Either nothing has changed, or the name was in no entry and is
    now entered as UNDEFINED with value 0 at the returned index, the old
    entries keeping their contents (those from the index on moved up by
    one). *)
Theorem lookup_finds_or_enters nm st ix st' :
  table_ok st -> lookup nm st = Ok (ix, st') ->
  table_ok st' /\ 0 <= ix < symbol_top st' /\ name (sym_at st' ix) = nm /\
  (st' = st \/
   ((forall i, 0 <= i < symbol_top st -> name (sym_at st i) <> nm) /\
    symbol_top st' = symbol_top st + 1 /\
    sym_at st' ix = mkSym UNDEFINED nm 0 0 /\
    forall i, 0 <= i < symbol_top st -> sym_at st' (moved ix i) = sym_at st i)).
Proof.
  intros Hok E. pose proof (lookup_cases nm st Hok) as C. cbv zeta in C.
  rewrite E in C. destruct C as (R & N & Hok' & [->|(Abs & Hix & ->)]).
  - split; [exact Hok'|]. split; [exact R|]. split; [exact N|]. left. reflexivity.
  - split; [exact Hok'|]. split; [exact R|]. split; [exact N|]. right.
    split; [exact Abs|].
    assert (Hb : 0 <= ix <= Z.of_nat (length (symtab (syms st)))).
    { destruct Hok as (? & _). unfold symbol_top in *. lia. }
    split.
    { unfold symbol_top. cbn [syms set_symtab with_syms symtab].
      apply enter_at_length. exact Hb. }
    split.
    { unfold sym_at. cbn [syms set_symtab with_syms symtab].
      rewrite enter_at_lookup by lia. rewrite Z.ltb_irrefl, Z.eqb_refl. reflexivity. }
    intros i Hi. unfold sym_at, moved. cbn [syms set_symtab with_syms symtab].
    destruct (Z.ltb_spec i ix).
    + rewrite enter_at_lookup by lia.
      destruct (Z.ltb_spec i ix); [reflexivity | lia].
    + rewrite enter_at_lookup by lia.
      destruct (Z.ltb_spec (i + 1) ix); [lia|].
      destruct (Z.eqb_spec (i + 1) ix); [lia|]. f_equal. lia.
Qed.

Lemma lookup_finds_or_enters_witness :
  let r := lookup "LOOP" installed in
  table_ok (state_after r) /\ 0 <= returned 0 r < symbol_top (state_after r) /\
  name (sym_at (state_after r) (returned 0 r)) = "LOOP"%string /\
  (state_after r = installed \/
   ((forall i, 0 <= i < symbol_top installed -> name (sym_at installed i) <> "LOOP"%string) /\
    symbol_top (state_after r) = symbol_top installed + 1 /\
    sym_at (state_after r) (returned 0 r) = mkSym UNDEFINED "LOOP" 0 0 /\
    forall i, 0 <= i < symbol_top installed ->
              sym_at (state_after r) (moved (returned 0 r) i) = sym_at installed i)).
Proof.
  apply (lookup_finds_or_enters "LOOP" installed).
  - exact table_ok_installed.
  - vm_compute. reflexivity.
Defined.

(** X3 ([lookup], [binarySearch]).  A name that is in the table is found at
    its own index, in the permanent or in the user part, and the state is
    not changed; so a second [lookup] of a name returns what the first one
    returned. *)
Theorem lookup_is_stable nm st ix st' :
  table_ok st -> lookup nm st = Ok (ix, st') ->
  lookup nm st' = Ok (ix, st') /\
  forall i, 0 <= i < symbol_top st' ->
            lookup (name (sym_at st' i)) st' = Ok (i, st').
Proof.
  intros Hok E. pose proof (lookup_cases nm st Hok) as C. cbv zeta in C.
  rewrite E in C. destruct C as (R & N & Hok' & _).
  split.
  - apply lookup_present; assumption.
  - intros i Hi. apply lookup_present; [assumption | assumption | reflexivity].
Qed.

Lemma lookup_is_stable_witness :
  let r := lookup "LOOP" installed in
  lookup "LOOP" (state_after r) = Ok (returned 0 r, state_after r) /\
  forall i, 0 <= i < symbol_top (state_after r) ->
            lookup (name (sym_at (state_after r) i)) (state_after r) = Ok (i, state_after r).
Proof.
  apply (lookup_is_stable "LOOP" installed).
  - exact table_ok_installed.
  - vm_compute. reflexivity.
Defined.

Lemma table_ok_full_table : table_ok full_table.
Proof. apply table_okb_ok. vm_compute. reflexivity. Qed.

(** X4 ([lookup]).  [lookup] stops the assembler only for a name that is
    not in the table when the table has [SYMBOL_TABLE_SIZE - 1] entries:
    with room for one more entry it always returns. *)
Theorem lookup_fails_only_when_full nm st :
  table_ok st ->
  match lookup nm st with
  | Ok _ => True
  | Fault f =>
      f = SymbolTableFull /\ SYMBOL_TABLE_SIZE - 1 <= symbol_top st /\
      forall i, 0 <= i < symbol_top st -> name (sym_at st i) <> nm
  end.
Proof.
  intros Hok. pose proof (lookup_cases nm st Hok) as C. cbv zeta in C.
  destruct (lookup nm st) as [[ix st']|f]; [exact I|].
  destruct C as (-> & F & Abs). split; [reflexivity|]. split; [lia | exact Abs].
Qed.

Lemma lookup_fails_only_when_full_witness :
  symbol_top full_table = SYMBOL_TABLE_SIZE - 1 /\
  lookup "LOOP" full_table = Fault SymbolTableFull /\
  (forall i, 0 <= i < symbol_top full_table -> name (sym_at full_table i) <> "LOOP"%string) /\
  lookup "XAAB" full_table = Ok (symbol_top installed + 1, full_table).
Proof.
  pose proof (lookup_fails_only_when_full "LOOP" full_table table_ok_full_table) as H.
  assert (E : lookup "LOOP" full_table = Fault SymbolTableFull) by (vm_compute; reflexivity).
  rewrite E in H. destruct H as (_ & _ & H).
  split; [vm_compute; reflexivity|]. split; [exact E|]. split; [exact H|].
  vm_compute. reflexivity.
Defined.

(** *** [defineSymbol] *)

Lemma name_at_set_sym ix s st i :
  name s = name (sym_at st ix) ->
  name_at (symtab (syms (set_sym ix s st))) i = name_at (symtab (syms st)) i.
Proof.
  intros E. unfold name_at, set_sym. cbn [syms set_symtab with_syms symtab].
  rewrite list_lookup_total_insert.
  destruct (decide _) as [(Heq & _)|_]; [|reflexivity].
  rewrite <- Heq. exact E.
Qed.

Lemma table_ok_set_sym ix s st :
  table_ok st -> name s = name (sym_at st ix) -> table_ok (set_sym ix s st).
Proof.
  intros (Hnf & S1 & S2 & D) E. unfold table_ok.
  assert (T : symbol_top (set_sym ix s st) = symbol_top st).
  { unfold symbol_top, set_sym. cbn [syms set_symtab with_syms symtab].
    rewrite length_insert. reflexivity. }
  assert (F : number_of_fixed_symbols (syms (set_sym ix s st)) =
              number_of_fixed_symbols (syms st)) by reflexivity.
  cbv zeta. rewrite T, F. split; [exact Hnf|]. split; [|split].
  - intros i j ? ? ?. rewrite !name_at_set_sym by exact E. apply S1; assumption.
  - intros i j ? ? ?. rewrite !name_at_set_sym by exact E. apply S2; assumption.
  - intros i j ? ?. rewrite !name_at_set_sym by exact E. apply D; assumption.
Qed.

(** The table is in order whatever the other components of the state are. *)
Lemma table_ok_syms a b : syms b = syms a -> table_ok a -> table_ok b.
Proof. unfold table_ok, symbol_top. intros ->. trivial. Qed.

Lemma errorSymbol_syms m n c st : syms (errorSymbol m n c st) = syms st.
Proof. unfold errorSymbol, log_error. destruct (_ =? 2); reflexivity. Qed.

Lemma errorMessage_syms m c st : syms (errorMessage m c st) = syms st.
Proof. unfold errorMessage, log_error. destruct (_ =? 2); reflexivity. Qed.

(** X5 ([defineSymbol]).  A permanent symbol cannot be given a new value:
    defining a name whose entry has the FIXED bit returns that entry and
    changes nothing, in either pass. *)
Theorem defineSymbol_keeps_fixed nm v ty start st i :
  table_ok st -> 0 <= i < symbol_top st ->
  name (sym_at st i) = nm -> 1 <= strlen nm ->
  M_FIXED (type (sym_at st i)) = true ->
  defineSymbol nm v ty start st = Ok (Some i, st).
Proof.
  intros Hok Hi N L F. unfold defineSymbol.
  destruct (Z.ltb_spec (strlen nm) 1); [lia|].
  unfold bind. rewrite (lookup_present nm st i Hok Hi N).
  cbn [get]. cbv zeta. rewrite F. reflexivity.
Qed.

Lemma defineSymbol_keeps_fixed_witness :
  defineSymbol "TAD" 1 DEFINED 0 installed
  = Ok (Some (returned 0 (lookup "TAD" installed)), installed).
Proof.
  apply (defineSymbol_keeps_fixed "TAD" 1 DEFINED 0 installed).
  - exact table_ok_installed.
  - vm_compute. split; [discriminate | reflexivity].
  - vm_compute. reflexivity.
  - vm_compute. discriminate.
  - vm_compute. reflexivity.
Defined.

(** X6 ([defineSymbol], [lookup]).  In pass one, defining a name that is
    not a permanent symbol stores the value (all 16 bits for a LABEL, the
    low 12 bits otherwise) and the type with the CONDITION bit; a [lookup]
    of the name afterwards returns exactly that entry, and the table stays
    in order. *)
Theorem defineSymbol_then_lookup nm v ty start st r st' :
  table_ok st -> pass (mach st) = 1 -> 1 <= strlen nm ->
  (forall i, 0 <= i < symbol_top st -> name (sym_at st i) = nm ->
             M_FIXED (type (sym_at st i)) = false) ->
  defineSymbol nm v ty start st = Ok (r, st') ->
  exists ix,
    r = Some ix /\ table_ok st' /\ lookup nm st' = Ok (ix, st') /\
    name (sym_at st' ix) = nm /\
    type (sym_at st' ix) = Z.lor ty CONDITION /\
    val (sym_at st' ix) = (if ty =? LABEL then v else Z.land v 4095).
Proof.
  intros Hok Hp L NF E. unfold defineSymbol in E.
  destruct (Z.ltb_spec (strlen nm) 1); [lia|].
  unfold bind in E. destruct (lookup nm st) as [[ix st1]|f] eqn:El; [|discriminate].
  pose proof (lookup_cases nm st Hok) as C. cbv zeta in C. rewrite El in C.
  destruct C as (R1 & N1 & Hok1 & Hcase).
  assert (P1 : pass (mach st1) = 1).
  { destruct Hcase as [->|_]; [exact Hp|].
    unfold lookup in El.
    repeat match type of El with
           | (if ?b then _ else _) = _ => destruct b
           end; inversion El; subst; exact Hp. }
  assert (F1 : M_FIXED (type (sym_at st1 ix)) = false).
  { destruct Hcase as [->|(_ & Hix & ->)]; [apply NF; assumption|].
    unfold sym_at. cbn [syms set_symtab with_syms symtab].
    rewrite enter_at_lookup by (destruct Hok as (? & _); unfold symbol_top in *; lia).
    rewrite Z.ltb_irrefl, Z.eqb_refl. reflexivity. }
  cbn [get] in E. cbv zeta in E. rewrite F1, P1 in E.
  change (1 =? 2) with false in E. rewrite andb_false_r in E. cbn [andb] in E.
  change (1 =? 1) with true in E. cbn [modify ret] in E.
  injection E as Hr Hst. subst r st'.
  set (s := mkSym _ _ _ _).
  assert (Ns : name s = name (sym_at st1 ix)) by reflexivity.
  assert (Hok' : table_ok (set_sym ix s st1)) by (apply table_ok_set_sym; assumption).
  assert (At : sym_at (set_sym ix s st1) ix = s).
  { unfold sym_at, set_sym. cbn [syms set_symtab with_syms symtab].
    apply list_lookup_total_insert_eq. unfold symbol_top in R1. lia. }
  exists ix. split; [reflexivity|]. split; [exact Hok'|]. split.
  - apply lookup_present; [exact Hok' | |].
    + unfold symbol_top, set_sym in *. cbn [syms set_symtab with_syms symtab].
      rewrite length_insert. exact R1.
    + change (name (sym_at (set_sym ix s st1) ix) = nm). rewrite At. exact N1.
  - rewrite At. split; [exact N1|]. split; reflexivity.
Qed.

Lemma not_fixed_check nm st :
  forallb (fun s => negb (String.eqb (name s) nm) || negb (M_FIXED (type s)))
          (symtab (syms st)) = true ->
  forall i, 0 <= i < symbol_top st -> name (sym_at st i) = nm ->
            M_FIXED (type (sym_at st i)) = false.
Proof.
  intros C i Hi N. rewrite forallb_forall in C.
  assert (I : In (sym_at st i) (symtab (syms st))).
  { apply list_elem_of_In, list_elem_of_lookup_total_2. unfold symbol_top in Hi. lia. }
  specialize (C _ I). apply orb_true_iff in C. destruct C as [C|C].
  - apply negb_true_iff, String.eqb_neq in C. contradiction.
  - apply negb_true_iff in C. exact C.
Qed.

Lemma defineSymbol_then_lookup_witness :
  let m := defineSymbol "COUNT" 8191 DEFINED 0 (set_pass 1 installed) in
  exists ix,
    returned None m = Some ix /\ table_ok (state_after m) /\
    lookup "COUNT" (state_after m) = Ok (ix, state_after m) /\
    name (sym_at (state_after m) ix) = "COUNT"%string /\
    type (sym_at (state_after m) ix) = Z.lor DEFINED CONDITION /\
    val (sym_at (state_after m) ix) = (if DEFINED =? LABEL then 8191 else Z.land 8191 4095).
Proof.
  intros m.
  apply (defineSymbol_then_lookup "COUNT" 8191 DEFINED 0 (set_pass 1 installed)
           (returned None m) (state_after m)).
  - apply table_okb_ok. vm_compute. reflexivity.
  - reflexivity.
  - vm_compute. discriminate.
  - apply not_fixed_check. vm_compute. reflexivity.
  - vm_compute. reflexivity.
Defined.

(** ** Invariants along a run *)

Lemma preserves_ret I {A} (a : A) : preserves I (ret a).
Proof. intros st a' st' H E. inversion E; subst. exact H. Qed.

Lemma preserves_raise I {A} f : preserves I (@raise A f).
Proof. intros st a st' H E. discriminate. Qed.

Lemma preserves_get I : preserves I get.
Proof. intros st a st' H E. inversion E; subst. exact H. Qed.

Lemma preserves_bind I {A B} (m : M A) (k : A -> M B) :
  preserves I m -> (forall a, preserves I (k a)) -> preserves I (bind m k).
Proof.
  intros Hm Hk st b st' H E. unfold bind in E.
  destruct (m st) as [[a st1]|f] eqn:E1; [|discriminate].
  eapply Hk; [eapply Hm; eassumption | exact E].
Qed.

Lemma preserves_modify (I : state -> Prop) f :
  (forall st, I st -> I (f st)) -> preserves I (modify f).
Proof. intros Hf st a st' H E. inversion E; subst. apply Hf, H. Qed.

Lemma preserves_call (I : state -> Prop) {A} (f : state -> A * state) :
  (forall st, I st -> I (snd (f st))) -> preserves I (call f).
Proof.
  intros Hf st a st' H E. unfold call in E. inversion E as [E1].
  specialize (Hf st H). rewrite E1 in Hf. exact Hf.
Qed.

Create HintDb walk.

(** Peels a computation by its head: binds, tests and the basic steps; a
    state update is left to the tactic [leaf], anything else to the lemmas
    of the [walk] database. *)
Ltac walk_step leaf :=
  lazymatch goal with
  | |- preserves _ (bind _ _) => apply preserves_bind; [| intros ?]
  | |- preserves _ (ret _) => apply preserves_ret
  | |- preserves _ (raise _) => apply preserves_raise
  | |- preserves _ get => apply preserves_get
  | |- preserves _ (modify _) => apply preserves_modify; intros ? ?; cbv beta; solve [leaf]
  | |- preserves _ (call _) => apply preserves_call; intros ? ?; cbv beta; solve [leaf]
  | |- preserves _ (if ?a =? ?b then _ else _) =>
      destruct (Z.eqb_spec a b); [try (exfalso; congruence) |]
  | |- preserves _ (if ?b then _ else _) => destruct b
  | |- preserves _ (match ?f with Scan => _ | NextLine => _ | EndPass => _ end) => destruct f
  | |- preserves _ _ => first [ progress cbv beta zeta | solve [auto with walk] ]
  end.
Ltac walk leaf := repeat (walk_step leaf).

(** *** The symbol table stays in order *)

Lemma table_ok_view a b :
  symtab (syms b) = symtab (syms a) ->
  number_of_fixed_symbols (syms b) = number_of_fixed_symbols (syms a) ->
  table_ok a -> table_ok b.
Proof. unfold table_ok, symbol_top. intros -> ->. trivial. Qed.

Create HintDb tbl.

Lemma table_ok_chain (f : state -> state) s :
  (forall s', table_ok s' -> table_ok (f s')) -> table_ok s -> table_ok (f s).
Proof. intros Hf H. apply Hf, H. Qed.

(** [table_ok (f s)] from [table_ok s], for one function [f]. *)
Ltac tbl_one H :=
  first [ exact H
        | solve [auto with tbl]
        | eapply table_ok_view; [reflexivity | reflexivity | exact H] ].

Ltac tbl_step :=
  lazymatch goal with
  | H : table_ok ?a |- table_ok ?a => exact H
  | |- table_ok (if ?b then _ else _) => destruct b
  | |- table_ok (let x := ?v in @?b x) => change (table_ok (b v)); cbv beta
  | |- table_ok (snd _) => solve [auto with tbl]
  | |- table_ok (?f ?s) =>
      apply (table_ok_chain f s);
      [ let s' := fresh "s" in let H := fresh "H" in intros s' H; tbl_one H | ]
  end.
Ltac tbl_leaf := repeat tbl_step.

Lemma log_error_table_ok m n c st : table_ok st -> table_ok (log_error m n c st).
Proof. intros H. unfold log_error. tbl_leaf. Qed.
#[global] Hint Resolve log_error_table_ok : tbl.

Lemma errorSymbol_table_ok m n c st : table_ok st -> table_ok (errorSymbol m n c st).
Proof. intros H. unfold errorSymbol. tbl_leaf. Qed.

Lemma errorMessage_table_ok m c st : table_ok st -> table_ok (errorMessage m c st).
Proof. intros H. unfold errorMessage. tbl_leaf. Qed.
#[global] Hint Resolve errorSymbol_table_ok errorMessage_table_ok : tbl.

Lemma errorLexeme_table_ok m c st : table_ok st -> table_ok (errorLexeme m c st).
Proof. intros H. unfold errorLexeme. apply errorSymbol_table_ok, H. Qed.

Lemma skip_table_ok p st : table_ok st -> table_ok (skip p st).
Proof. intros H. unfold skip. tbl_leaf. Qed.
#[global] Hint Resolve errorLexeme_table_ok skip_table_ok : tbl.

Lemma moveToEndOfLine_table_ok st : table_ok st -> table_ok (moveToEndOfLine st).
Proof. intros H. cbv delta [moveToEndOfLine]; cbv beta. tbl_leaf. Qed.

Lemma nextLexeme_table_ok st : table_ok st -> table_ok (nextLexeme st).
Proof. intros H. cbv delta [nextLexeme]; cbv beta. tbl_leaf. Qed.
#[global] Hint Resolve moveToEndOfLine_table_ok nextLexeme_table_ok : tbl.

Lemma nextLexBlank_table_ok st : table_ok st -> table_ok (nextLexBlank st).
Proof. intros H. cbv delta [nextLexBlank]; cbv beta. tbl_leaf. Qed.

Lemma upd_getexpr_table_ok f st : table_ok st -> table_ok (upd_getexpr f st).
Proof. intros H. unfold upd_getexpr. tbl_leaf. Qed.
#[global] Hint Resolve nextLexBlank_table_ok upd_getexpr_table_ok : tbl.

Lemma fputc_table_ok v st : table_ok st -> table_ok (fputc v st).
Proof. intros H. cbv delta [fputc]; cbv beta. tbl_leaf. Qed.
#[global] Hint Resolve fputc_table_ok : tbl.

Lemma punchObject_table_ok v st : table_ok st -> table_ok (punchObject v st).
Proof. intros H. cbv delta [punchObject]; cbv beta. tbl_leaf. Qed.
#[global] Hint Resolve punchObject_table_ok : tbl.

Lemma punchOrigin_table_ok l st : table_ok st -> table_ok (punchOrigin l st).
Proof. intros H. cbv delta [punchOrigin]; cbv beta. tbl_leaf. Qed.
#[global] Hint Resolve punchOrigin_table_ok : tbl.

Lemma punchLocObject_table_ok l v st : table_ok st -> table_ok (punchLocObject l v st).
Proof. intros H. cbv delta [punchLocObject]; cbv beta. tbl_leaf. Qed.
#[global] Hint Resolve punchLocObject_table_ok : tbl.

Lemma punchOutObject_table_ok l v st : table_ok st -> table_ok (punchOutObject l v st).
Proof. intros H. cbv delta [punchOutObject]; cbv beta. tbl_leaf. Qed.
#[global] Hint Resolve punchOutObject_table_ok : tbl.

Lemma punchChecksum_table_ok st : table_ok st -> table_ok (punchChecksum st).
Proof. intros H. cbv delta [punchChecksum]; cbv beta. tbl_leaf. Qed.
#[global] Hint Resolve punchChecksum_table_ok : tbl.

Lemma punchLeader_table_ok n st : table_ok st -> table_ok (punchLeader n st).
Proof. intros H. cbv delta [punchLeader]; cbv beta. tbl_leaf. Qed.
#[global] Hint Resolve punchLeader_table_ok : tbl.

Lemma punchField_table_ok n st : table_ok st -> table_ok (punchField n st).
Proof. intros H. cbv delta [punchField]; cbv beta. tbl_leaf. Qed.
#[global] Hint Resolve punchField_table_ok : tbl.

Lemma put_pool_table_ok w p st : table_ok st -> table_ok (put_pool w p st).
Proof. intros H. destruct w; cbn [put_pool]; tbl_leaf. Qed.
#[global] Hint Resolve put_pool_table_ok : tbl.

Lemma punch_pool_words_table_ok p page n : forall l st,
  table_ok st -> table_ok (punch_pool_words p page l n st).
Proof.
  induction n as [|n IH]; intros l st H; cbn [punch_pool_words]; [exact H|].
  cbv zeta. apply IH. apply punchLocObject_table_ok, H.
Qed.
#[global] Hint Resolve punch_pool_words_table_ok : tbl.

Lemma punchLiteralPool_table_ok w page st :
  table_ok st -> table_ok (punchLiteralPool w page st).
Proof. intros H. cbv delta [punchLiteralPool]; cbv beta. tbl_leaf. Qed.
#[global] Hint Resolve punchLiteralPool_table_ok : tbl.

Lemma testForLiteralCollision_table_ok l st :
  table_ok st -> table_ok (snd (testForLiteralCollision l st)).
Proof.
  intros H. unfold testForLiteralCollision. cbv zeta.
  destruct (_ =? 0); destruct (_ && _); cbn [snd]; tbl_leaf.
Qed.
#[global] Hint Resolve testForLiteralCollision_table_ok : tbl.

Lemma incrementClc_table_ok st : table_ok st -> table_ok (incrementClc st).
Proof.
  intros H. unfold incrementClc. cbv zeta.
  pose proof (testForLiteralCollision_table_ok (clc (mach st)) st H) as H1.
  revert H1. generalize (snd (testForLiteralCollision (clc (mach st)) st)).
  intros s H1. tbl_leaf.
Qed.
#[global] Hint Resolve incrementClc_table_ok : tbl.

Lemma endOfBinary_table_ok st : table_ok st -> table_ok (endOfBinary st).
Proof. intros H. cbv delta [endOfBinary]; cbv beta. tbl_leaf. Qed.

Lemma conditionTrue_table_ok st : table_ok st -> table_ok (conditionTrue st).
Proof. intros H. unfold conditionTrue. tbl_leaf. Qed.
#[global] Hint Resolve endOfBinary_table_ok conditionTrue_table_ok : tbl.

Lemma emit_word_table_ok v st : table_ok st -> table_ok (emit_word v st).
Proof. intros H. unfold emit_word. tbl_leaf. Qed.

Lemma zblock_loop_table_ok n : forall st, table_ok st -> table_ok (zblock_loop n st).
Proof.
  induction n as [|n IH]; intros st H; cbn [zblock_loop]; [exact H|].
  apply IH. apply (emit_word_table_ok 0), H.
Qed.

Lemma text_loop_table_ok n delim : forall index pack count st,
  table_ok st -> table_ok (snd (text_loop n delim index pack count st)).
Proof.
  induction n as [|n IH]; intros index pack count st H; cbn [text_loop]; [exact H|].
  cbv zeta. destruct (_ && _); [|exact H].
  destruct (1 <? _); [|apply IH, H].
  apply IH. apply emit_word_table_ok, H.
Qed.

Lemma pseudo_TEXT_table_ok st : table_ok st -> table_ok (pseudo_TEXT st).
Proof.
  intros H. unfold pseudo_TEXT. cbv zeta.
  pose proof (text_loop_table_ok (String.length (line (lexs st)))
                (cur st (lexstart (lexs st))) (lexstart (lexs st) + 1) 0 0 st H) as H1.
  destruct (text_loop _ _ _ _ _ st) as [[[index pack] count] st1]. cbn [snd] in H1.
  set (st2 := incrementClc _).
  assert (H2 : table_ok st2) by (apply (emit_word_table_ok _ st1), H1).
  revert H2. generalize st2. clear. intros st H.
  apply nextLexeme_table_ok.
  destruct (isend _); tbl_leaf.
Qed.
#[global] Hint Resolve zblock_loop_table_ok pseudo_TEXT_table_ok : tbl.

Lemma eval_number_table_ok n : forall from v st,
  table_ok st -> table_ok (snd (eval_number n from v st)).
Proof.
  induction n as [|n IH]; intros from v st H; cbn [eval_number]; [exact H|].
  destruct (_ <? _); [|exact H]. cbv zeta.
  destruct (isdigit _); [|apply errorLexeme_table_ok, H].
  destruct (_ <? _); [apply IH, H | apply errorLexeme_table_ok, H].
Qed.
#[global] Hint Resolve eval_number_table_ok : tbl.

Lemma lookup_table_ok nm : preserves table_ok (lookup nm).
Proof.
  intros st ix st' H E. pose proof (lookup_cases nm st H) as C. cbv zeta in C.
  rewrite E in C. apply C.
Qed.

Lemma lookup_nfixed nm st ix st' :
  lookup nm st = Ok (ix, st') ->
  number_of_fixed_symbols (syms st') = number_of_fixed_symbols (syms st).
Proof.
  unfold lookup. intros E.
  repeat match type of E with
         | (if ?b then _ else _) = _ => destruct b
         end; inversion E; subst; reflexivity.
Qed.

Lemma evalSymbol_table_ok : preserves table_ok evalSymbol.
Proof.
  intros st ix st' H E. unfold evalSymbol, bind in E. cbn [get] in E.
  destruct (lookup _ st) as [[ix1 st1]|] eqn:El; [|discriminate].
  pose proof (lookup_table_ok _ _ _ _ H El) as H1.
  destruct (_ || _); cbn [modify ret] in E; inversion E; subst; [|exact H1].
  assert (H2 : table_ok (set_sym ix (sym_xref_count (xref_count (sym_at st1 ix) + 1)
                                     (sym_at st1 ix)) st1))
    by (apply table_ok_set_sym; [exact H1 | reflexivity]).
  revert H2. generalize (set_sym ix (sym_xref_count (xref_count (sym_at st1 ix) + 1)
                                        (sym_at st1 ix)) st1).
  intros s H2. tbl_leaf.
Qed.

Lemma defineSymbol_table_ok nm v ty start : preserves table_ok (defineSymbol nm v ty start).
Proof.
  intros st r st' H E. unfold defineSymbol in E.
  destruct (_ <? 1); [inversion E; subst; exact H|].
  unfold bind in E. destruct (lookup nm st) as [[ix st1]|] eqn:El; [|discriminate].
  pose proof (lookup_table_ok _ _ _ _ H El) as H1.
  cbn [get] in E. cbv zeta in E.
  destruct (M_FIXED _); [inversion E; subst; exact H1|].
  cbn [modify ret] in E. inversion E; subst; clear E.
  destruct (_ && _ && _ && _).
  - apply table_ok_set_sym; [apply errorSymbol_table_ok, H1|].
    unfold sym_at. rewrite errorSymbol_syms. reflexivity.
  - apply table_ok_set_sym; [exact H1 | reflexivity].
Qed.

Lemma defineLexeme_table_ok start term v ty :
  preserves table_ok (defineLexeme start term v ty).
Proof.
  intros st r st' H E. unfold defineLexeme, bind in E. cbn [get] in E.
  eapply defineSymbol_table_ok; eassumption.
Qed.

Lemma insertLiteral_table_ok w v : preserves table_ok (insertLiteral w v).
Proof.
  intros st ix st' H E. unfold insertLiteral in E.
  repeat match type of E with
         | (if ?b then _ else _) = _ => destruct b
         end; inversion E; subst; try exact H.
  apply put_pool_table_ok, H.
Qed.

Lemma readLine_table_ok : preserves table_ok readLine.
Proof.
  intros st u st' H E.
  unfold readLine in E. cbv zeta in E.
  destruct (fgets _ _) as [inpline rest].
  destruct (strlen inpline =? 0);
    destruct (LINELEN <=? _); try discriminate; inversion E; subst;
    (eapply table_ok_view; [reflexivity | reflexivity | exact H]).
Qed.
#[global] Hint Resolve
  lookup_table_ok evalSymbol_table_ok defineSymbol_table_ok defineLexeme_table_ok
  insertLiteral_table_ok readLine_table_ok : walk.

Lemma set_eval_val_table_ok v : preserves table_ok (set_eval_val v).
Proof. unfold set_eval_val. walk tbl_leaf. Qed.
#[global] Hint Resolve set_eval_val_table_ok : walk.

Theorem evaluator_table_ok (fuel : nat) :
  preserves table_ok (eval fuel) /\ preserves table_ok (getExpr fuel) /\
  preserves table_ok (getExpr_loop fuel) /\ preserves table_ok (getExprs fuel) /\
  (forall v t, preserves table_ok (getExprs_loop fuel v t)).
Proof.
  induction fuel as [|k (IHe & IHg & IHl & IHs & IHsl)].
  - refine (conj _ (conj _ (conj _ (conj _ _)))); intros; apply preserves_raise.
  - refine (conj _ (conj _ (conj _ (conj _ _)))); intros.
    + cbn [eval]. walk tbl_leaf.
    + cbn [getExpr]. walk tbl_leaf.
    + cbn [getExpr_loop]. walk tbl_leaf.
    + cbn [getExprs]. walk tbl_leaf.
    + cbn [getExprs_loop]. walk tbl_leaf.
Qed.

Lemma getExpr_table_ok fuel : preserves table_ok (getExpr fuel).
Proof. apply (evaluator_table_ok fuel). Qed.

Lemma getExprs_table_ok fuel : preserves table_ok (getExprs fuel).
Proof. apply (evaluator_table_ok fuel). Qed.
#[global] Hint Resolve getExpr_table_ok getExprs_table_ok : walk.

Lemma conditionFalse_loop_table_ok fuel : forall level,
  preserves table_ok (conditionFalse_loop fuel level).
Proof.
  induction fuel as [|k IH]; intros level; cbn [conditionFalse_loop]; walk tbl_leaf.
Qed.
#[global] Hint Resolve conditionFalse_loop_table_ok : walk.

Lemma conditionFalse_table_ok fuel : preserves table_ok (conditionFalse fuel).
Proof. unfold conditionFalse. walk tbl_leaf. Qed.

Lemma define_all_table_ok tab extra : preserves table_ok (define_all tab extra).
Proof.
  induction tab as [|[[ty nm] v] rest IH]; cbn [define_all]; walk tbl_leaf.
Qed.

Lemma leader_length_table_ok fuel : preserves table_ok (leader_length fuel).
Proof. unfold leader_length. walk tbl_leaf. Qed.
#[global] Hint Resolve
  conditionFalse_table_ok define_all_table_ok leader_length_table_ok : walk.

Lemma onePass_label_table_ok : preserves table_ok onePass_label.
Proof.
  unfold onePass_label.
  apply preserves_bind; [apply preserves_get | intros st0].
  apply preserves_bind; [|intros _; walk tbl_leaf].
  destruct (isalpha _); [|walk tbl_leaf].
  apply preserves_bind; [apply lookup_table_ok | intros ix].
  intros st u st' H E. unfold bind in E. cbn [get modify] in E. cbv zeta in E.
  match type of E with
  | match defineLexeme ?a ?b ?c ?d ?s with _ => _ end = _ =>
      assert (H1 : table_ok s); [| destruct (defineLexeme a b c d s) as [[r s1]|] eqn:Ed;
                                    [|discriminate] ]
  end.
  - destruct (M_DEFINED _); [|exact H].
    apply table_ok_set_sym; [|].
    + destruct (_ && _); [apply errorSymbol_table_ok|]; exact H.
    + destruct (_ && _); [|reflexivity].
      unfold sym_at. rewrite errorSymbol_syms. reflexivity.
  - cbn [ret] in E. inversion E; subst.
    eapply defineLexeme_table_ok; eassumption.
Qed.
#[global] Hint Resolve onePass_label_table_ok : walk.

(** *** FIXTAB, EXPUNGE and the set up of the table *)

Lemma In_insert_sorted x s tab : In x (insert_sorted s tab) <-> x = s \/ In x tab.
Proof.
  induction tab as [|t rest IH]; cbn [insert_sorted]; [simpl; intuition congruence|].
  destruct (strcmp (name s) (name t)); simpl in *; intuition congruence.
Qed.

Lemma In_qsort x l : In x (qsort l) <-> In x l.
Proof.
  unfold qsort. induction l as [|a l IH]; [reflexivity|].
  cbn [foldr]. rewrite In_insert_sorted, IH. simpl. intuition congruence.
Qed.

Lemma length_insert_sorted s tab : length (insert_sorted s tab) = S (length tab).
Proof.
  induction tab as [|t rest IH]; cbn [insert_sorted]; [reflexivity|].
  destruct (strcmp (name s) (name t)); simpl; congruence.
Qed.

Lemma length_qsort l : length (qsort l) = length l.
Proof.
  unfold qsort. induction l as [|a l IH]; [reflexivity|].
  cbn [foldr]. rewrite length_insert_sorted, IH. reflexivity.
Qed.

Lemma sortedb_insert s tab :
  sortedb tab = true -> (forall t, In t tab -> name t <> name s) ->
  sortedb (insert_sorted s tab) = true.
Proof.
  induction tab as [|t rest IH]; intros H D; cbn [insert_sorted]; [reflexivity|].
  destruct (strcmp (name s) (name t)) eqn:E.
  - apply strcmp_eq in E. exfalso. apply (D t); [left; reflexivity | congruence].
  - cbn [sortedb]. rewrite E. exact H.
  - apply strcmp_gt_lt in E.
    assert (IH' : sortedb (insert_sorted s rest) = true).
    { apply IH; [eapply sortedb_tail, H | intros u Hu; apply D; right; exact Hu]. }
    destruct rest as [|r1 rest'].
    + cbn [insert_sorted sortedb]. rewrite E. reflexivity.
    + cbn [insert_sorted] in *. cbn [sortedb] in H.
      destruct (strcmp (name t) (name r1)) eqn:E1; try discriminate.
      destruct (strcmp (name s) (name r1)); cbn [sortedb];
        rewrite ?E, ?E1; exact IH'.
Qed.

Lemma sortedb_qsort l :
  (forall i j : nat, (i < j)%nat -> (j < length l)%nat ->
                     name (l !!! i) <> name (l !!! j)) ->
  sortedb (qsort l) = true.
Proof.
  unfold qsort. induction l as [|a l IH]; intros D; [reflexivity|].
  cbn [foldr]. apply sortedb_insert.
  - apply IH. intros i j Hij Hj. apply (D (S i) (S j)); simpl; lia.
  - intros t Ht. apply (proj1 (In_qsort t l)) in Ht. apply list_elem_of_In in Ht.
    apply list_elem_of_lookup_total in Ht. destruct Ht as (j & Hj & <-).
    intros E. apply (D 0%nat (S j)); [lia | simpl; lia | symmetry; exact E].
Qed.

Lemma lookup_total_map (g : SYM_T -> SYM_T) l : forall i : nat,
  (i < length l)%nat -> map g l !!! i = g (l !!! i).
Proof.
  induction l as [|a l IH]; intros i Hi; [simpl in Hi; lia|].
  destruct i as [|i]; [reflexivity|]. apply IH. simpl in Hi. lia.
Qed.

Lemma table_ok_FIXTAB st :
  table_ok st ->
  table_ok (set_symtab
              (qsort (map (fun s => sym_type (Z.lor (type s) FIXED) s)
                          (symtab (syms (set_number_of_fixed_symbols (symbol_top st) st)))))
              (set_number_of_fixed_symbols (symbol_top st) st)).
Proof.
  intros H. unfold table_ok, symbol_top.
  cbn [syms set_symtab set_number_of_fixed_symbols with_syms symtab number_of_fixed_symbols].
  set (tab := symtab (syms st)).
  set (g := fun s => sym_type (Z.lor (type s) FIXED) s).
  rewrite length_qsort, length_map.
  split; [lia|]. split; [|split].
  - apply sortedb_range; [lia | rewrite length_qsort, length_map; lia |].
    rewrite Z.sub_0_r. change (Z.to_nat 0) with 0%nat. rewrite drop_0.
    rewrite take_ge by (rewrite length_qsort, length_map; lia).
    apply sortedb_qsort. rewrite length_map. intros i j Hij Hj E.
    rewrite !lookup_total_map in E by lia. cbn [g sym_type name] in E.
    assert (Z.of_nat i = Z.of_nat j); [|lia].
    apply (table_ok_unique st _ _ H); unfold symbol_top, name_at; fold tab;
      rewrite ?Nat2Z.id; [lia | lia | exact E].
  - intros i j ? ? ?. lia.
  - intros i j ? ?. lia.
Qed.

Lemma table_ok_fixed_all st :
  fresh_table st -> table_ok (set_number_of_fixed_symbols (symbol_top st) st).
Proof.
  intros ((Hnf & S1 & S2 & D) & Z0). unfold table_ok, symbol_top in *.
  cbn [syms set_number_of_fixed_symbols with_syms symtab number_of_fixed_symbols].
  rewrite Z0 in *. split; [lia|]. split; [exact S2|]. split.
  - intros i j ? ? ?. lia.
  - intros i j ? ?. lia.
Qed.

Lemma fresh_table_empty st :
  fresh_table (set_number_of_fixed_symbols 0 (set_symtab [] st)).
Proof.
  split; [|reflexivity]. unfold table_ok, symbol_top.
  cbn [syms set_symtab set_number_of_fixed_symbols with_syms symtab
       number_of_fixed_symbols length].
  split; [lia|]. repeat split; intros i j; intros; lia.
Qed.

Lemma defineSymbol_nfixed nm v ty start st r st' :
  defineSymbol nm v ty start st = Ok (r, st') ->
  number_of_fixed_symbols (syms st') = number_of_fixed_symbols (syms st).
Proof.
  intros E. unfold defineSymbol in E.
  destruct (_ <? 1); [inversion E; subst; reflexivity|].
  unfold bind in E. destruct (lookup nm st) as [[ix st1]|] eqn:El; [|discriminate].
  rewrite <- (lookup_nfixed _ _ _ _ El).
  cbn [get] in E. cbv zeta in E.
  destruct (M_FIXED _); [inversion E; subst; reflexivity|].
  cbn [modify ret] in E. inversion E; subst; clear E.
  unfold set_sym. cbn [syms set_symtab with_syms number_of_fixed_symbols].
  destruct (_ && _ && _ && _); [rewrite errorSymbol_syms|]; reflexivity.
Qed.

Lemma define_all_fresh tab extra : preserves fresh_table (define_all tab extra).
Proof.
  induction tab as [|[[ty nm] v] rest IH]; cbn [define_all].
  - apply preserves_ret.
  - apply preserves_bind; [|intros _; exact IH].
    intros st r st' (H & Z0) E. split.
    + eapply defineSymbol_table_ok; eassumption.
    + rewrite (defineSymbol_nfixed _ _ _ _ _ _ _ E). exact Z0.
Qed.

Lemma pseudoOperators_EXPUNGE fuel st :
  pseudoOperators fuel EXPUNGE st =
    if pass (mach st) =? 1 then
      match define_all pseudo 0 (set_number_of_fixed_symbols 0 (set_symtab [] st)) with
      | Ok (_, s) => Ok (true, set_number_of_fixed_symbols (symbol_top s) s)
      | Fault f => Fault f
      end
    else Ok (true, st).
Proof.
  change (pseudoOperators fuel EXPUNGE st) with
    (bind get (fun st0 : state =>
       if pass (mach st0) =? 1 then
         bind (modify (set_symtab []))
           (fun _ => bind (modify (set_number_of_fixed_symbols 0))
           (fun _ => bind (define_all pseudo 0)
           (fun _ => bind (modify (fun s => set_number_of_fixed_symbols (symbol_top s) s))
           (fun _ => ret true))))
       else ret true) st).
  unfold bind at 1. cbn [get]. destruct (pass (mach st) =? 1); [|reflexivity].
  unfold bind. cbn [modify ret].
  destruct (define_all pseudo 0 _) as [[[] s]|]; reflexivity.
Qed.

Lemma pseudoOperators_FIXTAB fuel st :
  pseudoOperators fuel FIXTAB st =
    Ok (true,
        set_symtab
          (qsort (map (fun s => sym_type (Z.lor (type s) FIXED) s)
                      (symtab (syms (set_number_of_fixed_symbols (symbol_top st) st)))))
          (set_number_of_fixed_symbols (symbol_top st) st)).
Proof. reflexivity. Qed.

Lemma EXPUNGE_table_ok fuel : preserves table_ok (pseudoOperators fuel EXPUNGE).
Proof.
  intros st r st' H E. rewrite pseudoOperators_EXPUNGE in E.
  destruct (pass (mach st) =? 1); [|inversion E; subst; exact H].
  destruct (define_all pseudo 0 _) as [[[] st1]|] eqn:Ed; [|discriminate].
  inversion E; subst; clear E.
  apply table_ok_fixed_all.
  eapply define_all_fresh; [apply fresh_table_empty | exact Ed].
Qed.

Lemma FIXTAB_table_ok fuel : preserves table_ok (pseudoOperators fuel FIXTAB).
Proof.
  intros st r st' H E. rewrite pseudoOperators_FIXTAB in E.
  inversion E; subst; clear E. apply table_ok_FIXTAB, H.
Qed.

Lemma pseudoOperators_table_ok fuel v : preserves table_ok (pseudoOperators fuel v).
Proof.
  destruct (Z.eq_dec v EXPUNGE) as [->|N1]; [apply EXPUNGE_table_ok|].
  destruct (Z.eq_dec v FIXTAB) as [->|N2]; [apply FIXTAB_table_ok|].
  unfold pseudoOperators, pseudo_FIELD, pseudo_IFDEF, pseudo_IFNDEF, pseudo_SEGMNT.
  walk tbl_leaf.
Qed.
#[global] Hint Resolve pseudoOperators_table_ok : walk.

Lemma statement_table_ok fuel : preserves table_ok (statement fuel).
Proof.
  unfold statement, onePass_origin, onePass_assign, onePass_word. walk tbl_leaf.
Qed.
#[global] Hint Resolve statement_table_ok : walk.

Lemma scan_line_table_ok fuel : preserves table_ok (scan_line fuel).
Proof. induction fuel as [|k IH]; cbn [scan_line]; walk tbl_leaf. Qed.
#[global] Hint Resolve scan_line_table_ok : walk.

Lemma onePass_loop_table_ok fuel : preserves table_ok (onePass_loop fuel).
Proof. induction fuel as [|k IH]; cbn [onePass_loop]; walk tbl_leaf. Qed.

Lemma lines_loop_table_ok n fuel : preserves table_ok (lines_loop n fuel).
Proof. induction n as [|m IH]; cbn [lines_loop]; walk tbl_leaf. Qed.
#[global] Hint Resolve onePass_loop_table_ok lines_loop_table_ok : walk.

Lemma onePass_table_ok fuel : preserves table_ok (onePass fuel).
Proof. unfold onePass, onePass_init. walk tbl_leaf. Qed.
#[global] Hint Resolve onePass_table_ok : walk.







(** ** Literal pools, location counter and encoder *)

Lemma put_pool_mach w p st : mach (put_pool w p st) = mach st.
Proof. destruct w; reflexivity. Qed.

Lemma target_pool_put w w' p st : target_pool w (put_pool w' p st) = target_pool w st.
Proof. unfold target_pool. rewrite put_pool_mach. reflexivity. Qed.

(** An [insertLiteral] that has returned an index in the pool returns it
    again. *)
Lemma insertLiteral_again w v st ix st' :
  let p := get_pool (target_pool w st) st in
  length (pool p) = 128%nat -> 0 <= loc p <= 128 ->
  insertLiteral w v st = Ok (ix, st') ->
  let p' := get_pool (target_pool w st) st' in
  insertLiteral w v st' = Ok (ix, st') /\
  loc p' <= ix < 128 /\ pool p' !!! Z.to_nat ix = v /\
  (loc p' = loc p \/ loc p' = loc p - 1).
Proof.
  intros p Hlen Hloc E. pose proof E as E0. unfold insertLiteral in E.
  fold (target_pool w st) in E. fold p in E.
  change (Z.to_nat PAGE_SIZE) with 128%nat in E.
  destruct (search_pool_spec p v 128) as (S1 & S2 & S3). cbv zeta in S1, S2, S3.
  set (ix0 := search_pool p v 128) in *.
  destruct ((ix0 <? 0) && (loc p <=? ix0)); [discriminate|].
  destruct (Z.ltb_spec ix0 (loc p)) as [L|L].
  - destruct (Z.leb_spec 0 (w16 (loc p - 1))) as [L1|L1]; [|discriminate].
    destruct (Z.ltb_spec (w16 (loc p - 1)) PAGE_SIZE) as [L2|L2]; [|discriminate].
    cbn [andb] in E.
    assert (Hl : w16 (loc p - 1) = loc p - 1 /\ 1 <= loc p).
    { destruct (Z.eq_dec (loc p) 0) as [Z0|NZ].
      - rewrite Z0 in L1. vm_compute in L1. congruence.
      - split; [apply w16_small|]; lia. }
    destruct Hl as (Hl & Hpos). rewrite Hl in *. injection E as <- <-.
    cbv zeta. rewrite get_put_pool. cbn [loc pool pool_pool pool_loc].
    assert (Hv : <[Z.to_nat (loc p - 1) := v]> (pool p) !!! Z.to_nat (loc p - 1) = v)
      by (apply list_lookup_total_insert_eq; lia).
    split; [|split; [lia | split; [exact Hv | right; reflexivity]]].
    unfold insertLiteral. rewrite put_pool_mach. fold (target_pool w st).
    rewrite get_put_pool. change (Z.to_nat PAGE_SIZE) with 128%nat.
    set (p1 := pool_pool _ _).
    destruct (search_pool_spec p1 v 128) as (T1 & T2 & T3). cbv zeta in T1, T2, T3.
    set (ix1 := search_pool p1 v 128) in *.
    assert (Hp1 : loc p1 = loc p - 1 /\
                  pool p1 = <[Z.to_nat (loc p - 1) := v]> (pool p)) by (split; reflexivity).
    destruct Hp1 as (Lp1 & Pp1).
    assert (Hix1 : ix1 = loc p - 1).
    { destruct (Z.lt_trichotomy ix1 (loc p - 1)) as [C|[C|C]]; [|exact C|].
      - exfalso. destruct (T2 (Z.to_nat (loc p - 1)) ltac:(lia)) as (_ & N).
        apply N. rewrite Pp1. exact Hv.
      - exfalso. destruct (T3 ltac:(lia)) as [C1|C1]; [lia|].
        rewrite Pp1 in C1. rewrite list_lookup_total_insert_ne in C1 by lia.
        destruct (S2 (Z.to_nat ix1) ltac:(lia)) as (_ & N). exact (N C1). }
    rewrite Hix1, Lp1.
    destruct (Z.ltb_spec (loc p - 1) 0); [lia|]. cbn [andb].
    rewrite Z.ltb_irrefl. reflexivity.
  - injection E as <- <-. cbv zeta. fold p.
    split; [exact E0|]. split; [lia|]. split; [|left; reflexivity].
    destruct S3 as [C|C]; [lia | lia | exact C].
Qed.

(** X8 ([insertLiteral]).  A pool holds a value once.  On a pool with room
    ([0 < loc]), or one that holds the value already among
    [pool[loc .. 127]], [insertLiteral] returns; the value is then in the
    pool at the returned index, at or above [loc]; [loc] has gone down by
    one or not at all; and inserting the same value again returns the same
    index and changes nothing.  (A full pool that does not hold the value is
    left out: there the source stores below [pool[0]].) *)
Theorem insertLiteral_twice w v st :
  let p := get_pool (target_pool w st) st in
  length (pool p) = 128%nat -> 0 <= loc p <= 128 ->
  (0 < loc p \/ exists k : nat, loc p <= Z.of_nat k < 128 /\ pool p !!! k = v) ->
  exists ix st',
    insertLiteral w v st = Ok (ix, st') /\
    let p' := get_pool (target_pool w st) st' in
    insertLiteral w v st' = Ok (ix, st') /\
    loc p' <= ix < 128 /\ pool p' !!! Z.to_nat ix = v /\
    (loc p' = loc p \/ loc p' = loc p - 1) /\
    ((exists k : nat, loc p <= Z.of_nat k < 128 /\ pool p !!! k = v) -> st' = st).
Proof.
  intros p Hlen Hloc Hroom.
  assert (R : exists ix st', insertLiteral w v st = Ok (ix, st') /\
              ((exists k : nat, loc p <= Z.of_nat k < 128 /\ pool p !!! k = v) -> st' = st)).
  { unfold insertLiteral. fold (target_pool w st). fold p.
    change (Z.to_nat PAGE_SIZE) with 128%nat.
    destruct (search_pool_spec p v 128) as (S1 & S2 & S3). cbv zeta in S1, S2, S3.
    set (ix0 := search_pool p v 128) in *.
    assert (P : (exists k : nat, loc p <= Z.of_nat k < 128 /\ pool p !!! k = v) ->
                loc p <= ix0).
    { intros (k & Hk & Hv).
      destruct (Z.lt_ge_cases ix0 (Z.of_nat k)) as [L|G]; [|lia].
      destruct (S2 k ltac:(lia)) as (_ & N). contradiction. }
    replace ((ix0 <? 0) && (loc p <=? ix0)) with false
      by (symmetry; apply andb_false_iff; destruct (Z.ltb_spec ix0 0);
          [right; apply Z.leb_gt; lia | left; reflexivity]).
    destruct (Z.ltb_spec ix0 (loc p)) as [L|L].
    - assert (0 < loc p) by (destruct Hroom as [H|H]; [exact H | apply P in H; lia]).
      rewrite (w16_small (loc p - 1)) by lia.
      replace ((0 <=? loc p - 1) && (loc p - 1 <? PAGE_SIZE)) with true
        by (symmetry; apply andb_true_iff; split;
            [apply Z.leb_le; lia | apply Z.ltb_lt; unfold PAGE_SIZE; lia]).
      eexists _, _. split; [reflexivity|]. intros H'. apply P in H'. lia.
    - exists ix0, st. split; reflexivity. }
  destruct R as (ix & st' & E & Same). exists ix, st'. split; [exact E|].
  destruct (insertLiteral_again w v st ix st' Hlen Hloc E) as (A1 & A2 & A3 & A4).
  cbv zeta. split; [exact A1|]. split; [exact A2|]. split; [exact A3|].
  split; [exact A4 | exact Same].
Qed.

Lemma insertLiteral_twice_witness :
  exists ix st',
    insertLiteral CP 256 off_page_state = Ok (ix, st') /\
    insertLiteral CP 256 st' = Ok (ix, st') /\
    ix = 127 /\ loc (cp (lits st')) = 127 /\ pool (cp (lits st')) !!! 127%nat = 256.
Proof.
  destruct (insertLiteral_twice CP 256 off_page_state) as (ix & st' & H1 & H2 & _ & H4 & _).
  - vm_compute. reflexivity.
  - vm_compute. split; discriminate.
  - left. vm_compute. reflexivity.
  - exists ix, st'. split; [exact H1|]. split; [exact H2|].
    vm_compute in H1. injection H1 as <- <-. vm_compute. repeat split.
Defined.

(** *** [punchLiteralPool] *)

Lemma punch_pool_words_fold p page n : forall l st,
  0 <= l ->
  punch_pool_words p page l n st =
  foldl do_punch st
    (map (fun k : nat => Word (w16 (Z.of_nat k + page)) (pool p !!! k)) (seq (Z.to_nat l) n)).
Proof.
  induction n as [|n IH]; intros l st Hl; [reflexivity|].
  cbn [punch_pool_words seq map foldl]. cbv zeta.
  rewrite IH by lia. rewrite Z2Nat.id by lia.
  replace (Z.to_nat (l + 1)) with (S (Z.to_nat l)) by lia. reflexivity.
Qed.

Lemma put_pool_enc w p st : enc (put_pool w p st) = enc st.
Proof. destruct w; reflexivity. Qed.

Lemma frames_pool_words_length p page :
  0 <= loc p <= 128 ->
  Z.of_nat (length (frames (pool_words p page))) = 2 * (128 - loc p).
Proof.
  intros H. unfold pool_words.
  assert (G : forall n s : nat,
            length (frames (map (fun k : nat => Word (w16 (Z.of_nat k + page)) (pool p !!! k))
                                (seq s n))) = (2 * n)%nat).
  { induction n as [|n IH]; intros s; [reflexivity|].
    cbn [seq map]. unfold frames in *. cbn [map concat frames_of data_frames].
    rewrite length_app, IH. unfold data_frames. cbn [length]. lia. }
  rewrite G. lia.
Qed.

(** X9 ([punchLiteralPool]).  Flushing a pool with entries punches, in BIN
    mode, one origin at [loc] on the page and then the words
    [pool[loc .. 127]] in rising order, two frames each; it leaves the pool
    empty ([loc = 0200]) with its error flag cleared and its contents and
    the other pool as they were; flushing again does nothing. *)
Theorem punchLiteralPool_flush w lpool_page st :
  let p := get_pool w st in
  let page := Z.land lpool_page 3968 in
  0 <= loc p < 128 ->
  let st' := punchLiteralPool w lpool_page st in
  get_pool w st' = mkPool false 128 (pool p) /\
  get_pool (other_pool w) st' = get_pool (other_pool w) st /\
  (forall q, punchLiteralPool w q st' = st') /\
  (rim_mode (mach st) = false -> objectfile (enc st) = true ->
   object_out (enc st') =
     object_out (enc st) ++ origin_frames (Z.lor (loc p) page)
                         ++ frames (pool_words p page) /\
   Z.of_nat (length (frames (pool_words p page))) = 2 * (128 - loc p)).
Proof.
  intros p page Hloc st'. subst st'. unfold punchLiteralPool. fold p. fold page.
  destruct (Z.ltb_spec (loc p) 128) as [_|]; [|lia]. cbv zeta.
  rewrite punch_pool_words_fold by lia. fold (pool_words p page).
  rewrite get_put_pool, get_put_other. split; [reflexivity|]. split.
  { set (s1 := foldl do_punch _ _).
    assert (L : lits s1 = lits st).
    { subst s1. generalize (pool_words p page). intros ops.
      assert (G : forall s, lits (foldl do_punch s ops) = lits s).
      { induction ops as [|op ops IH]; intros s; [reflexivity|].
        cbn [foldl]. rewrite IH. destruct op; cbn [do_punch].
        - apply punchOrigin_lits.
        - apply punchLocObject_lits.
        - unfold punchField. cbv zeta. cbn [lits set_checksum with_enc].
          apply punchObject_lits. }
      rewrite G. destruct (rim_mode (mach st)); [reflexivity | apply punchOrigin_lits]. }
    destruct w; unfold other_pool, get_pool; rewrite L; reflexivity. }
  split.
  { intros q. change (loc (pool_loc 128 (pool_error false p)) <? 128) with false.
    reflexivity. }
  intros Hr Ho. split; [|apply frames_pool_words_length; lia].
  rewrite put_pool_enc, Hr.
  change (punchOrigin (Z.lor (loc p) page) st) with (do_punch st (Origin (Z.lor (loc p) page))).
  change (foldl do_punch (do_punch st (Origin (Z.lor (loc p) page))) (pool_words p page))
    with (foldl do_punch st (Origin (Z.lor (loc p) page) :: pool_words p page)).
  destruct (run_punch_bin (Origin (Z.lor (loc p) page) :: pool_words p page) st Hr Ho)
    as (_ & _ & _ & A & _).
  rewrite A. reflexivity.
Qed.

Lemma punchLiteralPool_flush_witness :
  let st := state_after (insertLiteral CP 256 (set_objectfile true off_page_state)) in
  let p := get_pool CP st in
  let page := Z.land 255 3968 in
  let st' := punchLiteralPool CP 255 st in
  get_pool CP st' = mkPool false 128 (pool p) /\
  get_pool (other_pool CP) st' = get_pool (other_pool CP) st /\
  (forall q, punchLiteralPool CP q st' = st') /\
  (rim_mode (mach st) = false -> objectfile (enc st) = true ->
   object_out (enc st') =
     object_out (enc st) ++ origin_frames (Z.lor (loc p) page)
                         ++ frames (pool_words p page) /\
   Z.of_nat (length (frames (pool_words p page))) = 2 * (128 - loc p)).
Proof.
  intros st.
  apply (punchLiteralPool_flush CP 255 st).
  vm_compute. split; [discriminate | reflexivity].
Defined.

(** *** [testForLiteralCollision] *)

(** X10 ([testForLiteralCollision]).  A collision of the location counter
    with a pool is reported once: a test that reports sets the pool's error
    flag, and until the pool is flushed no test on a location of the same
    kind of page (page zero, or any other page) reports again or changes
    anything.  A test that does not report changes nothing.  In pass two
    the report is one line in the error file, ZE for page zero and PE for
    the current page. *)
Theorem collision_reported_once l st :
  let r := testForLiteralCollision l st in
  (fst r = false -> snd r = st) /\
  (fst r = true ->
   (forall l2, (Z.land l2 3968 =? 0) = (Z.land l 3968 =? 0) ->
               testForLiteralCollision l2 (snd r) = (false, snd r)) /\
   (pass (mach st) = 2 ->
    errorfile (errs (snd r)) =
      errorfile (errs st) ++
      [mkErr (if Z.land l 3968 =? 0 then pz_literal_overflow else literal_overflow)
             None (lineno (lexs st)) (-1) (clc (mach st))])).
Proof.
  unfold testForLiteralCollision. cbv zeta.
  destruct (Z.land l 3968 =? 0) eqn:Epg.
  - destruct ((loc (pz (lits st)) <=? Z.land l 127) && negb (error (pz (lits st)))) eqn:Et;
      cbn [fst snd]; (split; [intros H; try discriminate; reflexivity|]); intros H;
      [|discriminate].
    split.
    + intros l2 ->.
      destruct (errorMessage_quiet pz_literal_overflow (-1) st) as (_ & _ & L).
      cbn [lits set_pz with_lits pz error pool_error]. rewrite andb_false_r. reflexivity.
    + intros P2. unfold errorMessage, log_error. rewrite P2. reflexivity.
  - destruct ((loc (cp (lits st)) <=? Z.land l 127) && negb (error (cp (lits st)))) eqn:Et;
      cbn [fst snd]; (split; [intros H; try discriminate; reflexivity|]); intros H;
      [|discriminate].
    split.
    + intros l2 ->.
      cbn [lits set_cp with_lits cp error pool_error]. rewrite andb_false_r. reflexivity.
    + intros P2. unfold errorMessage, log_error. rewrite P2. reflexivity.
Qed.

(** *** [incrementClc] *)

Lemma land_mask_idem c m : Z.land (Z.land c m) m = Z.land c m.
Proof. rewrite <- Z.land_assoc, Z.land_diag. reflexivity. Qed.

Lemma field_and_offset c d :
  let a := Z.land c 28672 in
  let b := Z.land d 4095 in
  0 <= a + b < 32768 /\ Z.land (a + b) 28672 = a /\ Z.land (a + b) 4095 = b.
Proof.
  intros a b.
  assert (D : Z.land a b = 0).
  { subst a b. rewrite Z.land_assoc, (Z.land_comm (Z.land c 28672) d).
    rewrite <- !Z.land_assoc. change (Z.land 28672 4095) with 0.
    rewrite !Z.land_0_r. reflexivity. }
  assert (E : a + b = Z.lor a b).
  { rewrite Z.add_nocarry_lxor by exact D. apply Z.lxor_lor. exact D. }
  assert (M : Z.land (Z.lor a b) 32767 = Z.lor a b).
  { rewrite Z.land_lor_distr_l. subst a b. rewrite <- !Z.land_assoc. reflexivity. }
  assert (R : 0 <= Z.lor a b < 32768).
  { rewrite <- M. change 32767 with (Z.ones 15). rewrite Z.land_ones by lia.
    apply Z.mod_pos_bound. lia. }
  split; [lia|]. rewrite E, !Z.land_lor_distr_l. subst a b.
  rewrite !land_mask_idem, <- !Z.land_assoc.
  change (Z.land 4095 28672) with 0. change (Z.land 28672 4095) with 0.
  rewrite !Z.land_0_r, Z.lor_0_r, Z.lor_0_l. split; reflexivity.
Qed.

(** X11 ([incrementClc]).  Incrementing the location counter does not
    change the field: the field bits (070000) stay, the address within the
    field goes up by one modulo 4096, so location 7777 is followed by
    location 0 of the same field; [fieldlc] is that address, and the
    counter stays a 15 bit number. *)
Theorem incrementClc_stays_in_field st :
  let c := clc (mach st) in
  let c' := clc (mach (incrementClc st)) in
  Z.land c' 28672 = Z.land c 28672 /\
  Z.land c' 4095 = (Z.land c 4095 + 1) mod 4096 /\
  fieldlc (mach (incrementClc st)) = Z.land c' 4095 /\
  0 <= c' < 32768.
Proof.
  cbv zeta. destruct (incrementClc_frame st) as (_ & _ & Hc & _).
  assert (Hf : fieldlc (mach (incrementClc st)) = Z.land (clc (mach (incrementClc st))) 4095).
  { unfold incrementClc. cbv zeta. reflexivity. }
  rewrite Hf, Hc. clear Hf Hc.
  destruct (field_and_offset (clc (mach st)) (clc (mach st) + 1)) as (R & A & B).
  cbv zeta in R, A, B. rewrite w16_small by lia. rewrite A, B.
  split; [reflexivity|]. split; [|split; [reflexivity | exact R]].
  change 4095 with (Z.ones 12). rewrite !Z.land_ones by lia.
  change (2 ^ 12) with 4096. rewrite Zplus_mod_idemp_l. reflexivity.
Qed.

(** *** Words on the tape *)

(** X12 ([punchOutObject], [punchLocObject], [punchOrigin], [punchObject]).
    A word punched to an open object file can be read back from its frames.
    In BIN mode it is two frames below 0100 that spell the low 12 bits of
    the value; in RIM mode these follow two frames that spell the low 12
    bits of the address, the first of them marked with 0100. *)
Theorem punched_word_reads_back l v st :
  objectfile (enc st) = true ->
  exists hi lo,
    0 <= hi < 64 /\ 0 <= lo < 64 /\ 64 * hi + lo = v mod 4096 /\
    if rim_mode (mach st) then
      exists ohi olo,
        64 <= ohi < 128 /\ 0 <= olo < 64 /\ 64 * (ohi - 64) + olo = l mod 4096 /\
        object_out (enc (punchOutObject l v st)) = object_out (enc st) ++ [ohi; olo; hi; lo]
    else object_out (enc (punchOutObject l v st)) = object_out (enc st) ++ [hi; lo].
Proof.
  intros Ho. destruct (frames_of_word v) as (V1 & V2 & V3).
  exists (Z.land (Z.shiftr v 6) 63), (Z.land v 63).
  split; [exact V1|]. split; [exact V2|]. split; [lia|].
  unfold punchOutObject, punchLocObject.
  destruct (rim_mode (mach st)) eqn:Hr.
  - destruct (frames_of_word l) as (L1 & L2 & L3).
    pose proof (origin_frame_hi_range l) as L0.
    assert (E : Z.lor (Z.land (Z.shiftr l 6) 63) 64 = Z.land (Z.shiftr l 6) 63 + 64).
    { assert (D : Z.land (Z.land (Z.shiftr l 6) 63) 64 = 0).
      { rewrite <- Z.land_assoc. change (Z.land 63 64) with 0. apply Z.land_0_r. }
      symmetry. rewrite Z.add_nocarry_lxor by exact D. apply Z.lxor_lor. exact D. }
    exists (Z.lor (Z.land (Z.shiftr l 6) 63) 64), (Z.land l 63).
    split; [lia|]. split; [exact L2|]. split; [lia|].
    unfold punchOrigin.
    repeat (rewrite punchObject_out;
            match goal with
            | |- context [objectfile (enc ?s)] =>
                replace (objectfile (enc s)) with true
                  by (symmetry;
                      repeat (match goal with
                              | |- objectfile (enc (punchObject ?a ?b)) = true =>
                                  rewrite (proj1 (punchObject_flags a b))
                              end); exact Ho)
            end).
    rewrite !land_255_small by lia. rewrite <- !app_assoc. reflexivity.
  - destruct (do_punch_bin st (Word l v) Hr Ho) as (_ & _ & _ & A & _).
    cbn [do_punch frames_of] in A. unfold punchLocObject in A. rewrite Hr in A. exact A.
Qed.

Lemma punched_word_reads_back_witness :
  exists hi lo,
    0 <= hi < 64 /\ 0 <= lo < 64 /\ 64 * hi + lo = 3712 mod 4096 /\
    if rim_mode (mach encoder_state) then
      exists ohi olo,
        64 <= ohi < 128 /\ 0 <= olo < 64 /\ 64 * (ohi - 64) + olo = 128 mod 4096 /\
        object_out (enc (punchOutObject 128 3712 encoder_state))
          = object_out (enc encoder_state) ++ [ohi; olo; hi; lo]
    else object_out (enc (punchOutObject 128 3712 encoder_state))
           = object_out (enc encoder_state) ++ [hi; lo].
Proof. apply (punched_word_reads_back 128 3712 encoder_state). reflexivity. Defined.


(** ** Names, lexemes and lines *)

(** *** [lexemeToName] *)

Lemma toupper_not_lower c : islower (toupper c) = false.
Proof.
  destruct c as [[] [] [] [] [] [] [] []]; vm_compute; reflexivity.
Qed.

Lemma toupper_idem c : toupper (toupper c) = toupper c.
Proof.
  unfold toupper at 1. rewrite toupper_not_lower. reflexivity.
Qed.

Lemma copy_upper_length s n : forall from, String.length (copy_upper s from n) = n.
Proof. induction n as [|n IH]; intros from; simpl; [reflexivity | rewrite IH; reflexivity]. Qed.

Lemma c_string_length s : (String.length (c_string s) <= String.length s)%nat.
Proof.
  induction s as [|c s IH]; simpl; [lia|]. destruct (chr c NUL); simpl; lia.
Qed.

Lemma c_string_all p s : all_chars p s = true -> all_chars p (c_string s) = true.
Proof.
  induction s as [|c s IH]; simpl; [trivial|]. intros H.
  apply andb_true_iff in H as (H1 & H2).
  destruct (chr c NUL); simpl; [reflexivity|]. rewrite H1. apply IH, H2.
Qed.

Lemma copy_upper_all s n : forall from,
  all_chars (fun c => negb (islower c)) (copy_upper s from n) = true.
Proof.
  induction n as [|n IH]; intros from; simpl; [reflexivity|].
  rewrite toupper_not_lower. simpl. apply IH.
Qed.

Lemma copy_upper_ext s1 s2 n : forall from,
  (forall k, from <= k < from + Z.of_nat n -> toupper (str_at s2 k) = toupper (str_at s1 k)) ->
  copy_upper s2 from n = copy_upper s1 from n.
Proof.
  induction n as [|n IH]; intros from H; simpl; [reflexivity|].
  rewrite (H from) by lia. f_equal. apply IH. intros k Hk. apply H. lia.
Qed.

(** X14 ([lexemeToName]).  A symbol name is the lexeme in upper case, cut
    to [SYMLEN - 1 = 6] characters: the name has at most 6 characters and no
    lower case letter; characters of the lexeme after the sixth do not
    matter, and neither does the case of its letters. *)
Theorem lexemeToName_six_significant st from term :
  strlen (lexemeToName st from term) <= 6 /\
  all_chars (fun c => negb (islower c)) (lexemeToName st from term) = true /\
  (forall term', from + 6 <= term -> from + 6 <= term' ->
                 lexemeToName st from term' = lexemeToName st from term) /\
  (forall st2,
     (forall k, from <= k < Z.min term (from + 6) ->
                toupper (cur st2 k) = toupper (cur st k)) ->
     lexemeToName st2 from term = lexemeToName st from term).
Proof.
  unfold lexemeToName, strlen. change (SYMLEN - 1) with 6.
  split; [|split; [|split]].
  - pose proof (c_string_length
                  (copy_upper (line (lexs st)) from (Z.to_nat (Z.min (term - from) 6)))) as H.
    rewrite copy_upper_length in H. lia.
  - apply c_string_all, copy_upper_all.
  - intros term' H1 H2. rewrite !Z.min_r by lia. reflexivity.
  - intros st2 H. f_equal. apply copy_upper_ext. intros k Hk. apply H. lia.
Qed.

(** *** The lexer stays within the line *)

Lemma str_at_beyond s i : strlen s <= i -> str_at s i = NUL.
Proof.
  unfold str_at, strlen. intros H.
  destruct (Z.ltb_spec i 0); [reflexivity|].
  assert (G : forall (t : string) (n : nat), (String.length t <= n)%nat -> String.get n t = None).
  { induction t as [|c t IH]; intros n Hn; [destruct n; reflexivity|].
    destruct n as [|n]; simpl in *; [lia | apply IH; lia]. }
  rewrite G by lia. reflexivity.
Qed.

Lemma str_at_drop s : forall (n : nat) k,
  0 <= k -> str_at (drop_str n s) k = str_at s (Z.of_nat n + k).
Proof.
  induction s as [|c s IH]; intros n k Hk.
  - destruct n; simpl; unfold str_at;
      repeat match goal with |- context [?a <? 0] => destruct (Z.ltb_spec a 0); try lia end;
      destruct (Z.to_nat _); reflexivity.
  - destruct n as [|n]; [simpl; f_equal; lia|].
    cbn [drop_str]. rewrite IH by lia. unfold str_at.
    destruct (Z.ltb_spec (Z.of_nat n + k) 0); [lia|].
    destruct (Z.ltb_spec (Z.of_nat (S n) + k) 0); [lia|].
    replace (Z.to_nat (Z.of_nat (S n) + k)) with (S (Z.to_nat (Z.of_nat n + k))) by lia.
    reflexivity.
Qed.

Lemma drop_str_length s : forall n : nat,
  String.length (drop_str n s) = (String.length s - n)%nat.
Proof.
  induction s as [|c s IH]; intros [|n]; simpl; try reflexivity. apply IH.
Qed.

Lemma span_len_spec p s :
  0 <= span_len p s <= strlen s /\
  (forall k, 0 <= k < span_len p s -> p (str_at s k) = true) /\
  (span_len p s < strlen s -> p (str_at s (span_len p s)) = false).
Proof.
  unfold strlen. induction s as [|c s (IH1 & IH2 & IH3)]; cbn [span_len String.length].
  - split; [lia|]. split; intros; lia.
  - destruct (p c) eqn:E.
    + split; [lia|]. split.
      * intros k Hk. destruct (Z.eq_dec k 0) as [->|N]; [exact E|].
        unfold str_at. destruct (Z.ltb_spec k 0); [lia|].
        replace (Z.to_nat k) with (S (Z.to_nat (k - 1))) by lia. cbn [String.get].
        specialize (IH2 (k - 1) ltac:(lia)). unfold str_at in IH2.
        destruct (Z.ltb_spec (k - 1) 0); [lia | exact IH2].
      * intros H. specialize (IH3 ltac:(lia)). unfold str_at in *.
        destruct (Z.ltb_spec (span_len p s) 0); [lia|].
        destruct (Z.ltb_spec (1 + span_len p s) 0); [lia|].
        replace (Z.to_nat (1 + span_len p s)) with (S (Z.to_nat (span_len p s))) by lia.
        exact IH3.
    + split; [lia|]. split; [intros; lia|]. intros _. exact E.
Qed.

(** [skip] moves [cc] over the characters that satisfy [p], and not past
    the end of the line. *)
Lemma skip_spec p st :
  0 <= cc (lexs st) <= strlen (line (lexs st)) ->
  skip p st = set_cc (cc (lexs (skip p st))) st /\
  cc (lexs st) <= cc (lexs (skip p st)) <= strlen (line (lexs st)) /\
  (forall k, cc (lexs st) <= k < cc (lexs (skip p st)) -> p (cur st k) = true) /\
  (cc (lexs (skip p st)) < strlen (line (lexs st)) ->
   p (cur st (cc (lexs (skip p st)))) = false).
Proof.
  intros Hcc. unfold skip.
  remember (drop_str (Z.to_nat (cc (lexs st))) (line (lexs st))) as t eqn:Et.
  destruct (span_len_spec p t) as (S1 & S2 & S3).
  assert (Lt : strlen t = strlen (line (lexs st)) - cc (lexs st)).
  { unfold strlen. rewrite Et, drop_str_length. unfold strlen in Hcc. lia. }
  assert (At : forall k, 0 <= k -> str_at t k = cur st (cc (lexs st) + k)).
  { intros k Hk. rewrite Et. unfold cur. rewrite str_at_drop by lia. f_equal. lia. }
  cbn [lexs set_cc with_lexs cc].
  split; [reflexivity|]. split; [lia|]. split.
  - intros k Hk. specialize (S2 (k - cc (lexs st)) ltac:(lia)).
    rewrite At in S2 by lia. replace (cc (lexs st) + (k - cc (lexs st))) with k in S2 by lia.
    exact S2.
  - intros H. rewrite <- At by lia. apply S3. lia.
Qed.

Lemma errorMessage_lexs m c st : lexs (errorMessage m c st) = lexs st.
Proof. unfold errorMessage, log_error. destruct (_ =? 2); reflexivity. Qed.

Lemma is_blank_NUL : is_blank NUL = false.
Proof. reflexivity. Qed.

Lemma isalnum_NUL : isalnum NUL = false.
Proof. reflexivity. Qed.

Lemma isend_NUL : isend NUL = true.
Proof. reflexivity. Qed.

(** X15 ([nextLexeme]).  The lexer stays within the line.  From a column
    inside the line, [nextLexeme] skips blanks and delimits the next lexeme
    at or after that column, with [cc = lexterm] not past the end of the
    line; the characters skipped are blanks and the lexeme does not start
    with one; a lexeme that starts with a letter or digit is the longest run
    of letters and digits; the previous lexeme is remembered. *)
Theorem nextLexeme_within_line st :
  0 <= cc (lexs st) <= strlen (line (lexs st)) ->
  maxcc (lexs st) = strlen (line (lexs st)) ->
  let st' := nextLexeme st in
  line (lexs st') = line (lexs st) /\
  cc (lexs st) <= lexstart (lexs st') <= lexterm (lexs st') /\
  lexterm (lexs st') = cc (lexs st') /\
  cc (lexs st') <= strlen (line (lexs st)) /\
  (forall k, cc (lexs st) <= k < lexstart (lexs st') -> is_blank (cur st k) = true) /\
  is_blank (cur st (lexstart (lexs st'))) = false /\
  (isalnum (cur st (lexstart (lexs st'))) = true ->
   (forall k, lexstart (lexs st') <= k < lexterm (lexs st') -> isalnum (cur st k) = true) /\
   isalnum (cur st (lexterm (lexs st'))) = false) /\
  lexstartprev (lexs st') = lexstart (lexs st) /\
  lextermprev (lexs st') = lexterm (lexs st).
Proof.
  intros Hcc Hmax. cbv zeta. unfold nextLexeme. cbv zeta.
  set (st1 := set_lextermprev (lexterm (lexs st)) (set_lexstartprev (lexstart (lexs st)) st)).
  assert (H1 : 0 <= cc (lexs st1) <= strlen (line (lexs st1))) by exact Hcc.
  destruct (skip_spec is_blank st1 H1) as (K1 & K2 & K3 & K4).
  set (c2 := cc (lexs (skip is_blank st1))) in *.
  rewrite K1. clear K1.
  change (cc (lexs st1)) with (cc (lexs st)) in *.
  change (line (lexs st1)) with (line (lexs st)) in *.
  assert (Cst1 : forall k, cur st1 k = cur st k) by reflexivity.
  assert (Hblank : is_blank (cur st c2) = false).
  { destruct (Z.eq_dec c2 (strlen (line (lexs st)))) as [E|N].
    - unfold cur. rewrite str_at_beyond by lia. reflexivity.
    - rewrite <- Cst1. apply K4. lia. }
  set (st3 := set_lexstart c2 (set_cc c2 st1)).
  assert (L3 : lexs st3 = mkLexer (infile (lexs st)) (line (lexs st)) (lineno (lexs st)) c2
                            (maxcc (lexs st)) c2 (lexterm (lexs st)) (lexstart (lexs st))
                            (lexterm (lexs st)) (delimiter (lexs st))
                            (indirect_generated (lexs st))) by reflexivity.
  assert (C3 : forall k, cur st3 k = cur st k) by reflexivity.
  change (cc (lexs (set_cc c2 st1))) with c2.
  fold st3. change (cc (lexs st3)) with c2. rewrite C3.
  change (maxcc (lexs st3)) with (maxcc (lexs st)). change (lexstart (lexs st3)) with c2.
  destruct (isalnum (cur st c2)) eqn:Ealnum.
  - assert (H3 : 0 <= c2 <= strlen (line (lexs st))) by lia.
    destruct (skip_spec isalnum st3 H3) as (J1 & J2 & J3 & J4).
    set (c4 := cc (lexs (skip isalnum st3))) in *.
    rewrite J1. clear J1.
    change (cc (lexs st3)) with c2 in *. change (line (lexs st3)) with (line (lexs st)) in *.
    cbn [lexs set_lexterm set_cc with_lexs line cc lexstart lexterm lexstartprev lextermprev].
    rewrite L3. cbn [line cc lexstart lexterm lexstartprev lextermprev].
    repeat (split; try lia; try assumption; try reflexivity).
    destruct (Z.eq_dec c4 (strlen (line (lexs st)))) as [E|N].
    + unfold cur. rewrite str_at_beyond by lia. reflexivity.
    + rewrite <- C3. apply J4. lia.
  - assert (Fin : forall d st4,
              lexs st4 = lexs (set_cc (c2 + d) st3) -> 0 <= d -> c2 + d <= strlen (line (lexs st)) ->
              line (lexs (set_lexterm (cc (lexs st4)) st4)) = line (lexs st) /\
              cc (lexs st) <= lexstart (lexs (set_lexterm (cc (lexs st4)) st4))
                <= lexterm (lexs (set_lexterm (cc (lexs st4)) st4)) /\
              lexterm (lexs (set_lexterm (cc (lexs st4)) st4))
                = cc (lexs (set_lexterm (cc (lexs st4)) st4)) /\
              cc (lexs (set_lexterm (cc (lexs st4)) st4)) <= strlen (line (lexs st)) /\
              (forall k, cc (lexs st) <= k < lexstart (lexs (set_lexterm (cc (lexs st4)) st4)) ->
                         is_blank (cur st k) = true) /\
              is_blank (cur st (lexstart (lexs (set_lexterm (cc (lexs st4)) st4)))) = false /\
              (isalnum (cur st (lexstart (lexs (set_lexterm (cc (lexs st4)) st4)))) = true ->
               (forall k, lexstart (lexs (set_lexterm (cc (lexs st4)) st4)) <= k
                          < lexterm (lexs (set_lexterm (cc (lexs st4)) st4)) ->
                          isalnum (cur st k) = true) /\
               isalnum (cur st (lexterm (lexs (set_lexterm (cc (lexs st4)) st4)))) = false) /\
              lexstartprev (lexs (set_lexterm (cc (lexs st4)) st4)) = lexstart (lexs st) /\
              lextermprev (lexs (set_lexterm (cc (lexs st4)) st4)) = lexterm (lexs st)).
    { intros d st4 E4 Hd Hle.
      cbn [lexs set_lexterm with_lexs line cc lexstart lexterm lexstartprev lextermprev].
      rewrite E4. cbn [lexs set_cc with_lexs line cc lexstart lexterm lexstartprev lextermprev].
      rewrite L3. cbn [line cc lexstart lexterm lexstartprev lextermprev].
      repeat (split; try lia; try assumption; try reflexivity); congruence. }
    assert (Hin : isend (cur st c2) = false -> c2 < strlen (line (lexs st))).
    { intros Hne. destruct (Z.lt_ge_cases c2 (strlen (line (lexs st)))) as [L|G]; [exact L|].
      unfold cur in Hne. rewrite str_at_beyond in Hne by lia. discriminate. }
    destruct (isend (cur st c2)) eqn:Eend.
    + apply (Fin 0 st3); [rewrite Z.add_0_r; reflexivity | lia | lia].
    + specialize (Hin eq_refl).
      destruct (chr (cur st c2) DQUOTE).
      * destruct (Z.ltb_spec (c2 + 2) (maxcc (lexs st))).
        -- apply (Fin 2); [reflexivity | lia | lia].
        -- apply (Fin 1); [|lia | lia].
           cbn [lexs set_cc with_lexs]. rewrite errorMessage_lexs. reflexivity.
      * destruct (chr (cur st c2) "/").
        -- apply (Fin 0 st3); [rewrite Z.add_0_r; reflexivity | lia | lia].
        -- apply (Fin 1); [reflexivity | lia | lia].
Qed.

Lemma nextLexeme_within_line_witness :
  let st := set_cc 3 off_page_state in
  let st' := nextLexeme st in
  line (lexs st') = line (lexs st) /\
  cc (lexs st) <= lexstart (lexs st') <= lexterm (lexs st') /\
  lexterm (lexs st') = cc (lexs st') /\
  cc (lexs st') <= strlen (line (lexs st)) /\
  (forall k, cc (lexs st) <= k < lexstart (lexs st') -> is_blank (cur st k) = true) /\
  is_blank (cur st (lexstart (lexs st'))) = false /\
  (isalnum (cur st (lexstart (lexs st'))) = true ->
   (forall k, lexstart (lexs st') <= k < lexterm (lexs st') -> isalnum (cur st k) = true) /\
   isalnum (cur st (lexterm (lexs st'))) = false) /\
  lexstartprev (lexs st') = lexstart (lexs st) /\
  lextermprev (lexs st') = lexterm (lexs st).
Proof.
  apply (nextLexeme_within_line (set_cc 3 off_page_state)).
  - vm_compute. split; discriminate.
  - vm_compute. reflexivity.
Defined.

(** *** [readLine] *)


Lemma spaces_length n s : String.length (spaces n s) = (n + String.length s)%nat.
Proof. induction n as [|n IH]; simpl; [reflexivity | rewrite IH; lia]. Qed.













(** Twelve TABs expand to 96 columns, one more than [line] can hold. *)
Example twelve_tabs_overrun :
  readLine (set_infile (String.concat EmptyString (repeat (String TAB EmptyString) 12))
              (startup false false false EmptyString))
  = Fault LineOverrun.
Proof. vm_compute. reflexivity. Qed.

(** *** The end of the file *)

Lemma readLine_eof st :
  infile (lexs st) = EmptyString -> readLine st = Ok (tt, eof_line st).
Proof.
  intros E. unfold readLine. cbv zeta.
  change (infile (lexs (set_lexstartprev 0 (set_cc 0 (set_indirect_generated false
            (set_lineno (lineno (lexs st) + 1) st)))))) with (infile (lexs st)).
  rewrite E. reflexivity.
Qed.

Lemma nextLexeme_eof_line st :
  lexs (nextLexeme (eof_line st)) =
    mkLexer (infile (lexs st)) (String "$" (String NL EmptyString)) (lineno (lexs st) + 1)
            1 2 0 1 (lexstart (lexs st)) (lexterm (lexs st)) (delimiter (lexs st)) false /\
  errs (nextLexeme (eof_line st)) = errs (eof_line st).
Proof. split; reflexivity. Qed.

Lemma punch_pool_words_errs p page n : forall l st,
  errs (punch_pool_words p page l n st) = errs st.
Proof.
  induction n as [|n IH]; intros l st; cbn [punch_pool_words]; [reflexivity|].
  cbv zeta. rewrite IH. apply punchLocObject_errs.
Qed.

Lemma put_pool_errs w p st : errs (put_pool w p st) = errs st.
Proof. destruct w; reflexivity. Qed.

Lemma put_pool_lexs w p st : lexs (put_pool w p st) = lexs st.
Proof. destruct w; reflexivity. Qed.

Lemma punchLiteralPool_errs w page st : errs (punchLiteralPool w page st) = errs st.
Proof.
  unfold punchLiteralPool. cbv zeta. destruct (_ <? 128); [|reflexivity].
  rewrite put_pool_errs, punch_pool_words_errs.
  destruct (rim_mode (mach st)); [reflexivity | apply punchOrigin_errs].
Qed.

Lemma statement_dollar k st :
  cur st (lexstart (lexs st)) = "$"%char ->
  statement k st = Ok (EndPass, endOfBinary st).
Proof.
  intros E. unfold statement, bind. cbn [get]. cbv zeta. rewrite E. reflexivity.
Qed.

(** X17 ([readLine], [onePass], [endOfBinary]).  At the head of the line
    loop of [onePass] with the source exhausted, the pass ends as for a line
    [$]: [readLine] supplies that line and counts it, both pools are
    flushed and the error flag of the line is set; in pass two exactly one
    line, ND, is added to the error file, for line [lineno + 1], where
    [lineno] counts the lines read before (when the file ends inside a
    skipped conditional, [conditionFalse] has read one such line already).
    In pass one nothing is reported. *)
Theorem pass_ends_at_end_of_file k st :
  infile (lexs st) = EmptyString ->
  exists st',
    onePass_loop (S (S k)) st = Ok (tt, st') /\
    error_in_line (errs st') = true /\
    128 <= loc (cp (lits st')) /\ 128 <= loc (pz (lits st')) /\
    (pass (mach st) = 2 ->
     errors (errs st') = errors (errs st) + 1 /\
     exists c, errorfile (errs st') =
               errorfile (errs st) ++ [mkErr end_of_file None (lineno (lexs st) + 1) (-1) c]) /\
    (pass (mach st) <> 2 ->
     errors (errs st') = errors (errs st) /\ errorfile (errs st') = errorfile (errs st)).
Proof.
  intros E. exists (endOfBinary (nextLexeme (eof_line st))).
  destruct (nextLexeme_eof_line st) as (Lx & Er).
  set (s2 := nextLexeme (eof_line st)) in *.
  split.
  { cbn [onePass_loop]. unfold bind. rewrite (readLine_eof st E). cbn [modify].
    fold s2. cbn [scan_line]. unfold bind.
    rewrite (statement_dollar k s2); [reflexivity|].
    unfold cur. rewrite Lx. reflexivity. }
  unfold endOfBinary. cbv zeta.
  set (s3 := punchLiteralPool CP (w16 (clc (mach s2) - 1)) s2).
  set (s4 := punchLiteralPool PZ 0 s3).
  assert (E4 : errs s4 = errs (eof_line st)).
  { unfold s4, s3. rewrite !punchLiteralPool_errs. exact Er. }
  assert (M4 : mach s4 = mach st).
  { unfold s4, s3.
    rewrite (proj2 (punchLiteralPool_frame PZ 0 _)), (proj2 (punchLiteralPool_frame CP _ s2)).
    destruct (nextLexeme_quiet (eof_line st)) as (Q & _). fold s2 in Q. rewrite Q.
    reflexivity. }
  assert (X4 : lexs s4 = lexs s2).
  { unfold s4, s3.
    rewrite (proj1 (punchLiteralPool_frame PZ 0 _)), (proj1 (punchLiteralPool_frame CP _ s2)).
    reflexivity. }
  assert (L4 : 128 <= loc (cp (lits s4)) /\ 128 <= loc (pz (lits s4))).
  { destruct (punchLiteralPool_loc CP (w16 (clc (mach s2) - 1)) s2) as (_ & A & _).
    destruct (punchLiteralPool_loc PZ 0 s3) as (_ & B & C).
    cbv zeta in A, B, C. fold s3 in A. fold s4 in B, C.
    unfold other_pool, get_pool in *. rewrite C. split; assumption. }
  replace (error_in_line (errs s4)) with true by (rewrite E4; reflexivity).
  set (c1 := w16 (Z.land (clc (mach s4)) 28672 + Z.land (clc (mach s4) - 1) 4095)).
  set (s5 := errorMessage end_of_file (-1) (set_clc c1 s4)).
  split; [reflexivity|].
  assert (Q5 : lits s5 = lits s4).
  { destruct (errorMessage_quiet end_of_file (-1) (set_clc c1 s4)) as (_ & _ & Q).
    exact Q. }
  split; [cbn [lits set_clc with_mach]; rewrite Q5; apply L4|].
  split; [cbn [lits set_clc with_mach]; rewrite Q5; apply L4|].
  cbn [errs set_clc with_mach]. unfold s5, errorMessage, log_error.
  cbn [mach set_clc with_mach pass lexs clc errs]. rewrite M4.
  split.
  - intros P2. rewrite P2. cbn [errs set_error_in_line set_errorfile set_errors with_errs
                                errors errorfile set_clc with_mach lexs].
    rewrite E4, X4, Lx. cbn [lineno]. split; [reflexivity|]. exists c1. reflexivity.
  - intros P2. apply Z.eqb_neq in P2. rewrite P2.
    cbn [errs set_error_in_line with_errs errors errorfile set_clc with_mach].
    rewrite E4. split; reflexivity.
Qed.

Lemma pass_ends_at_end_of_file_witness :
  exists st',
    onePass_loop 2 encoder_state = Ok (tt, st') /\
    error_in_line (errs st') = true /\
    128 <= loc (cp (lits st')) /\ 128 <= loc (pz (lits st')) /\
    (pass (mach encoder_state) = 2 ->
     errors (errs st') = errors (errs encoder_state) + 1 /\
     exists c, errorfile (errs st') =
               errorfile (errs encoder_state)
               ++ [mkErr end_of_file None (lineno (lexs encoder_state) + 1) (-1) c]) /\
    (pass (mach encoder_state) <> 2 ->
     errors (errs st') = errors (errs encoder_state) /\
     errorfile (errs st') = errorfile (errs encoder_state)).
Proof. apply (pass_ends_at_end_of_file 0 encoder_state). reflexivity. Defined.

(** * Numbers and the words of a directive *)

(** ** Numerals of [eval] *)

Lemma w16_congr a b : a mod 65536 = b mod 65536 -> w16 a = w16 b.
Proof.
  intros H. unfold w16. f_equal.
  rewrite <- (Zplus_mod_idemp_l a), <- (Zplus_mod_idemp_l b), H. reflexivity.
Qed.

Lemma w16_horner v r d : w16 (w16 v * r + d) = w16 (v * r + d).
Proof.
  apply w16_congr.
  rewrite <- (Zplus_mod_idemp_l (w16 v * r)), <- (Zmult_mod_idemp_l (w16 v)), w16_mod.
  rewrite Zmult_mod_idemp_l, Zplus_mod_idemp_l. reflexivity.
Qed.

(** A run of [n] digits below the radix is read without an error; the loop
    goes on behind it with their value. *)
Lemma eval_number_prefix st (n : nat) : forall (m : nat) from v,
  (forall k, from <= k < from + Z.of_nat n ->
             isdigit (cur st k) = true /\ digit_at st k < radix (mach st)) ->
  from + Z.of_nat n <= lexterm (lexs st) ->
  -32768 <= v < 32768 ->
  eval_number (n + m) from v st =
  eval_number m (from + Z.of_nat n)
    (w16 (v * radix (mach st) ^ Z.of_nat n + positional (radix (mach st)) st from n)) st.
Proof.
  induction n as [|n IH]; intros m from v Hd Ht Hv.
  - cbn [positional Nat.add]. rewrite Z.add_0_r. change (Z.of_nat 0) with 0.
    rewrite Z.pow_0_r, Z.mul_1_r, Z.add_0_r, w16_small by exact Hv. reflexivity.
  - cbn [Nat.add eval_number].
    destruct (Hd from ltac:(lia)) as (D1 & D2).
    replace (from <? lexterm (lexs st)) with true by (symmetry; apply Z.ltb_lt; lia).
    rewrite D1. fold (digit_at st from).
    replace (digit_at st from <? radix (mach st)) with true
      by (symmetry; apply Z.ltb_lt; exact D2).
    rewrite IH; [| intros k Hk; apply Hd; lia | lia | apply w16_range].
    cbn [positional].
    replace (from + 1 + Z.of_nat n) with (from + Z.of_nat (S n)) by lia.
    f_equal. apply w16_congr.
    rewrite <- (Zplus_mod_idemp_l (w16 _ * _)), <- (Zmult_mod_idemp_l (w16 _)), w16_mod.
    rewrite Zmult_mod_idemp_l, Zplus_mod_idemp_l. f_equal.
    rewrite Nat2Z.inj_succ, Z.pow_succ_r by lia. ring.
Qed.

(** X18 ([eval]).  A number is read in the current radix.  When every
    character of the lexeme is a digit below the radix, the value is the
    number the digits spell in that radix, wrapped to 16 bits, and nothing is
    reported.  At the first digit that is not below the radix the value is 0
    and [number_not_radix] is reported at that column; at the first
    character that is no digit the value is 0 and [not_a_number] is reported
    at the start of the lexeme. *)
Theorem eval_number_radix st j :
  let r := radix (mach st) in
  let a := lexstart (lexs st) in
  let b := lexterm (lexs st) in
  a <= j <= b ->
  (forall k, a <= k < j -> isdigit (cur st k) = true /\ digit_at st k < r) ->
  let res := eval_number (Z.to_nat (b - a)) a 0 st in
  (j = b -> res = (w16 (positional r st a (Z.to_nat (b - a))), st)) /\
  (j < b -> isdigit (cur st j) = true -> r <= digit_at st j ->
   res = (0, errorLexeme number_not_radix j st)) /\
  (j < b -> isdigit (cur st j) = false ->
   res = (0, errorLexeme not_a_number a st)).
Proof.
  intros r a b Hj Hd res.
  assert (P : forall m : nat,
             eval_number (Z.to_nat (j - a) + m) a 0 st =
             eval_number m j (w16 (positional r st a (Z.to_nat (j - a)))) st).
  { intros m. rewrite eval_number_prefix.
    - rewrite Z.mul_0_l, Z.add_0_l. f_equal. lia.
    - intros k Hk. apply Hd. lia.
    - fold b. lia.
    - lia. }
  assert (S1 : forall m : nat, j < b -> Z.to_nat (b - a) = (Z.to_nat (j - a) + S m)%nat ->
               res = match eval_number (S m) j (w16 (positional r st a (Z.to_nat (j - a)))) st
                     with x => x end).
  { intros m _ E. unfold res. rewrite E. apply P. }
  split; [|split].
  - intros ->. unfold res. specialize (P 0%nat). rewrite Nat.add_0_r in P. exact P.
  - intros Hlt D1 D2.
    rewrite (S1 (Z.to_nat (b - j - 1)) Hlt ltac:(lia)).
    cbn [eval_number]. fold b.
    replace (j <? b) with true by (symmetry; apply Z.ltb_lt; lia).
    rewrite D1. fold (digit_at st j). fold r.
    replace (digit_at st j <? r) with false by (symmetry; apply Z.ltb_ge; exact D2).
    reflexivity.
  - intros Hlt D1.
    rewrite (S1 (Z.to_nat (b - j - 1)) Hlt ltac:(lia)).
    cbn [eval_number]. fold b.
    replace (j <? b) with true by (symmetry; apply Z.ltb_lt; lia).
    rewrite D1. reflexivity.
Qed.

Lemma eval_number_radix_witness :
  eval_number 3 0 0 (number_state 8 "517") = (w16 335, number_state 8 "517") /\
  eval_number 3 0 0 (number_state 8 "581")
    = (0, errorLexeme number_not_radix 1 (number_state 8 "581")).
Proof.
  split.
  - apply (proj1 (eval_number_radix (number_state 8 "517") 3
             ltac:(vm_compute; split; discriminate)
             ltac:(intros k Hk;
                   assert (C : k = 0 \/ k = 1 \/ k = 2) by (change (0 <= k < 3) in Hk; lia);
                   destruct C as [-> | [-> | ->]]; vm_compute; split; reflexivity))).
    reflexivity.
  - apply (proj1 (proj2 (eval_number_radix (number_state 8 "581") 1
             ltac:(vm_compute; split; discriminate)
             ltac:(intros k Hk;
                   assert (C : k = 0) by (change (0 <= k < 1) in Hk; lia);
                   rewrite C; vm_compute; split; reflexivity)))).
    + reflexivity.
    + reflexivity.
    + vm_compute. discriminate.
Defined.

(** ** Words of TEXT and ZBLOCK *)

Lemma emit_word_lexs v st : lexs (emit_word v st) = lexs st.
Proof.
  unfold emit_word, punchOutObject.
  destruct (incrementClc_frame (punchLocObject (clc (mach st)) v st)) as (A & _).
  rewrite A. apply punchLocObject_lexs.
Qed.

Lemma emit_words_lexs ws : forall st, lexs (emit_words ws st) = lexs st.
Proof.
  induction ws as [|w ws IH]; intros st; [reflexivity|].
  change (emit_words (w :: ws) st) with (emit_words ws (emit_word w st)).
  rewrite IH. apply emit_word_lexs.
Qed.

Lemma emit_words_app a b st : emit_words (a ++ b) st = emit_words b (emit_words a st).
Proof. unfold emit_words. apply foldl_app. Qed.

(** In BIN mode each word is two frames on the tape and one step of the
    location counter. *)
Lemma emit_words_bin ws : forall st,
  rim_mode (mach st) = false -> objectfile (enc st) = true ->
  rim_mode (mach (emit_words ws st)) = false /\
  objectfile (enc (emit_words ws st)) = true /\
  object_out (enc (emit_words ws st)) = object_out (enc st) ++ concat (map data_frames ws) /\
  clc (mach (emit_words ws st)) = Nat.iter (length ws) next_clc (clc (mach st)).
Proof.
  induction ws as [|w ws IH]; intros st Hr Ho.
  - cbn. rewrite app_nil_r. repeat split; assumption.
  - change (emit_words (w :: ws) st) with (emit_words ws (emit_word w st)).
    destruct (word_in_bin w st Hr Ho) as (_ & A2 & A3 & A4 & A5).
    destruct (IH _ A2 A3) as (B1 & B2 & B3 & B4).
    rewrite B3, B4, A4, A5. cbn [map concat length].
    rewrite <- app_assoc, Nat.iter_succ_r. repeat split; assumption.
Qed.

(** [n] steps of the location counter stay in the field and move the
    address by [n] modulo 4096. *)
Lemma iter_next_clc (n : nat) c :
  Z.land (Nat.iter n next_clc c) 28672 = Z.land c 28672 /\
  Z.land (Nat.iter n next_clc c) 4095 = (Z.land c 4095 + Z.of_nat n) mod 4096.
Proof.
  induction n as [|n (IH1 & IH2)].
  - change (Nat.iter 0 next_clc c) with c. split; [reflexivity|].
    rewrite Z.add_0_r. symmetry. apply Z.mod_small.
    change 4095 with (Z.ones 12). rewrite Z.land_ones by lia.
    apply Z.mod_pos_bound. lia.
  - change (Nat.iter (S n) next_clc c) with (next_clc (Nat.iter n next_clc c)).
    set (d := Nat.iter n next_clc c) in *. unfold next_clc.
    destruct (field_and_offset d (d + 1)) as (R & A & B). cbv zeta in R, A, B.
    rewrite w16_small by lia. rewrite A, B, IH1. split; [reflexivity|].
    change 4095 with (Z.ones 12) in *. rewrite Z.land_ones in * by lia.
    change (2 ^ 12) with 4096 in *.
    rewrite <- Zplus_mod_idemp_l, IH2, Zplus_mod_idemp_l. f_equal. lia.
Qed.

Lemma pair_ind {A} (P : list A -> Prop) :
  P [] -> (forall a, P [a]) -> (forall a b l, P l -> P (a :: b :: l)) -> forall l, P l.
Proof.
  intros H0 H1 H2 l.
  assert (G : P l /\ forall a, P (a :: l)).
  { induction l as [|b l (IH1 & IH2)]; [split; [exact H0 | exact H1]|].
    split; [apply IH2|]. intros a. apply H2, IH1. }
  apply G.
Qed.

Lemma sixbit_words_length cs :
  Z.of_nat (length (sixbit_words cs)) = Z.of_nat (length cs) / 2 + 1.
Proof.
  induction cs as [| a | a b l IH] using pair_ind; [reflexivity | reflexivity |].
  cbn [sixbit_words length]. rewrite !Nat2Z.inj_succ, IH.
  replace (Z.succ (Z.succ (Z.of_nat (length l)))) with (Z.of_nat (length l) + 1 * 2) by lia.
  rewrite Z.div_add by lia. lia.
Qed.

(** The packing loop on the characters [cs] of the string: it stops behind
    them, and the word made of what it holds then completes the words of the
    string. *)
Lemma text_loop_run st0 delim cs : forall (n : nat) index st,
  lexs st = lexs st0 -> (length cs <= n)%nat ->
  (forall i : nat, (i < length cs)%nat ->
     cur st0 (index + Z.of_nat i) = nth i cs NUL /\
     chr (nth i cs NUL) delim = false /\ isend (nth i cs NUL) = false) ->
  chr (cur st0 (index + Z.of_nat (length cs))) delim
    || isend (cur st0 (index + Z.of_nat (length cs))) = true ->
  exists pack count st',
    text_loop n delim index 0 0 st = (index + Z.of_nat (length cs), pack, count, st') /\
    lexs st' = lexs st0 /\
    emit_word (if negb (count =? 0) then Z.shiftl pack 6 else 0) st'
      = emit_words (sixbit_words cs) st.
Proof.
  assert (C : forall s k, lexs s = lexs st0 -> cur s k = cur st0 k).
  { intros s k E. unfold cur. rewrite E. reflexivity. }
  assert (Stop : forall n index pack count s, lexs s = lexs st0 ->
            chr (cur st0 index) delim || isend (cur st0 index) = true ->
            text_loop n delim index pack count s = (index, pack, count, s)).
  { intros [|n] index pack count s E H; [reflexivity|].
    apply text_loop_stop. rewrite (C s index E).
    apply orb_true_iff in H as [-> | ->]; [reflexivity | apply andb_false_r]. }
  assert (Go : forall c, chr c delim = false -> isend c = false ->
                         negb (chr c delim) && negb (isend c) = true).
  { intros c -> ->. reflexivity. }
  induction cs as [| a | a b l IH] using pair_ind; intros n index st E Hn Hc Hs.
  - cbn [length] in *. change (Z.of_nat 0) with 0 in *. rewrite Z.add_0_r in *.
    exists 0, 0, st. split; [apply Stop; assumption|]. split; [exact E | reflexivity].
  - cbn [length] in *. change (Z.of_nat 1) with 1 in *.
    destruct n as [|n]; [lia|].
    destruct (Hc 0%nat ltac:(lia)) as (H1 & H2 & H3).
    change (Z.of_nat 0) with 0 in H1. rewrite Z.add_0_r in H1.
    change (nth 0 [a] NUL) with a in *.
    rewrite text_loop_first by (rewrite (C st index E), H1; apply Go; assumption).
    rewrite (C st index E), H1.
    eexists _, 1, st. split; [apply Stop; assumption|]. split; [exact E|].
    cbn [negb Z.eqb sixbit_words emit_words foldl].
    change (Z.shiftl 0 6) with 0. rewrite Z.lor_0_l. reflexivity.
  - cbn [length] in *.
    destruct n as [|[|n]]; [lia | lia |].
    destruct (Hc 0%nat ltac:(lia)) as (H1 & H2 & H3).
    destruct (Hc 1%nat ltac:(lia)) as (K1 & K2 & K3).
    change (Z.of_nat 0) with 0 in H1. rewrite Z.add_0_r in H1.
    change (Z.of_nat 1) with 1 in K1.
    change (nth 0 (a :: b :: l) NUL) with a in *.
    change (nth 1 (a :: b :: l) NUL) with b in *.
    rewrite text_loop_first by (rewrite (C st index E), H1; apply Go; assumption).
    rewrite (C st index E), H1.
    rewrite text_loop_second by (rewrite (C st (index + 1) E), K1; apply Go; assumption).
    rewrite (C st (index + 1) E), K1.
    change (Z.shiftl 0 6) with 0. rewrite Z.lor_0_l.
    fold (sixbit a) (sixbit b).
    match goal with
    | |- context [text_loop n delim _ 0 0 ?s] =>
        change s with (emit_word (Z.lor (Z.shiftl (sixbit a) 6) (sixbit b)) st);
        destruct (IH n (index + 1 + 1) (emit_word (Z.lor (Z.shiftl (sixbit a) 6) (sixbit b)) st))
          as (pack & count & st' & R1 & R2 & R3)
    end.
    + rewrite emit_word_lexs. exact E.
    + lia.
    + intros i Hi. specialize (Hc (S (S i)) ltac:(lia)).
      replace (index + 1 + 1 + Z.of_nat i) with (index + Z.of_nat (S (S i))) by lia.
      exact Hc.
    + replace (index + 1 + 1 + Z.of_nat (length l))
        with (index + Z.of_nat (S (S (length l)))) by lia.
      exact Hs.
    + exists pack, count, st'. split; [|split; [exact R2 | exact R3]].
      rewrite R1. do 3 f_equal. lia.
Qed.

Lemma not_end_in_line st k : isend (cur st k) = false -> k < strlen (line (lexs st)).
Proof.
  intros H. destruct (Z.lt_ge_cases k (strlen (line (lexs st)))) as [L|G]; [exact L|].
  unfold cur in H. rewrite str_at_beyond in H by exact G. discriminate.
Qed.

Lemma line_chars_nth st from (n i : nat) :
  (i < n)%nat -> nth i (line_chars st from n) NUL = cur st (from + Z.of_nat i).
Proof.
  intros H. unfold line_chars.
  rewrite (nth_indep _ NUL (cur st (from + Z.of_nat 0%nat)))
    by (rewrite length_map, length_seq; exact H).
  rewrite (map_nth (fun i : nat => cur st (from + Z.of_nat i))), seq_nth by exact H.
  reflexivity.
Qed.

Lemma line_chars_length st from n : length (line_chars st from n) = n.
Proof. unfold line_chars. rewrite length_map, length_seq. reflexivity. Qed.

(** TEXT on a string of [n] characters, in general. *)
Lemma TEXT_packs_sixbit fuel st (n : nat) :
  let delim := cur st (lexstart (lexs st)) in
  let from := lexstart (lexs st) + 1 in
  let stop := from + Z.of_nat n in
  let ws := sixbit_words (line_chars st from n) in
  0 <= lexstart (lexs st) < strlen (line (lexs st)) ->
  (forall k, from <= k < stop -> chr (cur st k) delim = false /\ isend (cur st k) = false) ->
  chr (cur st stop) delim || isend (cur st stop) = true ->
  exists st',
    pseudoOperators fuel TEXT st = Ok (true, st') /\
    st' = nextLexeme
            (if isend (cur st stop)
             then errorMessage text_string stop
                    (set_lexterm stop (set_cc stop (emit_words ws st)))
             else set_lexterm (stop + 1) (set_cc (stop + 1) (emit_words ws st))) /\
    Z.of_nat (length ws) = Z.of_nat n / 2 + 1 /\
    (rim_mode (mach st) = false -> objectfile (enc st) = true ->
     object_out (enc st') = object_out (enc st) ++ concat (map data_frames ws) /\
     Z.land (clc (mach st')) 28672 = Z.land (clc (mach st)) 28672 /\
     Z.land (clc (mach st')) 4095
       = (Z.land (clc (mach st)) 4095 + (Z.of_nat n / 2 + 1)) mod 4096).
Proof.
  intros delim from stop ws H0 Hc Hs.
  assert (Hlen : (n <= String.length (line (lexs st)))%nat).
  { destruct n as [|n]; [lia|].
    destruct (Hc (from + Z.of_nat n) ltac:(lia)) as (_ & E).
    apply not_end_in_line in E. unfold strlen in E. lia. }
  destruct (text_loop_run st delim (line_chars st from n)
              (String.length (line (lexs st))) from st eq_refl)
    as (pack & count & st1 & R1 & R2 & R3).
  { rewrite line_chars_length. exact Hlen. }
  { intros i Hi. rewrite line_chars_length in Hi. rewrite line_chars_nth by exact Hi.
    split; [reflexivity|]. apply Hc. lia. }
  { rewrite line_chars_length. exact Hs. }
  rewrite line_chars_length in R1. fold stop in R1. fold ws in R3.
  assert (E : pseudo_TEXT st =
              nextLexeme
                (if isend (cur st stop)
                 then errorMessage text_string stop
                        (set_lexterm stop (set_cc stop (emit_words ws st)))
                 else set_lexterm (stop + 1) (set_cc (stop + 1) (emit_words ws st)))).
  { unfold pseudo_TEXT. fold delim. fold from. rewrite R1. cbv iota beta zeta.
    match goal with
    | |- context [incrementClc (punchOutObject (clc (mach st1)) ?w st1)] =>
        change (incrementClc (punchOutObject (clc (mach st1)) w st1)) with (emit_word w st1)
    end.
    rewrite R3.
    replace (cur (emit_words ws st) stop) with (cur st stop)
      by (unfold cur; rewrite emit_words_lexs; reflexivity).
    reflexivity. }
  exists (pseudo_TEXT st). split; [apply pseudoOperators_TEXT; lia|]. split; [exact E|].
  split; [unfold ws; rewrite sixbit_words_length, line_chars_length; reflexivity|].
  intros Hr Ho. rewrite E.
  destruct (emit_words_bin ws st Hr Ho) as (_ & _ & B3 & B4).
  assert (Q : forall s, quiet (emit_words ws st) s ->
                        mach (nextLexeme s) = mach (emit_words ws st) /\
                        enc (nextLexeme s) = enc (emit_words ws st)).
  { intros s (Q1 & Q2 & _). destruct (nextLexeme_quiet s) as (N1 & N2 & _).
    rewrite N1, N2. split; assumption. }
  assert (Q' : forall c, quiet (emit_words ws st) (set_lexterm c (set_cc c (emit_words ws st)))).
  { intros c. eapply quiet_trans; [apply set_cc_quiet | apply set_lexterm_quiet]. }
  match goal with
  | |- context [nextLexeme ?s] => destruct (Q s) as (M & N)
  end.
  { destruct (isend (cur st stop)); [|apply Q'].
    eapply quiet_trans; [apply Q' | apply errorMessage_quiet]. }
  rewrite M, N, B3, B4.
  destruct (iter_next_clc (length ws) (clc (mach st))) as (I1 & I2).
  pose proof (sixbit_words_length (line_chars st from n)) as L.
  fold ws in L. rewrite line_chars_length in L.
  rewrite I1, I2, L. repeat split; reflexivity.
Qed.

Lemma list_last_nth {A} (l : list A) (d : A) : List.last l d = nth (length l - 1) l d.
Proof.
  induction l as [|a [|b l] IH]; [reflexivity | reflexivity |].
  change (List.last (a :: b :: l) d) with (List.last (b :: l) d). rewrite IH.
  cbn [length]. replace (S (S (length l)) - 1)%nat with (S (S (length l) - 1)) by lia.
  reflexivity.
Qed.

Lemma sixbit_words_last cs :
  last (sixbit_words cs) =
  Some (if Nat.even (length cs) then 0 else Z.shiftl (sixbit (List.last cs NUL)) 6).
Proof.
  induction cs as [| a | a b l IH] using pair_ind; [reflexivity | reflexivity |].
  cbn [sixbit_words length Nat.even].
  destruct (sixbit_words l) eqn:E.
  - exfalso. pose proof (sixbit_words_length l) as L. rewrite E in L.
    pose proof (Z.div_pos (Z.of_nat (length l)) 2). simpl in L. lia.
  - rewrite last_cons_cons, IH. destruct l as [|x l']; [reflexivity|].
    destruct (Nat.even (length (x :: l'))); reflexivity.
Qed.

Lemma sixbit_words_pair cs : forall i : nat,
  (2 * i + 1 < length cs)%nat ->
  sixbit_words cs !! i =
  Some (Z.lor (Z.shiftl (sixbit (nth (2 * i) cs NUL)) 6) (sixbit (nth (2 * i + 1) cs NUL))).
Proof.
  induction cs as [| a | a b l IH] using pair_ind; intros i Hi.
  - simpl in Hi. lia.
  - simpl in Hi. lia.
  - destruct i as [|i]; [reflexivity|].
    cbn [sixbit_words]. rewrite lookup_cons. cbn [length] in Hi.
    rewrite IH by lia.
    replace (2 * S i)%nat with (S (S (2 * i))) by lia.
    replace (S (S (2 * i)) + 1)%nat with (S (S (2 * i + 1))) by lia.
    reflexivity.
Qed.

(** C6, as the code has it.  [TEXT /AB/] in BIN mode, with the object file
    open, emits two 12 bit words: 0102 at the current location and, the
    string having an even number of characters, 0000 at the next; the
    location counter moves by two.  In general TEXT packs the [n] characters
    between the delimiter (a character of the line) and its next occurrence,
    or the end of the line, two to the word, each as [ch & 077], the first
    of a pair in the high half, and emits [n / 2 + 1] words: the last word
    is the last character in the high half of a word padded with zeros when
    [n] is odd, and a word of zeros when [n] is even.  The words go to the
    tape two frames each, and the location counter moves by their number
    within the field. *)
Theorem C6_TEXT_packs_two_to_the_word :
  (forall (fuel : nat) (st : state),
     line (lexs st) = ("TEXT /AB/" ++ String NL EmptyString)%string ->
     lexstart (lexs st) = 5 ->
     rim_mode (mach st) = false -> objectfile (enc st) = true ->
     exists st',
       pseudoOperators fuel TEXT st = Ok (true, st') /\
       object_out (enc st') = object_out (enc st) ++ [1; 2] ++ [0; 0] /\
       clc (mach st') = next_clc (next_clc (clc (mach st)))) /\
  (forall (fuel : nat) (st : state) (n : nat),
     let delim := cur st (lexstart (lexs st)) in
     let from := lexstart (lexs st) + 1 in
     let stop := from + Z.of_nat n in
     let cs := line_chars st from n in
     let ws := sixbit_words cs in
     0 <= lexstart (lexs st) < strlen (line (lexs st)) ->
     (forall k, from <= k < stop ->
                chr (cur st k) delim = false /\ isend (cur st k) = false) ->
     chr (cur st stop) delim || isend (cur st stop) = true ->
     rim_mode (mach st) = false -> objectfile (enc st) = true ->
     exists st',
       pseudoOperators fuel TEXT st = Ok (true, st') /\
       Z.of_nat (length ws) = Z.of_nat n / 2 + 1 /\
       (forall i : nat, (2 * i + 1 < n)%nat ->
          ws !! i = Some (Z.lor (Z.shiftl (Z.land (code (cur st (from + Z.of_nat (2 * i)))) 63) 6)
                                (Z.land (code (cur st (from + Z.of_nat (2 * i + 1)))) 63))) /\
       last ws = Some (if Nat.even n then 0
                       else Z.shiftl (Z.land (code (cur st (stop - 1))) 63) 6) /\
       object_out (enc st') = object_out (enc st) ++ concat (map data_frames ws) /\
       Z.land (clc (mach st')) 28672 = Z.land (clc (mach st)) 28672 /\
       Z.land (clc (mach st')) 4095
         = (Z.land (clc (mach st)) 4095 + (Z.of_nat n / 2 + 1)) mod 4096).
Proof.
  split; [exact text_AB_two_words|].
  intros fuel st n delim from stop cs ws H0 Hc Hs Hr Ho.
  destruct (TEXT_packs_sixbit fuel st n H0 Hc Hs) as (st' & T1 & _ & T3 & T4).
  destruct (T4 Hr Ho) as (T5 & T6 & T7).
  exists st'. split; [exact T1|]. split; [exact T3|].
  split; [|split; [|split; [exact T5 | split; [exact T6 | exact T7]]]].
  - intros i Hi. unfold ws.
    rewrite sixbit_words_pair by (unfold cs; rewrite line_chars_length; exact Hi).
    unfold cs. rewrite !line_chars_nth by lia. reflexivity.
  - unfold ws. rewrite sixbit_words_last. unfold cs at 1. rewrite line_chars_length.
    destruct (Nat.even n) eqn:En; [reflexivity|].
    destruct n as [|m]; [discriminate|].
    rewrite list_last_nth. unfold cs. rewrite line_chars_length, line_chars_nth by lia.
    unfold sixbit, stop. do 5 f_equal. lia.
Qed.

Lemma C6_TEXT_packs_two_to_the_word_witness :
  (exists st',
     pseudoOperators 0 TEXT text_state = Ok (true, st') /\
     object_out (enc st') = [1; 2; 0; 0] /\ clc (mach st') = 2) /\
  (exists st',
     pseudoOperators 0 TEXT hello_state = Ok (true, st') /\
     object_out (enc st') = [8; 5; 12; 12; 15; 0] /\ clc (mach st') = 3).
Proof.
  split.
  - destruct (proj1 C6_TEXT_packs_two_to_the_word 0%nat text_state
                eq_refl eq_refl eq_refl eq_refl) as (st' & H1 & H2 & H3).
    exists st'. split; [exact H1|]. split; [exact H2 | exact H3].
  - destruct (proj2 C6_TEXT_packs_two_to_the_word 0%nat hello_state 5%nat)
      as (st' & H1 & _ & _ & _ & H5 & H6 & H7).
    + vm_compute. split; [discriminate | reflexivity].
    + intros k Hk. change (6 <= k < 11) in Hk.
      assert (C : k = 6 \/ k = 7 \/ k = 8 \/ k = 9 \/ k = 10) by lia.
      destruct C as [-> | [-> | [-> | [-> | ->]]]]; vm_compute; split; reflexivity.
    + vm_compute. reflexivity.
    + reflexivity.
    + reflexivity.
    + exists st'. split; [exact H1|].
      split; [etransitivity; [exact H5 | vm_compute; reflexivity]|].
      vm_compute in H1. injection H1 as <-. reflexivity.
Defined.

Lemma zblock_loop_words n : forall st, zblock_loop n st = emit_words (replicate n 0) st.
Proof. induction n as [|n IH]; intros st; [reflexivity | apply IH]. Qed.

Lemma zero_frames (n : nat) : concat (map data_frames (replicate n 0)) = replicate (2 * n) 0.
Proof.
  induction n as [|n IH]; [reflexivity|].
  replace (2 * S n)%nat with (S (S (2 * n))) by lia.
  cbn [replicate map concat]. rewrite IH. reflexivity.
Qed.

Lemma pseudoOperators_ZBLOCK fuel :
  pseudoOperators fuel ZBLOCK =
  (do e <- getExpr fuel;
   run (fun s =>
     if val e <? 0 then errorMessage zblock_too_small (lexstartprev (lexs s)) s
     else if 4095 <? val e + Z.land (clc (mach s)) 4095 - 1
     then errorMessage zblock_too_large (lexstartprev (lexs s)) s
     else zblock_loop (Z.to_nat (val e)) s);
   ret true).
Proof. reflexivity. Qed.

(** X19 (ZBLOCK of [pseudoOperators]).  ZBLOCK with the value [n] emits [n]
    words of zero: in BIN mode [2 n] frames of zero, and the location
    counter moves by [n] within the field.  A block that ends at the last
    location of the field is accepted (the counter then wraps to location 0
    of the field); a negative [n], or a block that would pass the end of the
    field, is reported and emits nothing. *)
Theorem ZBLOCK_zero_words fuel st e st1 :
  getExpr fuel st = Ok (e, st1) ->
  let n := val e in
  let off := Z.land (clc (mach st)) 4095 in
  exists st',
    pseudoOperators fuel ZBLOCK st = Ok (true, st') /\
    (n < 0 -> st' = errorMessage zblock_too_small (lexstartprev (lexs st1)) st1) /\
    (0 <= n -> 4096 < n + off ->
     st' = errorMessage zblock_too_large (lexstartprev (lexs st1)) st1) /\
    (0 <= n -> n + off <= 4096 ->
     st' = emit_words (replicate (Z.to_nat n) 0) st1 /\
     (rim_mode (mach st) = false -> objectfile (enc st) = true ->
      object_out (enc st') = object_out (enc st) ++ replicate (Z.to_nat (2 * n)) 0 /\
      Z.land (clc (mach st')) 28672 = Z.land (clc (mach st)) 28672 /\
      Z.land (clc (mach st')) 4095 = (off + n) mod 4096)).
Proof.
  intros He n off.
  destruct (getExpr_keeps (R := expr_frame) fuel _ _ _ He) as (Hm & Hen & _).
  rewrite pseudoOperators_ZBLOCK. unfold bind at 1. rewrite He. cbv beta iota.
  unfold bind, modify, ret. cbv beta iota. fold n. rewrite Hm. fold off.
  eexists. split; [reflexivity|].
  split; [|split].
  - intros H. replace (n <? 0) with true by (symmetry; apply Z.ltb_lt; exact H). reflexivity.
  - intros H1 H2. replace (n <? 0) with false by (symmetry; apply Z.ltb_ge; exact H1).
    replace (4095 <? n + off - 1) with true by (symmetry; apply Z.ltb_lt; lia). reflexivity.
  - intros H1 H2. replace (n <? 0) with false by (symmetry; apply Z.ltb_ge; exact H1).
    replace (4095 <? n + off - 1) with false by (symmetry; apply Z.ltb_ge; lia).
    rewrite zblock_loop_words. split; [reflexivity|].
    intros Hr Ho. rewrite <- Hm in Hr. rewrite <- Hen in Ho.
    destruct (emit_words_bin (replicate (Z.to_nat n) 0) st1 Hr Ho) as (_ & _ & B3 & B4).
    destruct (iter_next_clc (length (replicate (Z.to_nat n) 0)) (clc (mach st1))) as (I1 & I2).
    rewrite B3, B4, I1, I2, zero_frames, length_replicate, Hm, Hen, Z2Nat.id by exact H1.
    fold off. replace (2 * Z.to_nat n)%nat with (Z.to_nat (2 * n)) by lia.
    repeat split; reflexivity.
Qed.

Lemma ZBLOCK_zero_words_witness :
  exists st',
    pseudoOperators 5 ZBLOCK zblock_state = Ok (true, st') /\
    object_out (enc st') = [0; 0; 0; 0; 0; 0] /\ clc (mach st') = 131.
Proof.
  destruct (getExpr 5 zblock_state) as [[e st1]|f] eqn:He; [|vm_compute in He; discriminate].
  destruct (ZBLOCK_zero_words 5 zblock_state e st1 He) as (st' & H1 & _ & _ & H4).
  pose proof He as He'. vm_compute in He'. injection He' as <- <-.
  exists st'. split; [exact H1|].
  destruct H4 as (-> & _); [vm_compute; discriminate | vm_compute; discriminate |].
  vm_compute. split; reflexivity.
Defined.

(** * Double precision integers *)

(** ** The digits of [evalDubl] *)

Lemma wlong_small W z : 0 < W -> - 2 ^ (W - 1) <= z < 2 ^ (W - 1) -> wlong W z = z.
Proof.
  intros HW Hz. unfold wlong.
  assert (E : 2 ^ W = 2 * 2 ^ (W - 1)).
  { replace W with (Z.succ (W - 1)) at 1 by lia. apply Z.pow_succ_r. lia. }
  rewrite Z.mod_small by lia. lia.
Qed.

Lemma digit_range c : isdigit c = true -> 0 <= code c - 48 <= 9.
Proof. unfold isdigit. intros H. apply andb_true_iff in H as (A & B). lia. Qed.

Lemma positional_ext r st st' (n : nat) : forall from,
  line (lexs st') = line (lexs st) -> positional r st' from n = positional r st from n.
Proof.
  induction n as [|n IH]; intros from E; [reflexivity|].
  cbn [positional]. rewrite IH by exact E. unfold digit_at, cur. rewrite E. reflexivity.
Qed.

(** A run of [n] digits is read without an error as long as the value fits;
    the loop goes on behind it. *)
Lemma evalDubl_loop_prefix W st (n : nat) : forall (m : nat) from v,
  0 < W ->
  (forall k, from <= k < from + Z.of_nat n -> isdigit (cur st k) = true) ->
  from + Z.of_nat n <= lexterm (lexs st) ->
  0 <= v -> (v + 1) * 10 ^ Z.of_nat n <= 2 ^ (W - 1) ->
  evalDubl_loop W (n + m) from v st =
  evalDubl_loop W m (from + Z.of_nat n) (v * 10 ^ Z.of_nat n + positional 10 st from n) st.
Proof.
  induction n as [|n IH]; intros m from v HW Hd Ht Hv Hb.
  - cbn [positional Nat.add]. change (Z.of_nat 0) with 0.
    rewrite Z.pow_0_r, Z.mul_1_r, !Z.add_0_r. reflexivity.
  - cbn [Nat.add evalDubl_loop].
    replace (from <? lexterm (lexs st)) with true by (symmetry; apply Z.ltb_lt; lia).
    rewrite (Hd from ltac:(lia)).
    pose proof (digit_range _ (Hd from ltac:(lia))) as D.
    rewrite Nat2Z.inj_succ, Z.pow_succ_r in Hb by lia.
    assert (P : 0 < 10 ^ Z.of_nat n) by (apply Z.pow_pos_nonneg; lia).
    rewrite wlong_small by (try exact HW; nia).
    rewrite IH; [| exact HW | intros k Hk; apply Hd; lia | lia | lia | nia].
    cbn [positional]. unfold digit_at.
    replace (from + 1 + Z.of_nat n) with (from + Z.of_nat (S n)) by lia.
    f_equal. rewrite Nat2Z.inj_succ, Z.pow_succ_r by lia. ring.
Qed.

(** X20 ([evalDubl]).  On a lexeme of digits [evalDubl] returns, from the
    value [v], the number [v * 10 ^ n + d] for the [n] digits spelling [d]
    in decimal, whatever the radix, as long as the value stays below the
    range of [long]; it records the character behind the lexeme as the
    delimiter and reports nothing. *)
Theorem evalDubl_digits W v st :
  let a := lexstart (lexs st) in
  let b := lexterm (lexs st) in
  0 < W -> a <= b ->
  (forall k, a <= k < b -> isdigit (cur st k) = true) ->
  0 <= v -> (v + 1) * 10 ^ (b - a) <= 2 ^ (W - 1) ->
  evalDubl W v st =
  (v * 10 ^ (b - a) + positional 10 st a (Z.to_nat (b - a)), set_delimiter (cur st b) st).
Proof.
  intros a b HW Hab Hd Hv Hb. unfold evalDubl. cbv zeta.
  set (st1 := set_delimiter (cur st (lexterm (lexs st))) st).
  change (lexterm (lexs st1)) with b. change (lexstart (lexs st1)) with a.
  pose proof (evalDubl_loop_prefix W st1 (Z.to_nat (b - a)) 0 a v HW) as P.
  rewrite Nat.add_0_r, Z2Nat.id in P by lia.
  rewrite P; [| intros k Hk; apply Hd; lia | change (lexterm (lexs st1)) with b; lia
              | exact Hv | exact Hb].
  cbn [evalDubl_loop]. rewrite (positional_ext 10 st st1) by reflexivity. reflexivity.
Qed.

Lemma evalDubl_digits_witness :
  evalDubl 32 0 (number_state 8 "4095")
    = (4095, set_delimiter NL (number_state 8 "4095")).
Proof.
  rewrite (evalDubl_digits 32 0 (number_state 8 "4095")).
  - reflexivity.
  - reflexivity.
  - vm_compute. discriminate.
  - intros k Hk. change (0 <= k < 4) in Hk.
    assert (C : k = 0 \/ k = 1 \/ k = 2 \/ k = 3) by lia.
    destruct C as [-> | [-> | [-> | ->]]]; reflexivity.
  - lia.
  - vm_compute. discriminate.
Defined.
